(** * Search-space enumeration of connected partitions (ECDA2019)

    A shallow embedding of [code/datastructures.py]: the cluster labels
    ([fset]), the partition nodes ([SearchSpaceNode]), the levels
    ([SearchSpaceLevel]) and the search space ([SearchSpace]), together with
    the fragment of [networkx.Graph] they rely on.

    Conventions.
    - Original node identifiers are Python ints, modelled as [Z].
    - A [frozenset] of ints is a [gset Z]; Python's frozenset equality and
      hash depend on the members only, which is Leibniz equality on [gset].
    - A [networkx.Graph] is its adjacency dict-of-dicts; Python dicts keep
      insertion order, so it is an association list from a vertex to the
      list of its neighbours, both in insertion order.
    - A Python [set] of partition nodes is the list of its entries (stored
      hash, element) in insertion order; only its size and its members are
      ever observed by the program.
    - Exceptions are values of [exn]; fallible pure code returns [res],
      code that mutates levels runs in the state monad [M]. *)

From stdpp Require Import base gmap sets list strings sorting.
From Stdlib Require Import ZArith Lia.

Local Open Scope Z_scope.

(** ** Exceptions and results *)

Inductive exn : Type :=
  | ValueError (msg : string)
  | AssertionError
  | ZeroDivisionError
  | TypeError
  | AttributeError
  | IndexError.

(** [Timeout] is not a Python outcome: it marks a loop that used up the
    fuel of the model. *)
Inductive res (A : Type) : Type :=
  | Ok (a : A)
  | Raise (e : exn)
  | Timeout.
Arguments Ok {A} a.
Arguments Raise {A} e.
Arguments Timeout {A}.

Definition res_bind {A B} (r : res A) (k : A → res B) : res B :=
  match r with
  | Ok a => k a
  | Raise e => Raise e
  | Timeout => Timeout
  end.

Notation "'let*' x ':=' r 'in' k" := (res_bind r (fun x => k))
  (at level 10, x name, r at level 100, k at level 200).

Definition is_ok {A} (r : res A) : bool :=
  match r with Ok _ => true | _ => false end.

(** ** Python's [sorted] *)

(** [sorted] only ever asks [x < y]; it is modelled as a stable insertion
    sort in which the new element [x] goes in front of the first [y] with
    [x < y].  For a comparison that is a strict total order every
    comparison sort returns the same list. *)
Section Sorted.
Context {A : Type} (lt : A → A → res bool).

Fixpoint sorted_insert (x : A) (l : list A) : res (list A) :=
  match l with
  | [] => Ok [x]
  | y :: l' =>
      let* b := lt x y in
      if b then Ok (x :: y :: l')
      else (let* r := sorted_insert x l' in Ok (y :: r))
  end.

Fixpoint sorted_from (acc : list A) (l : list A) : res (list A) :=
  match l with
  | [] => Ok acc
  | x :: l' => let* acc' := sorted_insert x acc in sorted_from acc' l'
  end.

Definition sorted (l : list A) : res (list A) := sorted_from [] l.
End Sorted.

(** ** Cluster labels: [class fset(frozenset)] *)

Abbreviation fset := (gset Z).

(** [min(self)]: raises [ValueError] on the empty set. *)
Definition py_min_list (l : list Z) : res Z :=
  match l with
  | [] => Raise (ValueError "min() arg is an empty sequence")
  | x :: l' => Ok (foldl Z.min x l')
  end.

Definition py_min (x : fset) : res Z := py_min_list (elements x).

Definition Z_lt_res (a b : Z) : res bool := Ok (a <? b).

(** [sorted(self)] on a frozenset of ints. *)
Definition sorted_members (x : fset) : list Z :=
  match sorted Z_lt_res (elements x) with
  | Ok l => l
  | _ => []
  end.

(** The [for idx, el in enumerate(x_sorted)] loop of [fset.__lt__] together
    with the length test that follows it; [ys] is what is left of
    [y_sorted] from index [idx] on. *)
Fixpoint fset_lt_loop (xs ys : list Z) : bool :=
  match xs with
  | [] =>
      (* loop finished: len(x_sorted) < len(y_sorted) *)
      match ys with [] => false | _ :: _ => true end
  | el :: xs' =>
      match ys with
      | [] => false                      (* idx >= len(y_sorted) *)
      | y :: ys' =>
          if el <? y then true
          else if y <? el then false
          else fset_lt_loop xs' ys'
      end
  end.

(** [fset.__lt__(self, y)]. *)
Definition fset_lt (x y : fset) : res bool :=
  let* mx := py_min x in
  let* my := py_min y in
  if mx <? my then Ok true
  else if my <? mx then Ok false
  else Ok (fset_lt_loop (sorted_members x) (sorted_members y)).

(** [fset.__gt__], [__le__], [__ge__]. *)
Definition fset_eqb (x y : fset) : bool := bool_decide (x = y).

Definition fset_gt (x y : fset) : res bool :=
  let* b := fset_lt x y in Ok (negb b && negb (fset_eqb x y)).

Definition fset_le (x y : fset) : res bool :=
  let* b := fset_lt x y in Ok (b || fset_eqb x y).

Definition fset_ge (x y : fset) : res bool :=
  let* b := fset_gt x y in Ok (b || fset_eqb x y).

(** ** The fragment of [networkx.Graph] the program uses *)

(** [Graph V] is the adjacency structure [_adj]: every vertex with the list
    of its neighbours, in insertion order. *)
Abbreviation Graph V := (list (V * list V)).

Section Networkx.
Context {V : Type} `{EqDecision V}.

Definition nodes (g : Graph V) : list V := g.*1.

(** [Graph.order()] and [len(graph)]. *)
Definition order (g : Graph V) : nat := length g.

Definition has_node (n : V) (g : Graph V) : bool := bool_decide (n ∈ nodes g).

(** [self._adj[u]]; [None] stands for [KeyError]. *)
Fixpoint nbrs_of (u : V) (g : Graph V) : option (list V) :=
  match g with
  | [] => None
  | (n, nb) :: g' => if decide (n = u) then Some nb else nbrs_of u g'
  end.

Definition add_node (n : V) (g : Graph V) : Graph V :=
  if has_node n g then g else g ++ [(n, [])].

(** [self._adj[u][v] = datadict]: a new key goes last, an old one keeps
    its place. *)
Definition add_nbr (u v : V) (g : Graph V) : Graph V :=
  (λ p : V * list V,
     if decide (p.1 = u)
     then (p.1, if decide (v ∈ p.2) then p.2 else p.2 ++ [v])
     else p) <$> g.

Definition add_edge (u v : V) (g : Graph V) : Graph V :=
  add_nbr v u (add_nbr u v (add_node v (add_node u g))).

(** Iteration over [EdgeView]: every vertex in turn reports the
    neighbours that were not visited before it. *)
Fixpoint edges_from (seen : list V) (g : Graph V) : list (V * V) :=
  match g with
  | [] => []
  | (n, nb) :: g' =>
      ((λ b, (n, b)) <$> filter (λ b, b ∉ seen) nb) ++ edges_from (n :: seen) g'
  end.

Definition edges (g : Graph V) : list (V * V) := edges_from [] g.

(** [EdgeView.__len__] and [Graph.size()]: half the sum of the degrees, a
    self-loop counting twice. *)
Definition degree_sum (g : Graph V) : nat :=
  sum_list ((λ p : V * list V,
               length p.2 + (if decide (p.1 ∈ p.2) then 1 else 0))%nat <$> g).

Definition edges_len (g : Graph V) : nat := (degree_sum g / 2)%nat.

Definition number_of_edges (g : Graph V) : nat := edges_len g.

(** [EdgeView.__contains__]: a [KeyError] is caught and answers [False]. *)
Definition edges_contains (e : V * V) (g : Graph V) : bool :=
  match nbrs_of e.1 g with
  | None => false
  | Some nu =>
      if decide (e.2 ∈ nu) then true
      else match nbrs_of e.2 g with
           | None => false
           | Some nv => bool_decide (e.1 ∈ nv)
           end
  end.

(** [collections.abc.Set.__le__] and [__eq__] on two edge views. *)
Definition edges_le (g1 g2 : Graph V) : bool :=
  if (edges_len g2 <? edges_len g1)%nat then false
  else forallb (λ e, edges_contains e g2) (edges g1).

Definition edges_eqb (g1 g2 : Graph V) : bool :=
  (edges_len g1 =? edges_len g2)%nat && edges_le g1 g2.
End Networkx.

(** ** Partition nodes: [class SearchSpaceNode] *)

(** What [SearchSpaceNode.__init__] asks of the vertices of the graph it is
    given: they can be compared by [sorted] and frozen by [freeze]. *)
Class PyNode (V : Type) := {
  py_lt : V → V → res bool;
  freeze : V → fset
}.

(** An int is not iterable: [fset(x)] raises [TypeError] and [freeze]
    answers [fset([x])]. *)
#[global] Instance PyNode_int : PyNode Z :=
  {| py_lt := Z_lt_res; freeze := λ x, {[ x ]} |}.

(** A frozenset is iterable: [fset(x)] has the members of [x].  The merged
    label [s.union(t)] is a plain [frozenset]; when [sorted] compares it
    with an [fset] Python dispatches to the reflected [fset.__gt__], which
    agrees with [fset.__lt__] wherever the latter is a strict total
    order. *)
#[global] Instance PyNode_fset : PyNode fset :=
  {| py_lt := fset_lt; freeze := λ x, x |}.

Record SearchSpaceNode : Type := mkNode { _graph : Graph fset }.

Definition unpack_error : exn := ValueError "not enough values to unpack".

(** [s, t = sorted(edge)]. *)
Definition sorted_edge {V} `{PyNode V} (e : V * V) : res (V * V) :=
  let* l := sorted py_lt [e.1; e.2] in
  match l with
  | [s; t] => Ok (s, t)
  | _ => Raise unpack_error
  end.

Fixpoint init_edges {V} `{PyNode V} (es : list (V * V)) (acc : Graph fset)
    : res (Graph fset) :=
  match es with
  | [] => Ok acc
  | e :: es' =>
      let* st := sorted_edge e in
      init_edges es' (add_edge (freeze st.1) (freeze st.2) acc)
  end.

(** [SearchSpaceNode.__init__(self, g)]. *)
Definition SearchSpaceNode_init {V} `{PyNode V, EqDecision V} (g : Graph V)
    : res SearchSpaceNode :=
  let* g1 := init_edges (edges g) [] in
  Ok (mkNode (foldl (λ acc n, add_node (freeze n) acc) g1 (nodes g))).

(** Python's comparison of two tuples: the first position where they
    differ decides, a proper prefix is smaller. *)
Fixpoint tuple_lt (p q : list fset) : res bool :=
  match p, q with
  | [], [] => Ok false
  | [], _ :: _ => Ok true
  | _ :: _, [] => Ok false
  | a :: p', b :: q' => if decide (a = b) then tuple_lt p' q' else fset_lt a b
  end.

Fixpoint hash_edges (es : list (fset * fset)) : res (list (list fset)) :=
  match es with
  | [] => Ok []
  | e :: es' =>
      let* t := sorted fset_lt [e.1; e.2] in
      let* ts := hash_edges es' in
      Ok (t :: ts)
  end.

(** The tuple handed to [hash] by [SearchSpaceNode.__hash__]:
    [tuple(sorted(tuple(tuple(sorted(e)) for e in self._graph.edges)))]. *)
Definition hash_key (x : SearchSpaceNode) : res (list (list fset)) :=
  let* ts := hash_edges (edges (_graph x)) in
  sorted tuple_lt ts.

(** [SearchSpaceNode.__eq__]. *)
Definition SearchSpaceNode_eq (x y : SearchSpaceNode) : bool :=
  edges_eqb (_graph x) (_graph y).

(** [a in edge] for the tuple [edge = (s, t)]. *)
Definition in_edge (a : fset) (edge : fset * fset) : bool :=
  bool_decide (a = edge.1) || bool_decide (a = edge.2).

(** The inner loop of [SearchSpaceNode.expand] for one edge [e] of the
    parent. *)
Definition merge_step (edge : fset * fset) (new_node : fset)
    (new_graph : Graph fset) (e : fset * fset) : Graph fset :=
  if decide (edge = e) then new_graph
  else if in_edge e.1 edge then add_edge new_node e.2 new_graph
  else if in_edge e.2 edge then add_edge e.1 new_node new_graph
  else add_edge e.1 e.2 new_graph.

Definition merged_graph (g : Graph fset) (edge : fset * fset) : Graph fset :=
  let new_node := edge.1 ∪ edge.2 in
  foldl (merge_step edge new_node) (add_node new_node []) (edges g).

(** One turn of the outer loop of [SearchSpaceNode.expand]: the child for
    [edge], or the failed assertion. *)
Definition expand_child (g : Graph fset) (edge : fset * fset)
    : res SearchSpaceNode :=
  let new_graph := merged_graph g edge in
  if decide (Z.of_nat (order new_graph) = Z.of_nat (order g) - 1)
  then SearchSpaceNode_init new_graph
  else Raise AssertionError.

(** [SearchSpaceNode.expand]: the generator is the list of what each turn
    yields or raises; a consumer stops at the first exception. *)
Definition SearchSpaceNode_expand (x : SearchSpaceNode)
    : list (res SearchSpaceNode) :=
  expand_child (_graph x) <$> edges (_graph x).

(** [SearchSpaceNode.__str__], before the labels are joined into text:
    the labels in the order of [sorted(self._graph.nodes)]; a comparison
    with an empty label raises. *)
Definition SearchSpaceNode_str (x : SearchSpaceNode) : res (list fset) :=
  sorted fset_lt (nodes (_graph x)).

(** [map(str, nodes)] as [join] consumes it: it stops at the first node
    whose [__str__] raises. *)
Fixpoint str_nodes (ns : list SearchSpaceNode) : res (list (list fset)) :=
  match ns with
  | [] => Ok []
  | x :: ns' =>
      let* t := SearchSpaceNode_str x in
      let* ts := str_nodes ns' in
      Ok (t :: ts)
  end.

(** ** State: a store of level objects *)

(** Stateful code is a function from the state to an outcome and the state
    it leaves behind; an exception keeps the mutations made before it. *)
Definition M (S A : Type) : Type := S → res A * S.

Definition ret {S A} (a : A) : M S A := λ s, (Ok a, s).
Definition raise {S A} (e : exn) : M S A := λ s, (Raise e, s).
Definition timeout {S A} : M S A := λ s, (Timeout, s).
Definition bind {S A B} (m : M S A) (k : A → M S B) : M S B :=
  λ s, match m s with
       | (Ok a, s') => k a s'
       | (Raise e, s') => (Raise e, s')
       | (Timeout, s') => (Timeout, s')
       end.
Definition lift_res {S A} (r : res A) : M S A := λ s, (r, s).

Notation "'let!' x ':=' m 'in' k" := (bind m (fun x => k))
  (at level 10, x name, m at level 100, k at level 200).

Fixpoint forM_ {S A} (l : list A) (f : A → M S unit) : M S unit :=
  match l with
  | [] => ret tt
  | x :: l' => let! _ := f x in forM_ l' f
  end.

(** A Python [set] of partition nodes: its entries, each with the hash
    stored at insertion. *)
Abbreviation pyset := (list (Z * SearchSpaceNode)).

Record SearchSpaceLevel : Type := mkLevel {
  _next : option nat;
  _previous : option nat;
  _level : nat;
  _num_partitions : option nat;
  _nodes : option pyset
}.

(** Level objects live in a store and are referred to by their address. *)
Abbreviation heap := (list SearchSpaceLevel).

Definition get_level (a : nat) : M heap SearchSpaceLevel :=
  λ h, match h !! a with
       | Some lv => (Ok lv, h)
       | None => (Raise AttributeError, h)   (* no such object *)
       end.

Definition put_level (a : nat) (lv : SearchSpaceLevel) : M heap unit :=
  λ h, (Ok tt, <[a := lv]> h).

Definition alloc_level (lv : SearchSpaceLevel) : M heap nat :=
  λ h, (Ok (length h), h ++ [lv]).

Section Levels.
(** Python's [hash] on the tuple built by [SearchSpaceNode.__hash__]; a
    function of the value of the tuple, otherwise arbitrary. *)
Variable py_hash : list (list fset) → Z.

(** [SearchSpaceNode.__hash__]. *)
Definition SearchSpaceNode_hash (x : SearchSpaceNode) : res Z :=
  let* k := hash_key x in Ok (py_hash k).

(** [set.add(x)]: [x] is already there when an entry has the same hash
    and compares equal to it. *)
Definition pyset_add (x : SearchSpaceNode) (s : pyset) : res pyset :=
  let* hx := SearchSpaceNode_hash x in
  if existsb (λ p : Z * SearchSpaceNode,
                (p.1 =? hx) && SearchSpaceNode_eq p.2 x) s
  then Ok s
  else Ok (s ++ [(hx, x)]).

(** The truth value of the [graph] argument: a graph is false when it has
    no node, [None] is false. *)
Definition truthy_graph (graph : option (Graph Z)) : option (Graph Z) :=
  match graph with
  | Some g => if (order g =? 0)%nat then None else Some g
  | None => None
  end.

(** [SearchSpaceLevel.__init__(self, graph=None, previous=None)]; a level
    object has no [__bool__] or [__len__], so [previous] is true exactly
    when it is given. *)
Definition SearchSpaceLevel_init (graph : option (Graph Z))
    (previous : option nat) : M heap nat :=
  match truthy_graph graph, previous with
  | Some _, Some _ => raise (ValueError "Only one of graph and previous allowed")
  | None, None => raise (ValueError "Either graph or previous needed")
  | Some g, None =>
      let! node := lift_res (SearchSpaceNode_init g) in
      let! s := lift_res (pyset_add node []) in
      alloc_level (mkLevel None None 0 None (Some s))
  | None, Some p =>
      let! prev := get_level p in
      alloc_level (mkLevel None (Some p) (_level prev + 1) None (Some []))
  end.

(** The [level] property. *)
Definition level (self : nat) : M heap nat :=
  let! lv := get_level self in ret (_level lv).

(** The [num_partitions] property. *)
Definition num_partitions (self : nat) : M heap nat :=
  let! lv := get_level self in
  match _num_partitions lv with
  | Some k => ret k
  | None =>
      match _nodes lv with
      | Some s => ret (length s)
      | None => raise TypeError                 (* len(None) *)
      end
  end.

(** The [nodes] property. *)
Definition level_nodes (self : nat) : M heap (option pyset) :=
  let! lv := get_level self in ret (_nodes lv).

(** [SearchSpaceLevel.add_node]. *)
Definition level_add_node (self : nat) (node : SearchSpaceNode) : M heap unit :=
  let! lv := get_level self in
  match _nodes lv with
  | None => raise AttributeError               (* None.add *)
  | Some s =>
      let! s' := lift_res (pyset_add node s) in
      put_level self (mkLevel (_next lv) (_previous lv) (_level lv)
                              (_num_partitions lv) (Some s'))
  end.

(** [SearchSpaceLevel.expand]. *)
Definition SearchSpaceLevel_expand (self : nat) : M heap nat :=
  let! lv := get_level self in
  match _next lv with
  | Some _ => raise (ValueError "Already expanded")
  | None =>
      let! nxt := SearchSpaceLevel_init None (Some self) in
      let! _ := put_level self (mkLevel (Some nxt) (_previous lv) (_level lv)
                                        (_num_partitions lv) (_nodes lv)) in
      match _nodes lv with
      | None => raise TypeError                (* iterating over None *)
      | Some s =>
          let! _ := forM_ s (λ p,
                      forM_ (SearchSpaceNode_expand p.2) (λ r,
                        let! new_node := lift_res r in
                        level_add_node nxt new_node)) in
          ret nxt
      end
  end.

(** [SearchSpaceLevel.compress]. *)
Definition SearchSpaceLevel_compress (self : nat) : M heap unit :=
  let! lv := get_level self in
  match _nodes lv with
  | Some s =>
      put_level self (mkLevel (_next lv) (_previous lv) (_level lv)
                              (Some (length s)) None)
  | None => ret tt
  end.

(** [SearchSpaceLevel.mean_num_edges]; the quotient of the true division
    is kept as numerator and denominator. *)
Definition mean_num_edges (self : nat) : M heap (nat * nat) :=
  let! lv := get_level self in
  match _nodes lv with
  | None => raise (ValueError "The search space is compressed, computation impossible")
  | Some s =>
      if (length s =? 0)%nat then raise ZeroDivisionError
      else ret (sum_list ((λ p : Z * SearchSpaceNode, number_of_edges (_graph p.2)) <$> s),
                length s)
  end.
End Levels.

(** ** The combinatorics collaborator (sympy) *)

(** Modelled from the spec: [sympy]'s [stirling], [binomial] and [bell] are
    not part of the repository; they are the Stirling numbers of the second
    kind, the binomial coefficients and the Bell numbers, by their usual
    recurrences. *)
Fixpoint stirling2 (n k : nat) : nat :=
  match n, k with
  | O, O => 1
  | O, S _ => 0
  | S _, O => 0
  | S n', S k' => (S k' * stirling2 n' (S k') + stirling2 n' k')%nat
  end.

Fixpoint binom (n k : nat) : nat :=
  match n, k with
  | _, O => 1
  | O, S _ => 0
  | S n', S k' => (binom n' k' + binom n' (S k'))%nat
  end.

(** [stirling(n, k)] for a node count [n]: zero outside [0 <= k <= n]. *)
Definition py_stirling (n : nat) (k : Z) : Z :=
  if k <? 0 then 0 else Z.of_nat (stirling2 n (Z.to_nat k)).

(** [binomial(n, k)] on integers: zero for negative [k], the generalised
    coefficient for negative [n]. *)
Definition py_binomial (n k : Z) : Z :=
  if k <? 0 then 0
  else if n <? 0
       then (if Z.even k then 1 else -1)
            * Z.of_nat (binom (Z.to_nat (k - n - 1)) (Z.to_nat k))
       else Z.of_nat (binom (Z.to_nat n) (Z.to_nat k)).

(** [bell(n)]. *)
Definition py_bell (n : nat) : Z :=
  Z.of_nat (sum_list ((λ k, stirling2 n k) <$> seq 0 (S n))).

(** ** The search space: [class SearchSpace] *)

(** The arguments of [SearchSpace.__init__]; they are never reassigned. *)
Record SearchSpace : Type := mkSpace {
  ss_graph : Graph Z;
  ss_compress : bool
}.

(** The mutable part: the attribute [_levels] of the search space and the
    store of level objects. *)
Record world : Type := mkWorld {
  _levels : option (list nat);
  w_heap : heap
}.

Definition on_heap {A} (m : M heap A) : M world A :=
  λ w, let (r, h) := m (w_heap w) in (r, mkWorld (_levels w) h).

Definition set_levels (ls : list nat) : M world unit :=
  λ w, (Ok tt, mkWorld (Some ls) (w_heap w)).

(** Reading [self._levels] in order to subscript it. *)
Definition get_levels : M world (list nat) :=
  λ w, match _levels w with
       | Some ls => (Ok ls, w)
       | None => (Raise TypeError, w)            (* None[...] *)
       end.

(** [l[i]] with Python's negative indices. *)
Definition py_index {A} (l : list A) (i : Z) : res A :=
  let j := if i <? 0 then Z.of_nat (length l) + i else i in
  if j <? 0 then Raise IndexError
  else match l !! Z.to_nat j with
       | Some x => Ok x
       | None => Raise IndexError
       end.

Section Space.
Variable py_hash : list (list fset) → Z.

(** The [while] loop of [SearchSpace.build]. *)
Fixpoint build_loop (fuel : nat) (compress : bool) : M world unit :=
  let! ls := get_levels in
  let! last := lift_res (py_index ls (-1)) in
  let! np := on_heap (num_partitions last) in
  if (1 <? np)%nat then
    match fuel with
    | O => timeout
    | S fuel' =>
        let! new_level := on_heap (SearchSpaceLevel_expand py_hash last) in
        let! _ := set_levels (ls ++ [new_level]) in
        let! _ := (if compress
                   then let! ls' := get_levels in
                        let! l2 := lift_res (py_index ls' (-2)) in
                        on_heap (SearchSpaceLevel_compress l2)
                   else ret tt) in
        build_loop fuel' compress
    end
  else ret tt.

(** [SearchSpace.build]; every turn of the loop removes a vertex from the
    partition nodes, so the node count of the graph is fuel enough. *)
Definition SearchSpace_build (self : SearchSpace) : M world (list nat) :=
  let! first_level := on_heap (SearchSpaceLevel_init py_hash (Some (ss_graph self)) None) in
  let! second_level := on_heap (SearchSpaceLevel_expand py_hash first_level) in
  let! _ := set_levels [first_level; second_level] in
  let! _ := (if ss_compress self
             then on_heap (SearchSpaceLevel_compress first_level) else ret tt) in
  let! _ := build_loop (order (ss_graph self)) (ss_compress self) in
  let! _ := (if ss_compress self
             then let! ls := get_levels in
                  let! l1 := lift_res (py_index ls (-1)) in
                  on_heap (SearchSpaceLevel_compress l1)
             else ret tt) in
  get_levels.

Definition num_nodes (self : SearchSpace) : nat := order (ss_graph self).
Definition num_edges (self : SearchSpace) : nat := number_of_edges (ss_graph self).

(** The [levels] and [num_levels] properties. *)
Definition levels : M world (option (list nat)) := λ w, (Ok (_levels w), w).
Definition num_levels : M world nat :=
  let! ls := levels in
  match ls with
  | Some l => ret (length l)
  | None => raise TypeError
  end.

Definition bell (self : SearchSpace) : Z := py_bell (num_nodes self).
Definition num_partitions_ub (self : SearchSpace) : Z := bell self.
Definition num_partitions_lb (self : SearchSpace) : Z :=
  2 ^ (Z.of_nat (num_nodes self) - 1).

Fixpoint sum_num_partitions (ls : list nat) : M heap nat :=
  match ls with
  | [] => ret 0%nat
  | l :: ls' =>
      let! p := num_partitions l in
      let! q := sum_num_partitions ls' in
      ret (p + q)%nat
  end.

(** [SearchSpace.num_partitions(level=None)]. *)
Definition SearchSpace_num_partitions (lvl : option Z) : M world nat :=
  let! ls := levels in
  match lvl with
  | None =>
      match ls with
      | Some l => on_heap (sum_num_partitions l)
      | None => raise TypeError
      end
  | Some i =>
      match ls with
      | Some l => let! a := lift_res (py_index l i) in on_heap (num_partitions a)
      | None => raise TypeError
      end
  end.

Definition stirling (self : SearchSpace) (lvl : Z) : Z :=
  py_stirling (num_nodes self) (Z.of_nat (num_nodes self) - lvl).

Definition num_k_partitions_ub (self : SearchSpace) (lvl : Z) : Z :=
  stirling self lvl.

Definition num_k_partitions_lb (self : SearchSpace) (lvl : Z) : Z :=
  py_binomial (Z.of_nat (num_nodes self) - 1) (Z.of_nat (num_nodes self) - lvl - 1).

(** What [print_results] writes, line by line; the rendering of numbers
    and labels as text is left out.  The line of partitions holds one
    entry per partition node, in the order in which they are written, each
    with its labels in the order of its [__str__]. *)
Inductive line : Type :=
  | BellLine (b : Z)
  | TotalLine (p : nat)
  | LevelLine (lev : nat) (k : Z) (st : Z) (p : nat)
  | PartitionsLine (ns : list (list fset))
  | BlankLine.

(** The order in which Python iterates over a set, given its entries with
    their hashes in the order of insertion. *)
Variable py_set_iter : pyset → pyset.

(** The loop of [print_results] over the levels: the line of the level
    and, under the guard [level.nodes and print_nodes], the line of
    ['\t'.join(map(str, level.nodes))]; an exception of [str(node)] ends
    the loop. *)
Fixpoint print_levels (self : SearchSpace) (print_nodes : bool) (ls : list nat)
    : M heap (list line) :=
  match ls with
  | [] => ret []
  | l :: ls' =>
      let! lev := level l in
      let! p := num_partitions l in
      let row := LevelLine lev (Z.of_nat (num_nodes self) - Z.of_nat lev)
                           (stirling self (Z.of_nat lev)) p in
      let! ns := level_nodes l in
      let! dump := match ns with
                   | Some ((_ :: _) as s) =>
                       if print_nodes
                       then (let! ts := lift_res (str_nodes (py_set_iter s).*2) in
                             ret [PartitionsLine ts])
                       else ret []
                   | _ => ret []
                   end in
      let! rest := print_levels self print_nodes ls' in
      ret (row :: dump ++ rest)
  end.

(** [SearchSpace.print_results(print_nodes=False)]. *)
Definition print_results (self : SearchSpace) (print_nodes : bool)
    : M world (list line) :=
  let! total := SearchSpace_num_partitions None in
  let! ls := levels in
  match ls with
  | None => raise TypeError
  | Some l =>
      let! rows := on_heap (print_levels self print_nodes l) in
      ret (BellLine (bell self) :: TotalLine total :: rows ++ [BlankLine])
  end.
End Space.

(** ** Records of the levels *)

(** The dict that [levels_to_records] builds for one level, with its keys
    [level], [k], [num_k_partitions_ub], [num_k_partitions_lb] and
    [num_k_partitions]. *)
Record level_record : Type := mkRecord {
  rec_level : nat;
  rec_k : Z;
  rec_num_k_partitions_ub : Z;
  rec_num_k_partitions_lb : Z;
  rec_num_k_partitions : nat
}.

(** The loop of [levels_to_records]: the record of a level is looked up by
    the number of the level, not by its position. *)
Fixpoint levels_to_records_loop (self : SearchSpace) (ls : list nat)
    : M world (list level_record) :=
  match ls with
  | [] => ret []
  | l :: ls' =>
      let! lev := on_heap (level l) in
      let! p := SearchSpace_num_partitions (Some (Z.of_nat lev)) in
      let! rest := levels_to_records_loop self ls' in
      ret (mkRecord lev (Z.of_nat (num_nodes self) - Z.of_nat lev)
                    (num_k_partitions_ub self (Z.of_nat lev))
                    (num_k_partitions_lb self (Z.of_nat lev)) p :: rest)
  end.

(** [SearchSpace.levels_to_records]. *)
Definition levels_to_records (self : SearchSpace) : M world (list level_record) :=
  let! ls := levels in
  match ls with
  | None => raise TypeError                      (* iterating over None *)
  | Some l => levels_to_records_loop self l
  end.

(** ** Running the model *)

Definition empty_world : world := mkWorld None [].

(** The partition counts of the levels listed in the world, when the build
    succeeded. *)
Definition level_counts (w : world) : option (list nat) :=
  match _levels w with
  | None => None
  | Some ls =>
      mapM (λ a, match num_partitions a (w_heap w) with
                 | (Ok k, _) => Some k
                 | _ => None
                 end) ls
  end.

(** [networkx.Graph()] followed by [add_edge] for every listed edge. *)
Definition graph_of_edges (es : list (Z * Z)) : Graph Z :=
  foldl (λ g e, add_edge e.1 e.2 g) [] es.

Definition cycle4 : Graph Z := graph_of_edges [(1, 2); (2, 3); (3, 4); (4, 1)].

Definition const_hash : list (list fset) → Z := λ _, 0.

(** ** Orders used by the specification *)

(** A boolean strict total order. *)
Record StrictTotal {A : Type} (ltb : A → A → bool) : Prop := {
  st_irrefl : ∀ x, ltb x x = false;
  st_trans : ∀ x y z, ltb x y = true → ltb y z = true → ltb x z = true;
  st_total : ∀ x y, ltb x y = false → ltb y x = false → x = y
}.

(** The lexicographic order on lists, a proper prefix coming first. *)
Fixpoint lex_ltb {A : Type} (ltb : A → A → bool) (p q : list A) : bool :=
  match p, q with
  | [], [] => false
  | [], _ :: _ => true
  | _ :: _, [] => false
  | a :: p', b :: q' =>
      if ltb a b then true else if ltb b a then false else lex_ltb ltb p' q'
  end.

(** [sorted] for a comparison that cannot raise. *)
Fixpoint insert_by {A : Type} (ltb : A → A → bool) (x : A) (l : list A) : list A :=
  match l with
  | [] => [x]
  | y :: l' => if ltb x y then x :: y :: l' else y :: insert_by ltb x l'
  end.

Definition sort_by {A : Type} (ltb : A → A → bool) (l : list A) : list A :=
  foldl (λ acc x, insert_by ltb x acc) [] l.

(** "Not greater than" for a boolean strict order. *)
Definition leb_of {A : Type} (ltb : A → A → bool) (x y : A) : Prop := ltb y x = false.

(** The order of [fset.__lt__] as a total function: the members in
    ascending order, compared lexicographically. *)
Definition fset_ltb (x y : fset) : bool :=
  lex_ltb Z.ltb (sort_by Z.ltb (elements x)) (sort_by Z.ltb (elements y)).

(** The order of Python tuples of labels. *)
Definition tuple_ltb (p q : list fset) : bool := lex_ltb fset_ltb p q.

(** The order on labels in the words of the specification: [m] is the
    smallest member of [x], [l] lists the members of [x] in ascending
    order, and sequences are compared lexicographically, a proper prefix
    preceding every longer sequence it prefixes. *)
Definition smallest_member (x : fset) (m : Z) : Prop :=
  m ∈ x ∧ ∀ z, z ∈ x → m ≤ z.

Definition ascending_members (x : fset) (l : list Z) : Prop :=
  Sorted Z.lt l ∧ ∀ z, z ∈ l ↔ z ∈ x.

Inductive lex_lt : list Z → list Z → Prop :=
  | lex_lt_prefix b q : lex_lt [] (b :: q)
  | lex_lt_head a b p q : a < b → lex_lt (a :: p) (b :: q)
  | lex_lt_tail a p q : lex_lt p q → lex_lt (a :: p) (a :: q).

Definition label_before (x y : fset) : Prop :=
  ∃ mx my lx ly,
    smallest_member x mx ∧ smallest_member y my ∧
    ascending_members x lx ∧ ascending_members y ly ∧
    (mx < my ∨ (mx = my ∧ lex_lt lx ly)).

(** ** Graphs as vertex sets with an adjacency relation *)

Section GraphSpec.
Context {V : Type} `{EqDecision V}.

(** [b] is listed among the neighbours of [a]. *)
Definition adjacent (g : Graph V) (a b : V) : Prop :=
  ∃ nb, (a, nb) ∈ g ∧ b ∈ nb.

(** What [networkx] maintains for an undirected graph: every vertex and
    every neighbour is recorded once, and adjacency is symmetric. *)
Definition graph_wf (g : Graph V) : Prop :=
  NoDup (nodes g) ∧ Forall (λ p : V * list V, NoDup p.2) g ∧
  ∀ a b, adjacent g a b → adjacent g b a.

Definition loop_free (g : Graph V) : Prop := ∀ a, ¬ adjacent g a a.

(** Every two vertices are joined by a path. *)
Definition connected (g : Graph V) : Prop :=
  ∀ a b, a ∈ nodes g → b ∈ nodes g → rtc (adjacent g) a b.
End GraphSpec.

(** All pairs (vertex, neighbour) of a graph, and the orientation of an
    edge reversed. *)
Definition directed_pairs {V : Type} (g : Graph V) : list (V * V) :=
  g ≫= (λ p : V * list V, (λ b, (p.1, b)) <$> p.2).

Definition swap_edge {V : Type} (e : V * V) : V * V := (e.2, e.1).

(** An edge of one graph in the orientation in which another graph
    reports it. *)
Definition orient_in {V : Type} `{EqDecision V} (g : Graph V) (e : V * V) : V * V :=
  if decide (e ∈ edges g) then e else swap_edge e.

(** ** Well-formed partition nodes *)

Definition labels_nonempty (g : Graph fset) : Prop := ∀ a, a ∈ nodes g → a ≠ ∅.

(** What every partition node built by the program satisfies, whatever the
    input graph. *)
Definition node_ok (x : SearchSpaceNode) : Prop :=
  graph_wf (_graph x) ∧ labels_nonempty (_graph x).

(** [tuple(sorted(e))] for labels that can be compared. *)
Definition norm_edge (e : fset * fset) : list fset := sort_by fset_ltb [e.1; e.2].

(** The canonical tuple of a partition node. *)
Definition canonical_key (g : Graph fset) : list (list fset) :=
  sort_by tuple_ltb (norm_edge <$> edges g).

(** The edge that [merge_step] adds for the edge [e] of the parent. *)
Definition merged_edge (edge : fset * fset) (e : fset * fset) : fset * fset :=
  if in_edge e.1 edge then (edge.1 ∪ edge.2, e.2)
  else if in_edge e.2 edge then (e.1, edge.1 ∪ edge.2)
  else e.

(** The label a vertex of the parent has in the child for [edge]. *)
Definition merged_label (edge : fset * fset) (a : fset) : fset :=
  if in_edge a edge then edge.1 ∪ edge.2 else a.

(** Two graphs have the same set of unordered edges, whatever the order in
    which the edges are listed, the order of the endpoints within an edge
    and the vertices that have no edge. *)
Definition same_edge_set (g1 g2 : Graph fset) : Prop :=
  ∀ a b, ((a, b) ∈ edges g1 ∨ (b, a) ∈ edges g1) ↔
         ((a, b) ∈ edges g2 ∨ (b, a) ∈ edges g2).

(** ** Levels as lists of partition nodes *)

Definition ok_result {A} (r : res A) : option A :=
  match r with Ok c => Some c | _ => None end.

(** The children a partition node yields before its first exception. *)
Definition ok_children (x : SearchSpaceNode) : list SearchSpaceNode :=
  omap ok_result (SearchSpaceNode_expand x).

(** Insertion into a set of partition nodes, by [__eq__] alone. *)
Definition insert_node (s : list SearchSpaceNode) (c : SearchSpaceNode)
    : list SearchSpaceNode :=
  if existsb (λ y, SearchSpaceNode_eq y c) s then s else s ++ [c].

(** The partition nodes of the next level, given those of a level. *)
Definition next_nodes (s : list SearchSpaceNode) : list SearchSpaceNode :=
  foldl insert_node [] (s ≫= ok_children).

(** The partition nodes of level [j] of the search space of [g]. *)
Definition level_pure (g : Graph Z) (j : nat) : list SearchSpaceNode :=
  match SearchSpaceNode_init g with
  | Ok root => Nat.iter j next_nodes [root]
  | _ => []
  end.

(** Every entry of a Python set holds a well-formed partition node and the
    hash it had when it was inserted. *)
Definition pyset_ok (py_hash : list (list fset) → Z) (s : pyset) : Prop :=
  ∀ p, p ∈ s → node_ok p.2 ∧ p.1 = py_hash (canonical_key (_graph p.2)).

Definition level_consistent (lv : SearchSpaceLevel) : Prop :=
  match _nodes lv, _num_partitions lv with
  | Some _, None | None, Some _ => True
  | _, _ => False
  end.

(** Every child of every node of [s] is yielded without exception. *)
Definition expands_ok (s : list SearchSpaceNode) : Prop :=
  ∀ x r, x ∈ s → r ∈ SearchSpaceNode_expand x → ∃ c, r = Ok c.

(** A level object with its node set, or its successor, replaced. *)
Definition with_nodes (lv : SearchSpaceLevel) (s : pyset) : SearchSpaceLevel :=
  mkLevel (_next lv) (_previous lv) (_level lv) (_num_partitions lv) (Some s).

Definition with_next (lv : SearchSpaceLevel) (n : nat) : SearchSpaceLevel :=
  mkLevel (Some n) (_previous lv) (_level lv) (_num_partitions lv) (_nodes lv).

Definition compressed (lv : SearchSpaceLevel) : SearchSpaceLevel :=
  match _nodes lv with
  | Some s => mkLevel (_next lv) (_previous lv) (_level lv) (Some (length s)) None
  | None => lv
  end.


Definition path2 : Graph Z := graph_of_edges [(1, 2)].


Definition compressed_error : exn :=
  ValueError "The search space is compressed, computation impossible".


(** ** The state of a build *)

(** A level the build is done with: compressed to its count when the
    search space compresses, with its nodes otherwise. *)
Definition level_done (c : bool) (nodes_j : list SearchSpaceNode) (j : nat)
    (lv : SearchSpaceLevel) : Prop :=
  _level lv = j ∧
  if c then _nodes lv = None ∧ _num_partitions lv = Some (length nodes_j)
  else ∃ s, _nodes lv = Some s ∧ _num_partitions lv = None ∧ s.*2 = nodes_j.

(** The level the build expands next. *)
Definition level_open (py_hash : list (list fset) → Z)
    (nodes_j : list SearchSpaceNode) (j : nat) (lv : SearchSpaceLevel) : Prop :=
  _level lv = j ∧ _next lv = None ∧ _num_partitions lv = None ∧
  ∃ s, _nodes lv = Some s ∧ pyset_ok py_hash s ∧ s.*2 = nodes_j.

(** The store once levels [0..j] exist, after a store that held [h0]
    before the build: levels below [j] are done, level [j] is open. *)
Definition heap_inv (py_hash : list (list fset) → Z) (g : Graph Z) (c : bool)
    (h0 : heap) (j : nat) (h : heap) : Prop :=
  length h = (length h0 + S j)%nat ∧
  take (length h0) h = h0 ∧
  (∀ i, (i < j)%nat →
        ∃ lv, h !! (length h0 + i)%nat = Some lv ∧
              level_done c (level_pure g i) i lv) ∧
  ∃ lv, h !! (length h0 + j)%nat = Some lv ∧
        level_open py_hash (level_pure g j) j lv.

(** The invariant of the loop of [build]. *)
Definition build_inv (py_hash : list (list fset) → Z) (g : Graph Z) (c : bool)
    (h0 : heap) (j : nat) (w : world) : Prop :=
  _levels w = Some (seq (length h0) (S j)) ∧
  heap_inv py_hash g c h0 j (w_heap w).

(** What [build] leaves behind: [m] finished levels after the store [h0]. *)
Definition build_done (g : Graph Z) (c : bool) (h0 : heap) (m : nat) (w : world) : Prop :=
  _levels w = Some (seq (length h0) m) ∧
  length (w_heap w) = (length h0 + m)%nat ∧
  take (length h0) (w_heap w) = h0 ∧
  ∀ i, (i < m)%nat →
       ∃ lv, w_heap w !! (length h0 + i)%nat = Some lv ∧
             level_done c (level_pure g i) i lv.

(** The graph has a search space of [m] levels: every level but the last
    expands without exception and, from the second on, holds more than one
    partition node; the last level holds at most one. *)
Definition levels_shape (g : Graph Z) (m : nat) : Prop :=
  (∀ j, (S j < m)%nat → expands_ok (level_pure g j)) ∧
  (∀ j, (1 ≤ j)%nat → (S j < m)%nat → (1 < length (level_pure g j))%nat) ∧
  (length (level_pure g (m - 1)) ≤ 1)%nat.

(** ** Partition nodes of a connected graph *)

(** The input graphs of the enumeration: undirected graphs without
    self-loops. *)
Definition simple_graph (g : Graph Z) : Prop := graph_wf g ∧ loop_free g.

Definition labels_disjoint (g : Graph fset) : Prop :=
  ∀ a b, a ∈ nodes g → b ∈ nodes g → a ≠ b → a ## b.

(** The labels cover the nodes of the input graph. *)
Definition covers (g0 : Graph Z) (g : Graph fset) : Prop :=
  ∀ u, u ∈ nodes g0 ↔ ∃ a, a ∈ nodes g ∧ u ∈ a.

(** Two clusters are adjacent exactly when an edge of the input graph
    joins them. *)
Definition induced (g0 : Graph Z) (g : Graph fset) : Prop :=
  ∀ a b, adjacent g a b ↔
         a ∈ nodes g ∧ b ∈ nodes g ∧ a ≠ b ∧
         ∃ u v, u ∈ a ∧ v ∈ b ∧ adjacent g0 u v.

(** A partition of the nodes of [g0] into clusters, as a partition node. *)
Definition partition_node (g0 : Graph Z) (x : SearchSpaceNode) : Prop :=
  node_ok x ∧ labels_disjoint (_graph x) ∧ covers g0 (_graph x) ∧
  induced g0 (_graph x) ∧ connected (_graph x).

(** The partition nodes the enumeration can reach from [g0]. *)
Inductive reachable (g0 : Graph Z) : SearchSpaceNode → Prop :=
  | reachable_root root :
      SearchSpaceNode_init g0 = Ok root → reachable g0 root
  | reachable_child x c :
      reachable g0 x → Ok c ∈ SearchSpaceNode_expand x → reachable g0 c.

(** ** Checking the hypotheses on a given graph *)

Definition neighbours {V} `{EqDecision V} (g : Graph V) (a : V) : list V :=
  default [] (nbrs_of a g).

(** The vertices within [k] steps of the vertices of [l]. *)
Definition reach {V} `{EqDecision V} (g : Graph V) (k : nat) (l : list V) : list V :=
  Nat.iter k (λ l, l ++ (l ≫= neighbours g)) l.

Definition connectedb {V} `{EqDecision V} (g : Graph V) : bool :=
  forallb (λ a, forallb (λ b, bool_decide (b ∈ reach g (length g) [a])) (nodes g)) (nodes g).

Definition loop_freeb {V} `{EqDecision V} (g : Graph V) : bool :=
  forallb (λ p : V * list V, negb (bool_decide (p.1 ∈ p.2))) g.

Definition path3 : Graph Z := graph_of_edges [(1, 2); (2, 3)].

(** No two entries of a level compare equal. *)
Definition pairwise_ne (l : list SearchSpaceNode) : Prop :=
  ∀ i j y z, (i < j)%nat → l !! i = Some y → l !! j = Some z →
             SearchSpaceNode_eq y z = false.

(** ** Set partitions *)

(** The clusters of a partition node, as a set. *)
Definition blocks (x : SearchSpaceNode) : gset fset := list_to_set (nodes (_graph x)).

Definition vertex_set (g : Graph Z) : fset := list_to_set (nodes g).

(** [P] is a partition of [U] into non-empty, pairwise disjoint blocks. *)
Definition is_partition (U : fset) (P : gset fset) : Prop :=
  (∀ b, b ∈ P → b ≠ ∅) ∧
  (∀ a b, a ∈ P → b ∈ P → a ≠ b → a ## b) ∧
  (∀ u, u ∈ U ↔ ∃ b, b ∈ P ∧ u ∈ b).

(** [u] joins the block [b] of [P]. *)
Definition join_block (u : Z) (P : gset fset) (b : fset) : gset fset :=
  {[ {[u]} ∪ b ]} ∪ (P ∖ {[b]}).

(** All partitions of the elements of [us] into [k] blocks: the first
    element is a block of its own or joins a block of a partition of the
    others. *)
Fixpoint all_parts (us : list Z) (k : nat) : list (gset fset) :=
  match us with
  | [] => match k with O => [∅] | S _ => [] end
  | u :: us' =>
      match k with
      | O => []
      | S k' => (λ P, {[ {[u]} ]} ∪ P) <$> all_parts us' k'
      end
      ++ (all_parts us' k ≫= λ P, join_block u P <$> elements P)
  end.

(** ** A spanning tree of a connected graph *)

(** The vertices listed by a root [r] and a list of (vertex, parent)
    pairs, newest first. *)
Definition ord_vertices (r : Z) (ord : list (Z * Z)) : list Z := ord.*1 ++ [r].

(** [ord] lists vertices of [g] so that each one is new and is adjacent to
    a parent listed before it: a spanning tree of the listed vertices,
    rooted at [r]. *)
Inductive tree_order (g : Graph Z) (r : Z) : list (Z * Z) → Prop :=
  | tree_order_root : r ∈ nodes g → tree_order g r []
  | tree_order_cons v p ord :
      tree_order g r ord → v ∉ ord_vertices r ord → p ∈ ord_vertices r ord →
      adjacent g p v → tree_order g r ((v, p) :: ord).

(** The block of [P] that holds [p]. *)
Definition block_of (p : Z) (P : gset fset) : fset :=
  default ∅ (head (filter (λ b, p ∈ b) (elements P))).

(** The partition obtained by walking the tree: a vertex whose flag is set
    joins the block of its parent, the others start a block of their own. *)
Fixpoint tree_part (r : Z) (ord : list (Z * Z)) (bs : list bool) : gset fset :=
  match ord, bs with
  | (v, p) :: ord', b :: bs' =>
      let Q := tree_part r ord' bs' in
      if b then join_block v Q (block_of p Q) else {[ {[v]} ]} ∪ Q
  | _, _ => {[ {[r]} ]}
  end.

(** The flag lists of length [len] with exactly [k] unset flags. *)
Fixpoint choices (len k : nat) : list (list bool) :=
  match len with
  | O => match k with O => [[]] | S _ => [] end
  | S len' =>
      (cons true <$> choices len' k)
      ++ match k with
         | O => []
         | S k' => cons false <$> choices len' k'
         end
  end.

Definition count_true (bs : list bool) : nat := length (filter (λ b, b = true) bs).
Definition count_false (bs : list bool) : nat := length (filter (λ b, b = false) bs).

(** The blocks of [P] without the vertex [v]. *)
Definition remove_vertex (v : Z) (P : gset fset) : gset fset :=
  set_map (λ b : fset, b ∖ {[v]}) P ∖ {[∅]}.

(** ** Input graphs with frozen vertices *)

(** The graph [g] with every vertex [n] renamed to the label [{n}]. *)
Definition frozen_graph (g : Graph Z) : Graph fset :=
  (λ p : Z * list Z, (({[p.1]} : fset), (λ n : Z, ({[n]} : fset)) <$> p.2)) <$> g.

(** ** Partitions into connected clusters *)

(** [u] and [v] are joined by a path of [g] that stays inside [b]. *)
Definition joined_in (g : Graph Z) (b : fset) : relation Z :=
  rtc (λ u v, u ∈ b ∧ v ∈ b ∧ adjacent g u v).

(** The cluster [b] induces a connected subgraph of [g]. *)
Definition cluster_connected (g : Graph Z) (b : fset) : Prop :=
  ∀ u v, u ∈ b → v ∈ b → joined_in g b u v.

(** A partition of the nodes of [g] into connected clusters. *)
Definition connected_partition (g : Graph Z) (P : gset fset) : Prop :=
  is_partition (vertex_set g) P ∧ ∀ b, b ∈ P → cluster_connected g b.

(** Every block of [Q] lies inside a block of [P]. *)
Definition refines (Q P : gset fset) : Prop := ∀ q, q ∈ Q → ∃ b, b ∈ P ∧ q ⊆ b.

(** ** The lines of [print_results] *)

(** The line written for level [i] of the search space of a graph. *)
Definition level_row (self : SearchSpace) (i : nat) : line :=
  LevelLine i (Z.of_nat (num_nodes self) - Z.of_nat i) (stirling self (Z.of_nat i))
            (length (level_pure (ss_graph self) i)).

(** The labels of a partition node in ascending order. *)
Definition node_labels (x : SearchSpaceNode) : list fset :=
  sort_by fset_ltb (nodes (_graph x)).

(** The lines written for the levels from [i] on; [dumps] holds, level by
    level, the partitions in the order in which they are listed, and
    [show] tells whether they are listed at all. *)
Fixpoint level_rows (self : SearchSpace) (show : bool) (i : nat)
    (dumps : list (list (list fset))) : list line :=
  match dumps with
  | [] => []
  | d :: dumps' =>
      level_row self i
      :: (if show then match d with [] => [] | _ :: _ => [PartitionsLine d] end
          else [])
      ++ level_rows self show (S i) dumps'
  end.

(** * Properties *)

Example fset_lt_ex1 : fset_lt {[1; 2]} {[1; 3]} = Ok true.
Proof. vm_compute. reflexivity. Qed.
Example fset_lt_ex2 : fset_lt {[1; 2; 5]} {[1; 2]} = Ok false.
Proof. vm_compute. reflexivity. Qed.
Example fset_lt_ex3 : fset_lt {[1; 2]} {[1; 2; 5]} = Ok true.
Proof. vm_compute. reflexivity. Qed.
Example fset_lt_ex4 : fset_lt ∅ {[1; 2; 5]} = Raise (ValueError "min() arg is an empty sequence").
Proof. vm_compute. reflexivity. Qed.


(** ** Sorting *)

Section SortFacts.
Context {A : Type} (lt : A → A → res bool) (ltb : A → A → bool).

Lemma sorted_insert_pure x l :
  (∀ y, y ∈ l → lt x y = Ok (ltb x y)) →
  sorted_insert lt x l = Ok (insert_by ltb x l).
Proof.
  induction l as [|y l IH]; intros Hl; simpl; [done|].
  rewrite (Hl y) by left. simpl.
  destruct (ltb x y); [done|].
  rewrite IH; [done|]. intros z Hz. apply Hl. by right.
Qed.

Lemma insert_by_perm x l : insert_by ltb x l ≡ₚ x :: l.
Proof.
  induction l as [|y l IH]; simpl; [done|].
  destruct (ltb x y); [done|]. rewrite IH. apply Permutation_swap.
Qed.

Lemma foldl_insert_by_perm l acc :
  foldl (λ acc x, insert_by ltb x acc) acc l ≡ₚ l ++ acc.
Proof.
  revert acc. induction l as [|x l IH]; intros acc; simpl; [done|].
  rewrite IH, insert_by_perm. by rewrite Permutation_middle.
Qed.

Lemma sort_by_perm l : sort_by ltb l ≡ₚ l.
Proof. unfold sort_by. rewrite foldl_insert_by_perm. by rewrite app_nil_r. Qed.

Lemma sorted_from_pure l acc :
  (∀ x y, x ∈ l ++ acc → y ∈ l ++ acc → lt x y = Ok (ltb x y)) →
  sorted_from lt acc l = Ok (foldl (λ acc x, insert_by ltb x acc) acc l).
Proof.
  revert acc. induction l as [|x l IH]; intros acc Hl; simpl; [done|].
  rewrite sorted_insert_pure.
  - simpl. apply IH. intros a b Ha Hb.
    rewrite elem_of_app, insert_by_perm in Ha.
    rewrite elem_of_app, insert_by_perm in Hb.
    apply Hl; set_solver.
  - intros y Hy. apply Hl; set_solver.
Qed.

Lemma sorted_pure l :
  (∀ x y, x ∈ l → y ∈ l → lt x y = Ok (ltb x y)) →
  sorted lt l = Ok (sort_by ltb l).
Proof.
  intros Hl. apply sorted_from_pure. rewrite app_nil_r. exact Hl.
Qed.
End SortFacts.

Section OrderFacts.
Context {A : Type} (ltb : A → A → bool) (Hst : StrictTotal ltb).

Lemma st_asym x y : ltb x y = true → ltb y x = false.
Proof.
  intros Hxy. destruct (ltb y x) eqn:Hyx; [|done].
  rewrite <- (st_irrefl ltb Hst x). symmetry. by eapply st_trans.
Qed.

Lemma leb_of_trans : Transitive (leb_of ltb).
Proof.
  intros x y z Hxy Hyz. unfold leb_of in *.
  destruct (ltb z x) eqn:Hzx; [|done].
  destruct (ltb x y) eqn:Hxy'.
  - rewrite <- Hyz. symmetry. by eapply st_trans.
  - assert (x = y) by by apply (st_total ltb Hst). subst. congruence.
Qed.

Lemma leb_of_antisym : AntiSymm (=) (leb_of ltb).
Proof. intros x y Hxy Hyx. by apply (st_total ltb Hst). Qed.

Lemma insert_by_sorted x l :
  Sorted (leb_of ltb) l → Sorted (leb_of ltb) (insert_by ltb x l).
Proof.
  induction 1 as [|y l Hs IH Hhd]; simpl.
  - repeat constructor.
  - destruct (ltb x y) eqn:Hxy.
    + constructor; [by constructor|]. constructor. by apply st_asym.
    + constructor; [done|].
      destruct l as [|z l]; simpl in *.
      * by constructor.
      * destruct (ltb x z); constructor; [done|].
        by inversion Hhd.
Qed.

Lemma sort_by_sorted l : Sorted (leb_of ltb) (sort_by ltb l).
Proof.
  unfold sort_by. generalize (Sorted_nil (leb_of ltb)).
  generalize (@nil A) as acc. induction l as [|x l IH]; intros acc Hacc; simpl; [done|].
  apply IH. by apply insert_by_sorted.
Qed.

Lemma sort_by_unique l1 l2 : l1 ≡ₚ l2 → sort_by ltb l1 = sort_by ltb l2.
Proof.
  intros Hp.
  apply (@Sorted_unique _ (leb_of ltb) leb_of_trans leb_of_antisym).
  - apply sort_by_sorted.
  - apply sort_by_sorted.
  - by rewrite !sort_by_perm.
Qed.

Lemma lex_ltb_strict_total : StrictTotal (lex_ltb ltb).
Proof.
  split.
  - intros p. induction p as [|a p IH]; simpl; [done|].
    by rewrite (st_irrefl ltb Hst).
  - intros p. induction p as [|a p IH]; intros [|b q] [|c r]; simpl; try done.
    destruct (ltb a b) eqn:Hab.
    + intros _. destruct (ltb b c) eqn:Hbc.
      * intros _. by rewrite (st_trans ltb Hst a b c).
      * destruct (ltb c b) eqn:Hcb; [done|].
        assert (b = c) by by apply (st_total ltb Hst). subst. by rewrite Hab.
    + destruct (ltb b a) eqn:Hba; [done|].
      assert (a = b) by by apply (st_total ltb Hst). subst.
      intros Hpq. destruct (ltb b c); [done|]. destruct (ltb c b); [done|].
      by apply IH.
  - intros p. induction p as [|a p IH]; intros [|b q]; simpl; try done.
    destruct (ltb a b) eqn:Hab; [done|].
    destruct (ltb b a) eqn:Hba; [done|].
    intros H1 H2. f_equal; [by apply (st_total ltb Hst)|by apply IH].
Qed.
End OrderFacts.

Lemma Z_ltb_strict_total : StrictTotal Z.ltb.
Proof.
  split; intros; lia.
Qed.

(** ** The order on labels *)

Lemma sorted_members_pure x : sorted_members x = sort_by Z.ltb (elements x).
Proof.
  unfold sorted_members. by rewrite (sorted_pure Z_lt_res Z.ltb).
Qed.

Lemma fset_lt_loop_lex xs ys : fset_lt_loop xs ys = lex_ltb Z.ltb xs ys.
Proof.
  revert ys. induction xs as [|a xs IH]; intros [|b ys]; simpl; try done.
  by rewrite IH.
Qed.

Lemma foldl_min_spec l a :
  foldl Z.min a l ∈ a :: l ∧ ∀ z, z ∈ a :: l → foldl Z.min a l ≤ z.
Proof.
  revert a. induction l as [|b l IH]; intros a; simpl.
  - split; [by left|]. intros z Hz. apply list_elem_of_singleton in Hz. lia.
  - destruct (IH (Z.min a b)) as [Hin Hle]. split.
    + apply elem_of_cons in Hin as [Hin|Hin]; [|set_solver].
      rewrite Hin. destruct (Z.min_spec a b) as [[_ ->]|[_ ->]]; set_solver.
    + intros z Hz.
      assert (Hm : Z.min a b ≤ z ∨ z ∈ l).
      { apply elem_of_cons in Hz as [->|Hz]; [left; lia|].
        apply elem_of_cons in Hz as [->|Hz]; [left; lia|by right]. }
      destruct Hm as [Hm|Hm].
      * etrans; [|exact Hm]. apply Hle. by left.
      * apply Hle. by right.
Qed.

Lemma Sorted_leb_head (h : Z) t z :
  Sorted (leb_of Z.ltb) (h :: t) → z ∈ h :: t → h ≤ z.
Proof.
  intros Hs Hz.
  pose proof (leb_of_trans Z.ltb Z_ltb_strict_total) as Htr.
  apply (Sorted_StronglySorted (leb_of Z.ltb)) in Hs.
  apply elem_of_cons in Hz as [->|Hz]; [done|].
  apply StronglySorted_inv in Hs as [_ Hall].
  rewrite Forall_forall in Hall. specialize (Hall z Hz). unfold leb_of in Hall. lia.
Qed.

Lemma sort_by_nil_inv {A} (ltb : A → A → bool) l : sort_by ltb l = [] → l = [].
Proof.
  intros H. apply Permutation_nil_r. rewrite <- H. by rewrite sort_by_perm.
Qed.

(** On a non-empty label [min] answers the head of the sorted members. *)
Lemma py_min_head x :
  x ≠ ∅ → ∃ m t, py_min x = Ok m ∧ sort_by Z.ltb (elements x) = m :: t.
Proof.
  intros Hne. unfold py_min, py_min_list.
  destruct (elements x) as [|a l] eqn:He.
  { apply elements_empty_inv in He. by apply leibniz_equiv in He. }
  destruct (sort_by Z.ltb (a :: l)) as [|m t] eqn:Hs.
  { by apply sort_by_nil_inv in Hs. }
  exists m, t. split; [|done]. f_equal.
  destruct (foldl_min_spec l a) as [Hin Hle].
  assert (Hm : m ∈ a :: l) by (rewrite <- (sort_by_perm Z.ltb), Hs; by left).
  assert (Hf : foldl Z.min a l ∈ m :: t) by (by rewrite <- Hs, sort_by_perm).
  pose proof (sort_by_sorted Z.ltb Z_ltb_strict_total (a :: l)) as Hsorted.
  rewrite Hs in Hsorted.
  pose proof (Sorted_leb_head _ _ _ Hsorted Hf).
  specialize (Hle m Hm). lia.
Qed.

Lemma fset_lt_pure x y :
  x ≠ ∅ → y ≠ ∅ → fset_lt x y = Ok (fset_ltb x y).
Proof.
  intros Hx Hy. unfold fset_lt, fset_ltb.
  destruct (py_min_head x Hx) as (mx & tx & -> & Hsx).
  destruct (py_min_head y Hy) as (my & ty & -> & Hsy).
  simpl. rewrite !sorted_members_pure, fset_lt_loop_lex, Hsx, Hsy. simpl.
  destruct (mx <? my); [done|]. by destruct (my <? mx).
Qed.

Lemma fset_ltb_strict_total : StrictTotal fset_ltb.
Proof.
  pose proof (lex_ltb_strict_total Z.ltb Z_ltb_strict_total) as [Hi Ht Htot].
  split; unfold fset_ltb.
  - intros x. apply Hi.
  - intros x y z. apply Ht.
  - intros x y H1 H2. specialize (Htot _ _ H1 H2).
    apply set_eq. intros z. rewrite <- !elem_of_elements.
    by rewrite <- (sort_by_perm Z.ltb (elements x)), Htot, sort_by_perm.
Qed.

Lemma tuple_ltb_strict_total : StrictTotal tuple_ltb.
Proof. apply lex_ltb_strict_total, fset_ltb_strict_total. Qed.

Lemma tuple_lt_pure p q :
  Forall (λ a, a ≠ ∅) p → Forall (λ a, a ≠ ∅) q →
  tuple_lt p q = Ok (tuple_ltb p q).
Proof.
  revert q. induction p as [|a p IH]; intros [|b q] Hp Hq; simpl; try done.
  apply Forall_cons in Hp as [Ha Hp]. apply Forall_cons in Hq as [Hb Hq].
  unfold tuple_ltb. simpl. destruct (decide (a = b)) as [->|Hab].
  - rewrite (st_irrefl _ fset_ltb_strict_total). by apply IH.
  - rewrite fset_lt_pure by done.
    destruct (fset_ltb a b) eqn:H1; [done|].
    destruct (fset_ltb b a) eqn:H2; [done|].
    destruct Hab. by apply (st_total _ fset_ltb_strict_total).
Qed.

Lemma lex_ltb_lex_lt p q : lex_ltb Z.ltb p q = true ↔ lex_lt p q.
Proof.
  revert q. induction p as [|a p IH]; intros [|b q]; simpl.
  - split; [done|inversion 1].
  - split; [constructor|done].
  - split; [done|inversion 1].
  - destruct (a <? b) eqn:Hab.
    + split; [|done]. intros _. constructor. lia.
    + destruct (b <? a) eqn:Hba.
      * split; [done|]. inversion 1; subst; lia.
      * assert (a = b) by lia. subst. rewrite IH. split.
        -- by constructor.
        -- inversion 1; subst; [lia|done].
Qed.

Lemma lex_lt_app p q : q ≠ [] → lex_lt p (p ++ q).
Proof.
  intros Hq. induction p as [|a p IH]; simpl.
  - destruct q; [done|constructor].
  - by constructor.
Qed.

Lemma Sorted_Z_lt_NoDup (l : list Z) : Sorted Z.lt l → NoDup l.
Proof.
  intros Hs. apply (Sorted_StronglySorted Z.lt) in Hs.
  induction Hs as [|a l Hs IH Hall]; constructor; [|done].
  intros Ha. rewrite Forall_forall in Hall. specialize (Hall _ Ha). lia.
Qed.

Lemma Sorted_leb_NoDup_lt (l : list Z) :
  Sorted (leb_of Z.ltb) l → NoDup l → Sorted Z.lt l.
Proof.
  intros Hs Hnd.
  pose proof (leb_of_trans Z.ltb Z_ltb_strict_total) as Htr.
  apply (Sorted_StronglySorted (leb_of Z.ltb)) in Hs.
  apply StronglySorted_Sorted.
  induction Hs as [|a l Hs IH Hall]; constructor.
  - apply IH. by apply NoDup_cons in Hnd as [_ ?].
  - apply NoDup_cons in Hnd as [Ha _].
    rewrite Forall_forall in Hall |- *. intros z Hz.
    specialize (Hall z Hz). unfold leb_of in Hall.
    assert (z ≠ a) by (intros ->; done). lia.
Qed.

Lemma sort_by_ascending x : ascending_members x (sort_by Z.ltb (elements x)).
Proof.
  split.
  - apply Sorted_leb_NoDup_lt.
    + apply sort_by_sorted, Z_ltb_strict_total.
    + rewrite sort_by_perm. apply NoDup_elements.
  - intros z. by rewrite sort_by_perm, elem_of_elements.
Qed.

Lemma ascending_members_unique x l1 l2 :
  ascending_members x l1 → ascending_members x l2 → l1 = l2.
Proof.
  intros [Hs1 He1] [Hs2 He2].
  assert (Ha : AntiSymm (=) Z.lt) by (intros a b ??; lia).
  apply (Sorted_unique Z.lt); [done..|].
  apply NoDup_Permutation; [by apply Sorted_Z_lt_NoDup..|].
  intros z. by rewrite He1, He2.
Qed.

Lemma smallest_member_head x m l :
  smallest_member x m → ascending_members x l → ∃ t, l = m :: t.
Proof.
  intros [Hin Hle] [Hs He].
  destruct l as [|h t]; [by apply He in Hin; apply elem_of_nil in Hin|].
  exists t. f_equal.
  assert (Hh : h ∈ x) by (apply He; by left).
  specialize (Hle h Hh).
  apply He in Hin. apply elem_of_cons in Hin as [->|Hin]; [done|].
  apply (Sorted_StronglySorted Z.lt) in Hs.
  apply StronglySorted_inv in Hs as [_ Hall].
  rewrite Forall_forall in Hall. specialize (Hall m Hin). lia.
Qed.

Lemma smallest_member_exists x :
  x ≠ ∅ → ∃ m t, smallest_member x m ∧ sort_by Z.ltb (elements x) = m :: t.
Proof.
  intros Hne.
  destruct (py_min_head x Hne) as (m & t & _ & Hs).
  exists m, t. split; [|done].
  destruct (sort_by_ascending x) as [Hsorted He]. rewrite Hs in Hsorted, He.
  split; [apply He; by left|].
  intros z Hz. apply He in Hz.
  apply (Sorted_StronglySorted Z.lt) in Hsorted.
  apply elem_of_cons in Hz as [->|Hz]; [done|].
  apply StronglySorted_inv in Hsorted as [_ Hall].
  rewrite Forall_forall in Hall. specialize (Hall z Hz). lia.
Qed.

Lemma fset_ltb_label_before x y :
  x ≠ ∅ → y ≠ ∅ → fset_ltb x y = true ↔ label_before x y.
Proof.
  intros Hx Hy.
  destruct (smallest_member_exists x Hx) as (mx & tx & Hmx & Hsx).
  destruct (smallest_member_exists y Hy) as (my & ty & Hmy & Hsy).
  pose proof (sort_by_ascending x) as Hax.
  pose proof (sort_by_ascending y) as Hay.
  unfold fset_ltb. rewrite lex_ltb_lex_lt. split.
  - intros Hlex. exists mx, my, (sort_by Z.ltb (elements x)), (sort_by Z.ltb (elements y)).
    split; [done|]. split; [done|]. split; [done|]. split; [done|].
    rewrite Hsx, Hsy in Hlex |- *.
    inversion Hlex; subst; [by left|right; split; [done|by constructor]].
  - intros (mx' & my' & lx & ly & Hmx' & Hmy' & Hlx & Hly & Hor).
    rewrite <- (ascending_members_unique _ _ _ Hlx Hax).
    rewrite <- (ascending_members_unique _ _ _ Hly Hay).
    destruct (smallest_member_head _ _ _ Hmx' Hlx) as [tx' ->].
    destruct (smallest_member_head _ _ _ Hmy' Hly) as [ty' ->].
    destruct Hor as [Hlt|[-> Hlex]]; [by constructor|done].
Qed.

(** C9: on non-empty labels [fset.__lt__] never raises and is a strict
    total order: exactly one of [x < y], [x == y], [y < x] holds, the
    relation is transitive, and it is the order of the specification:
    smallest member first, then the sorted members lexicographically, a
    proper prefix before every longer sequence it prefixes. *)
Theorem fset_lt_strict_total_order (x y z : fset) :
  x ≠ ∅ → y ≠ ∅ → z ≠ ∅ →
  (∃ b, fset_lt x y = Ok b) ∧
  ((fset_lt x y = Ok true ∧ x ≠ y ∧ fset_lt y x ≠ Ok true) ∨
   (fset_lt x y ≠ Ok true ∧ x = y ∧ fset_lt y x ≠ Ok true) ∨
   (fset_lt x y ≠ Ok true ∧ x ≠ y ∧ fset_lt y x = Ok true)) ∧
  (fset_lt x y = Ok true → fset_lt y z = Ok true → fset_lt x z = Ok true) ∧
  (fset_lt x y = Ok true ↔ label_before x y) ∧
  (∀ lx ly, ascending_members x lx → ascending_members y (lx ++ ly) →
            ly ≠ [] → fset_lt x y = Ok true).
Proof.
  intros Hx Hy Hz.
  pose proof fset_ltb_strict_total as Hst.
  rewrite !(fset_lt_pure x y), !(fset_lt_pure y x), !(fset_lt_pure y z),
    !(fset_lt_pure x z) by done.
  split; [by eexists|]. split; [|split; [|split]].
  - destruct (fset_ltb x y) eqn:Hxy.
    + left. rewrite (st_asym _ Hst _ _ Hxy). repeat split; [|done].
      intros ->. by rewrite (st_irrefl _ Hst) in Hxy.
    + destruct (fset_ltb y x) eqn:Hyx.
      * right; right. repeat split; [done|].
        intros ->. by rewrite (st_irrefl _ Hst) in Hyx.
      * right; left. repeat split; [done| |done].
        by apply (st_total _ Hst).
  - intros [= Hxy] [= Hyz]. f_equal. by apply (st_trans _ Hst x y z).
  - rewrite <- fset_ltb_label_before by done. split; [by intros [= ?]|by intros ->].
  - intros lx ly Hlx Hly Hne. f_equal.
    unfold fset_ltb. apply lex_ltb_lex_lt.
    rewrite <- (ascending_members_unique _ _ _ Hlx (sort_by_ascending x)).
    rewrite <- (ascending_members_unique _ _ _ Hly (sort_by_ascending y)).
    by apply lex_lt_app.
Qed.

Lemma fset_lt_strict_total_order_witness :
  (∃ b, fset_lt {[1; 2]} {[1; 3]} = Ok b) ∧
  fset_lt {[1; 2]} {[1; 3]} = Ok true.
Proof.
  assert (H1 : ({[1; 2]} : fset) ≠ ∅) by (by vm_compute).
  assert (H2 : ({[1; 3]} : fset) ≠ ∅) by (by vm_compute).
  destruct (fset_lt_strict_total_order {[1; 2]} {[1; 3]} {[1; 3]} H1 H2 H2)
    as (Hok & _). split; [exact Hok|reflexivity].
Defined.

(** ** Facts about the graph operations *)

Section GraphFacts.
Context {V : Type} `{EqDecision V}.
Implicit Types (g : Graph V) (a b u v n : V).

Lemma adjacent_node g a b : adjacent g a b → a ∈ nodes g.
Proof.
  intros (nb & Hin & _). unfold nodes. apply list_elem_of_fmap. by exists (a, nb).
Qed.

Lemma adjacent_nil a b : ¬ adjacent ([] : Graph V) a b.
Proof. intros (nb & Hin & _). by apply elem_of_nil in Hin. Qed.

Lemma graph_wf_nil : graph_wf ([] : Graph V).
Proof.
  split; [constructor|]. split; [constructor|].
  intros a b Hab. by apply adjacent_nil in Hab.
Qed.

Lemma nbrs_of_None u g : nbrs_of u g = None ↔ u ∉ nodes g.
Proof.
  induction g as [|[n nb] g IH]; simpl.
  - split; [intros _; apply not_elem_of_nil|done].
  - destruct (decide (n = u)) as [->|Hne].
    + split; [done|]. intros Hn. destruct Hn. by left.
    + rewrite IH. rewrite not_elem_of_cons. naive_solver.
Qed.

Lemma nbrs_of_Some u g nb :
  NoDup (nodes g) → nbrs_of u g = Some nb ↔ (u, nb) ∈ g.
Proof.
  induction g as [|[n nb'] g IH]; simpl; intros Hnd.
  - split; [done|]. intros Hin. by apply elem_of_nil in Hin.
  - apply NoDup_cons in Hnd as [Hn Hnd].
    destruct (decide (n = u)) as [->|Hne].
    + split.
      * intros [= ->]. by left.
      * intros Hin. apply elem_of_cons in Hin as [[= ->]|Hin]; [done|].
        destruct Hn. apply list_elem_of_fmap. by exists (u, nb).
    + rewrite IH by done. rewrite elem_of_cons. naive_solver.
Qed.

(** *** [add_node] *)

Lemma elem_of_add_node p n g :
  p ∈ add_node n g ↔ p ∈ g ∨ ((n ∉ nodes g) ∧ p = (n, [])).
Proof.
  unfold add_node, has_node. case_bool_decide as Hn.
  - naive_solver.
  - rewrite elem_of_app, list_elem_of_singleton. naive_solver.
Qed.

Lemma elem_of_nodes_add_node x n g :
  x ∈ nodes (add_node n g) ↔ x = n ∨ x ∈ nodes g.
Proof.
  unfold add_node, has_node. case_bool_decide as Hn.
  - naive_solver.
  - unfold nodes. rewrite fmap_app, elem_of_app. simpl.
    rewrite list_elem_of_singleton. naive_solver.
Qed.

Lemma adjacent_add_node n g a b : adjacent (add_node n g) a b ↔ adjacent g a b.
Proof.
  unfold adjacent. split.
  - intros (nb & Hin & Hb). apply elem_of_add_node in Hin as [Hin|[_ [= -> ->]]].
    + by exists nb.
    + by apply elem_of_nil in Hb.
  - intros (nb & Hin & Hb). exists nb. split; [|done].
    apply elem_of_add_node. by left.
Qed.

Lemma NoDup_nodes_add_node n g : NoDup (nodes g) → NoDup (nodes (add_node n g)).
Proof.
  intros Hnd. unfold add_node, has_node. case_bool_decide as Hn; [done|].
  unfold nodes. rewrite fmap_app. simpl. apply NoDup_app. split; [done|].
  split; [|apply NoDup_singleton].
  intros x Hx Hx'. apply list_elem_of_singleton in Hx'. by subst.
Qed.

Lemma Forall_NoDup_add_node n g :
  Forall (λ p : V * list V, NoDup p.2) g →
  Forall (λ p : V * list V, NoDup p.2) (add_node n g).
Proof.
  intros Hall. unfold add_node. destruct (has_node n g); [done|].
  apply Forall_app. split; [done|]. repeat constructor.
Qed.

Lemma graph_wf_add_node n g : graph_wf g → graph_wf (add_node n g).
Proof.
  intros (Hnd & Hall & Hsym). split; [by apply NoDup_nodes_add_node|].
  split; [by apply Forall_NoDup_add_node|].
  intros a b. rewrite !adjacent_add_node. apply Hsym.
Qed.

(** *** [add_nbr] and [add_edge] *)

Lemma nodes_add_nbr u v g : nodes (add_nbr u v g) = nodes g.
Proof.
  unfold nodes, add_nbr. rewrite <- list_fmap_compose.
  apply list_fmap_ext. intros i [n nb] _. simpl. by destruct (decide (n = u)).
Qed.

Lemma elem_of_add_nbr a nb' u v g :
  (a, nb') ∈ add_nbr u v g ↔
  ∃ nb, (a, nb) ∈ g ∧
        nb' = if decide (a = u)
              then (if decide (v ∈ nb) then nb else nb ++ [v]) else nb.
Proof.
  unfold add_nbr. rewrite list_elem_of_fmap. split.
  - intros ([n nb] & Heq & Hin). simpl in Heq. exists nb.
    destruct (decide (n = u)) as [->|Hne]; simplify_eq.
    + split; [done|]. by destruct (decide (u = u)).
    + split; [done|]. by destruct (decide (n = u)).
  - intros (nb & Hin & ->). exists (a, nb). split; [|done]. simpl.
    by destruct (decide (a = u)).
Qed.

Lemma adjacent_add_nbr u v g a b :
  adjacent (add_nbr u v g) a b ↔
  adjacent g a b ∨ (a = u ∧ b = v ∧ u ∈ nodes g).
Proof.
  unfold adjacent. split.
  - intros (nb' & Hin & Hb). apply elem_of_add_nbr in Hin as (nb & Hin & ->).
    destruct (decide (a = u)) as [->|Hne]; [|left; by exists nb].
    destruct (decide (v ∈ nb)); [left; by exists nb|].
    apply elem_of_app in Hb as [Hb|Hb]; [left; by exists nb|].
    apply list_elem_of_singleton in Hb as ->. right. repeat split.
    apply list_elem_of_fmap. by exists (u, nb).
  - intros [(nb & Hin & Hb)|(-> & -> & Hu)].
    + eexists. split; [apply elem_of_add_nbr; by exists nb|].
      destruct (decide (a = u)); [|done].
      destruct (decide (v ∈ nb)); [done|]. apply elem_of_app. by left.
    + apply list_elem_of_fmap in Hu as ([n nb] & -> & Hin). simpl.
      eexists. split; [apply elem_of_add_nbr; by exists nb|].
      rewrite decide_True by done.
      destruct (decide (v ∈ nb)); [done|]. apply elem_of_app. right. by left.
Qed.

Lemma Forall_NoDup_add_nbr u v g :
  Forall (λ p : V * list V, NoDup p.2) g →
  Forall (λ p : V * list V, NoDup p.2) (add_nbr u v g).
Proof.
  rewrite !Forall_forall. intros Hall [a nb'] Hin.
  apply elem_of_add_nbr in Hin as (nb & Hin & ->). simpl.
  specialize (Hall _ Hin). simpl in Hall.
  destruct (decide (a = u)); [|done].
  destruct (decide (v ∈ nb)); [done|].
  apply NoDup_app. split; [done|]. split; [|apply NoDup_singleton].
  intros x Hx Hx'. apply list_elem_of_singleton in Hx'. by subst.
Qed.

Lemma elem_of_nodes_add_edge x u v g :
  x ∈ nodes (add_edge u v g) ↔ x = u ∨ x = v ∨ x ∈ nodes g.
Proof.
  unfold add_edge. rewrite !nodes_add_nbr, !elem_of_nodes_add_node. naive_solver.
Qed.

Lemma adjacent_add_edge u v g a b :
  adjacent (add_edge u v g) a b ↔
  adjacent g a b ∨ (a = u ∧ b = v) ∨ (a = v ∧ b = u).
Proof.
  unfold add_edge. rewrite !adjacent_add_nbr, !nodes_add_nbr, !adjacent_add_node.
  rewrite !elem_of_nodes_add_node. naive_solver.
Qed.

Lemma graph_wf_add_edge u v g : graph_wf g → graph_wf (add_edge u v g).
Proof.
  intros (Hnd & Hall & Hsym). split; [|split].
  - unfold add_edge. rewrite !nodes_add_nbr. by do 2 apply NoDup_nodes_add_node.
  - unfold add_edge. by do 2 apply Forall_NoDup_add_nbr; do 2 apply Forall_NoDup_add_node.
  - intros a b. rewrite !adjacent_add_edge. naive_solver.
Qed.
End GraphFacts.

(** ** Facts about the edge view *)

Section EdgeFacts.
Context {V : Type} `{EqDecision V}.
Implicit Types (g : Graph V) (a b u v n : V).

Lemma nodes_app g1 g2 : nodes (g1 ++ g2) = nodes g1 ++ nodes g2.
Proof. unfold nodes. apply fmap_app. Qed.

Lemma elem_of_nodes a nb g : (a, nb) ∈ g → a ∈ nodes g.
Proof. intros Hin. apply list_elem_of_fmap. by exists (a, nb). Qed.

Lemma NoDup_nodes_functional g a nb1 nb2 :
  NoDup (nodes g) → (a, nb1) ∈ g → (a, nb2) ∈ g → nb1 = nb2.
Proof.
  intros Hnd H1 H2.
  apply nbrs_of_Some in H1, H2; [|done..]. congruence.
Qed.

Lemma NoDup_nodes_split_unique g g1 g2 h1 h2 a nb1 nb2 :
  NoDup (nodes g) →
  g = g1 ++ (a, nb1) :: g2 → g = h1 ++ (a, nb2) :: h2 → g1 = h1.
Proof.
  revert g h1. induction g1 as [|p g1 IH]; intros g h1 Hnd -> Heq.
  - destruct h1 as [|q h1]; [done|]. simpl in Heq. injection Heq as <- Heq.
    rewrite Heq in Hnd. simpl in Hnd. apply NoDup_cons in Hnd as [Hn _].
    destruct Hn. rewrite nodes_app. apply elem_of_app. right. by left.
  - destruct h1 as [|q h1]; simpl in Heq.
    + injection Heq as -> Heq. simpl in Hnd. apply NoDup_cons in Hnd as [Hn _].
      destruct Hn. rewrite nodes_app. apply elem_of_app. right. by left.
    + injection Heq as <- Heq. f_equal.
      simpl in Hnd. apply NoDup_cons in Hnd as [_ Hnd].
      by eapply IH.
Qed.

Lemma elem_of_edges_from seen g a b :
  (a, b) ∈ edges_from seen g ↔
  ∃ g1 nb g2, g = g1 ++ (a, nb) :: g2 ∧ b ∈ nb ∧ (b ∉ seen) ∧ b ∉ nodes g1.
Proof.
  revert seen. induction g as [|[n nb0] g IH]; intros seen; simpl.
  - split; [intros Hin; by apply elem_of_nil in Hin|].
    intros (g1 & nb & g2 & Heq & _). by destruct g1.
  - rewrite elem_of_app, list_elem_of_fmap, IH. split.
    + intros [(b' & [= -> ->] & Hb)|(g1 & nb & g2 & -> & Hb & Hs & Hg1)].
      * apply list_elem_of_filter in Hb as [Hs Hb].
        exists [], nb0, g. repeat split; try done. apply not_elem_of_nil.
      * exists ((n, nb0) :: g1), nb, g2.
        apply not_elem_of_cons in Hs as [Hbn Hs].
        repeat split; try done. simpl. by apply not_elem_of_cons.
    + intros (g1 & nb & g2 & Heq & Hb & Hs & Hg1).
      destruct g1 as [|p g1]; simpl in Heq.
      * injection Heq as -> -> ->. left. exists b. split; [done|].
        by apply list_elem_of_filter.
      * injection Heq as <- ->. right. simpl in Hg1.
        apply not_elem_of_cons in Hg1 as [Hbn Hg1].
        exists g1, nb, g2. repeat split; try done. by apply not_elem_of_cons.
Qed.

Lemma elem_of_edges g a b :
  (a, b) ∈ edges g ↔
  ∃ g1 nb g2, g = g1 ++ (a, nb) :: g2 ∧ b ∈ nb ∧ b ∉ nodes g1.
Proof.
  unfold edges. rewrite elem_of_edges_from.
  split; intros (g1 & nb & g2 & Hg & Hb & H'); exists g1, nb, g2.
  - naive_solver.
  - repeat split; try done. apply not_elem_of_nil.
Qed.

Lemma edges_adjacent g a b : (a, b) ∈ edges g → adjacent g a b.
Proof.
  rewrite elem_of_edges. intros (g1 & nb & g2 & -> & Hb & _).
  exists nb. split; [|done]. apply elem_of_app. right. by left.
Qed.

Lemma adjacent_edges g a b :
  graph_wf g → adjacent g a b → (a, b) ∈ edges g ∨ (b, a) ∈ edges g.
Proof.
  intros (Hnd & _ & Hsym) Hab.
  pose proof (Hsym _ _ Hab) as (nb' & Hb & Ha').
  destruct Hab as (nb & Ha & Hb').
  destruct (list_elem_of_split _ _ Ha) as (g1 & g2 & Hg).
  destruct (decide (b ∈ nodes g1)) as [Hin|Hnin].
  - right. apply elem_of_edges.
    apply list_elem_of_fmap in Hin as ([b0 nb0] & -> & Hin). simpl in *.
    destruct (list_elem_of_split _ _ Hin) as (h1 & h2 & Hg1).
    assert (nb0 = nb') as ->.
    { eapply (NoDup_nodes_functional g); [done| |done].
      rewrite Hg. apply elem_of_app. by left. }
    exists h1, nb', (h2 ++ (a, nb) :: g2). split; [|split; [done|]].
    + rewrite Hg, Hg1. by rewrite <- app_assoc.
    + intros Hah1. rewrite Hg, Hg1 in Hnd.
      rewrite <- app_assoc in Hnd. rewrite nodes_app in Hnd.
      apply NoDup_app in Hnd as (_ & Hdis & _).
      apply (Hdis a Hah1). simpl. right. rewrite nodes_app.
      apply elem_of_app. right. by left.
  - left. apply elem_of_edges. by exists g1, nb, g2.
Qed.

Lemma edges_antisym g a b :
  graph_wf g → (a, b) ∈ edges g → (b, a) ∈ edges g → a = b.
Proof.
  intros (Hnd & _ & _).
  rewrite !elem_of_edges.
  intros (g1 & nb & g2 & Hg & Hb & Hbg1) (h1 & nb' & h2 & Hh & Ha & Hah1).
  destruct (decide (a = b)) as [|Hne]; [done|exfalso].
  assert (Hbg : b ∈ nodes g) by (rewrite Hh, nodes_app; set_solver).
  rewrite Hg, nodes_app in Hbg. apply elem_of_app in Hbg as [?|Hbg]; [done|].
  simpl in Hbg. apply elem_of_cons in Hbg as [?|Hbg]; [done|].
  apply list_elem_of_fmap in Hbg as ([b0 nb0] & -> & Hin). simpl in *.
  destruct (list_elem_of_split _ _ Hin) as (k1 & k2 & ->).
  assert (Heq : g = (g1 ++ (a, nb) :: k1) ++ (b0, nb0) :: k2)
    by (by rewrite Hg, <- app_assoc).
  pose proof (NoDup_nodes_split_unique _ _ _ _ _ _ _ _ Hnd Heq Hh) as <-.
  apply Hah1. rewrite nodes_app. set_solver.
Qed.

Lemma edges_from_fst seen g a b : (a, b) ∈ edges_from seen g → a ∈ nodes g.
Proof.
  rewrite elem_of_edges_from. intros (g1 & nb & g2 & -> & _).
  rewrite nodes_app. set_solver.
Qed.

Lemma NoDup_edges_from seen g :
  NoDup (nodes g) → Forall (λ p : V * list V, NoDup p.2) g →
  NoDup (edges_from seen g).
Proof.
  revert seen. induction g as [|[n nb] g IH]; intros seen Hnd Hall; simpl.
  - constructor.
  - simpl in Hnd. apply NoDup_cons in Hnd as [Hn Hnd].
    apply Forall_cons in Hall as [Hnb Hall]. simpl in Hnb.
    apply NoDup_app. split; [|split].
    + apply NoDup_fmap_2; [intros x y; congruence|]. by apply NoDup_filter.
    + intros [a b] Hin Hin'.
      apply list_elem_of_fmap in Hin as (b' & [= -> ->] & _).
      by apply edges_from_fst in Hin'.
    + by apply IH.
Qed.

Lemma NoDup_edges g : graph_wf g → NoDup (edges g).
Proof. intros (Hnd & Hall & _). by apply NoDup_edges_from. Qed.
End EdgeFacts.

(** ** Counting edges *)

Section EdgeCount.
Context {V : Type} `{EqDecision V}.
Implicit Types (g : Graph V) (a b u v n : V).

Lemma elem_of_directed_pairs g a b : (a, b) ∈ directed_pairs g ↔ adjacent g a b.
Proof.
  unfold directed_pairs, adjacent. rewrite list_elem_of_bind. split.
  - intros ([n nb] & Hin & Hg). simpl in Hin.
    apply list_elem_of_fmap in Hin as (b' & [= -> ->] & Hb). by exists nb.
  - intros (nb & Hg & Hb). exists (a, nb). split; [|done]. simpl.
    apply list_elem_of_fmap. by exists b.
Qed.

Lemma NoDup_directed_pairs g :
  NoDup (nodes g) → Forall (λ p : V * list V, NoDup p.2) g →
  NoDup (directed_pairs g).
Proof.
  induction g as [|[n nb] g IH]; intros Hnd Hall; [constructor|].
  simpl in Hnd. apply NoDup_cons in Hnd as [Hn Hnd].
  apply Forall_cons in Hall as [Hnb Hall]. simpl in Hnb.
  change (directed_pairs ((n, nb) :: g))
    with (((λ b, (n, b)) <$> nb) ++ directed_pairs g).
  apply NoDup_app. split; [|split].
  - apply NoDup_fmap_2; [intros x y; congruence|done].
  - intros [a b] Hin Hin'. apply list_elem_of_fmap in Hin as (b' & [= -> ->] & _).
    apply elem_of_directed_pairs, adjacent_node in Hin'. done.
  - by apply IH.
Qed.

Lemma length_directed_pairs g :
  length (directed_pairs g) = sum_list ((λ p : V * list V, length p.2) <$> g).
Proof.
  induction g as [|[n nb] g IH]; [done|].
  change (directed_pairs ((n, nb) :: g))
    with (((λ b, (n, b)) <$> nb) ++ directed_pairs g).
  rewrite length_app, length_fmap, IH. done.
Qed.

Lemma directed_pairs_edges g :
  graph_wf g →
  directed_pairs g ≡ₚ
    edges g ++ (swap_edge <$> filter (λ e : V * V, e.1 ≠ e.2) (edges g)).
Proof.
  intros Hwf. pose proof Hwf as (Hnd & Hall & Hsym).
  apply NoDup_Permutation.
  - by apply NoDup_directed_pairs.
  - apply NoDup_app. split; [by apply NoDup_edges|]. split.
    + intros [a b] Hin Hin'.
      apply list_elem_of_fmap in Hin' as ([b' a'] & [= -> ->] & Hin').
      apply list_elem_of_filter in Hin' as [Hne Hin']. simpl in Hne.
      destruct Hne. by apply (edges_antisym g).
    + apply NoDup_fmap_2; [intros [] [] [=]; by subst|].
      apply NoDup_filter. by apply NoDup_edges.
  - intros [a b]. rewrite elem_of_directed_pairs, elem_of_app. split.
    + intros Hab. destruct (adjacent_edges g a b Hwf Hab) as [?|Hba]; [by left|].
      destruct (decide (a = b)) as [->|Hne]; [by left|]. right.
      apply list_elem_of_fmap. exists (b, a). split; [done|].
      apply list_elem_of_filter. split; [simpl; congruence|done].
    + intros [Hin|Hin]; [by apply edges_adjacent|].
      apply list_elem_of_fmap in Hin as ([b' a'] & [= -> ->] & Hin).
      apply list_elem_of_filter in Hin as [_ Hin].
      by apply Hsym, edges_adjacent.
Qed.

Lemma length_filter_eq_NoDup n (l : list V) :
  NoDup l → length (filter (λ b, b = n) l) = if decide (n ∈ l) then 1%nat else 0%nat.
Proof.
  induction 1 as [|x l Hx Hnd IH]; [done|].
  rewrite filter_cons. destruct (decide (x = n)) as [->|Hne].
  - simpl. rewrite IH. rewrite decide_False by done.
    by rewrite decide_True by left.
  - rewrite IH. destruct (decide (n ∈ l)) as [Hin|Hnin].
    + by rewrite decide_True by (by right).
    + rewrite decide_False; [done|]. rewrite not_elem_of_cons. naive_solver.
Qed.

Lemma length_loops_from seen g :
  NoDup (nodes g) → Forall (λ p : V * list V, NoDup p.2) g →
  (∀ x, x ∈ nodes g → x ∉ seen) →
  length (filter (λ e : V * V, e.1 = e.2) (edges_from seen g)) =
  sum_list ((λ p : V * list V, if decide (p.1 ∈ p.2) then 1 else 0)%nat <$> g).
Proof.
  revert seen. induction g as [|[n nb] g IH]; intros seen Hnd Hall Hseen; [done|].
  simpl in Hnd. apply NoDup_cons in Hnd as [Hn Hnd].
  apply Forall_cons in Hall as [Hnb Hall]. simpl in Hnb.
  simpl. rewrite filter_app, length_app. f_equal.
  - assert (Hns : n ∉ seen) by (apply Hseen; by left).
    clear -Hnb Hns. rewrite <- (length_filter_eq_NoDup n nb Hnb).
    induction nb as [|b nb IH']; [done|].
    apply NoDup_cons in Hnb as [_ Hnb].
    rewrite !filter_cons.
    destruct (decide (b ∉ seen)) as [Hb|Hb].
    + rewrite fmap_cons, filter_cons. simpl.
      destruct (decide (n = b)) as [->|Hne].
      * rewrite decide_True by done. simpl. by rewrite IH'.
      * rewrite decide_False by congruence. by apply IH'.
    + rewrite decide_False; [by apply IH'|].
      intros ->. by apply Hb.
  - apply IH; [done..|]. intros x Hx. apply not_elem_of_cons. split.
    + intros ->. done.
    + apply Hseen. by right.
Qed.

Lemma length_filter_complement {A} (P : A → Prop) `{∀ x, Decision (P x)} (l : list A) :
  (length (filter P l) + length (filter (λ x, ¬ P x) l) = length l)%nat.
Proof. by rewrite <- length_app, filter_app_complement. Qed.

Lemma sum_list_fmap_add {A} (f1 f2 : A → nat) (l : list A) :
  sum_list ((λ x, f1 x + f2 x)%nat <$> l) = (sum_list (f1 <$> l) + sum_list (f2 <$> l))%nat.
Proof. induction l as [|x l IH]; [done|]. rewrite !fmap_cons. simpl in *. lia. Qed.

(** The sum of the degrees is twice the number of edges. *)
Lemma degree_sum_edges g : graph_wf g → degree_sum g = (2 * length (edges g))%nat.
Proof.
  intros Hwf. pose proof Hwf as (Hnd & Hall & Hsym).
  unfold degree_sum.
  rewrite (sum_list_fmap_add (λ p : V * list V, length p.2)
             (λ p : V * list V, if decide (p.1 ∈ p.2) then 1 else 0)%nat).
  rewrite <- length_directed_pairs, (directed_pairs_edges g Hwf).
  rewrite length_app, length_fmap.
  rewrite <- (length_loops_from [] g Hnd Hall); [|intros; apply not_elem_of_nil].
  fold (edges g).
  pose proof (length_filter_complement (λ e : V * V, e.1 = e.2) (edges g)). lia.
Qed.

Lemma edges_len_length g : graph_wf g → edges_len g = length (edges g).
Proof.
  intros Hwf. unfold edges_len. rewrite degree_sum_edges by done.
  by rewrite Nat.mul_comm, Nat.div_mul.
Qed.

Lemma edges_contains_adjacent g a b :
  graph_wf g → edges_contains (a, b) g = true ↔ adjacent g a b.
Proof.
  intros (Hnd & Hall & Hsym). unfold edges_contains. simpl.
  destruct (nbrs_of a g) as [nu|] eqn:Hu.
  - apply nbrs_of_Some in Hu; [|done].
    destruct (decide (b ∈ nu)) as [Hb|Hb]; [split; [by exists nu|done]|].
    assert (Hnab : ¬ adjacent g a b).
    { intros (nb & Ha & Hb'). by rewrite (NoDup_nodes_functional g a nb nu) in Hb'. }
    destruct (nbrs_of b g) as [nv|] eqn:Hv; [|done].
    apply nbrs_of_Some in Hv; [|done].
    rewrite bool_decide_eq_true. split; [|done].
    intros Ha. destruct Hnab. apply Hsym. by exists nv.
  - apply nbrs_of_None in Hu. split; [done|].
    intros Hab. by apply adjacent_node in Hab.
Qed.

Lemma orient_in_edges g1 g2 e :
  graph_wf g2 → (∀ a b, adjacent g1 a b → adjacent g2 a b) →
  e ∈ edges g1 → orient_in g2 e ∈ edges g2.
Proof.
  intros Hwf Hincl He. unfold orient_in. destruct (decide (e ∈ edges g2)); [done|].
  destruct e as [a b]. apply edges_adjacent, Hincl in He.
  by destruct (adjacent_edges g2 a b Hwf He).
Qed.

Lemma NoDup_orient_in g1 g2 :
  graph_wf g1 → NoDup (orient_in g2 <$> edges g1).
Proof.
  intros Hwf. apply NoDup_fmap_2_strong; [|by apply NoDup_edges].
  intros [a b] [c d] H1 H2 Heq. unfold orient_in, swap_edge in Heq.
  repeat case_decide; simpl in Heq; simplify_eq; try done.
  all: match goal with
       | Ha : (?x, ?y) ∈ edges ?g, Hb : (?y, ?x) ∈ edges ?g |- _ =>
           pose proof (edges_antisym g x y Hwf Ha Hb); by subst
       end.
Qed.

Lemma edges_incl_length g1 g2 :
  graph_wf g1 → graph_wf g2 →
  (∀ a b, adjacent g1 a b → adjacent g2 a b) →
  (length (edges g1) ≤ length (edges g2))%nat.
Proof.
  intros Hwf1 Hwf2 Hincl.
  rewrite <- (length_fmap (orient_in g2)). apply submseteq_length.
  apply NoDup_submseteq; [by apply NoDup_orient_in|].
  intros e He. apply list_elem_of_fmap in He as (e' & -> & He).
  by apply (orient_in_edges g1).
Qed.

Lemma edges_incl_same g1 g2 :
  graph_wf g1 → graph_wf g2 →
  (∀ a b, adjacent g1 a b → adjacent g2 a b) →
  (length (edges g2) ≤ length (edges g1))%nat →
  ∀ a b, adjacent g2 a b → adjacent g1 a b.
Proof.
  intros Hwf1 Hwf2 Hincl Hlen.
  assert (Hperm : orient_in g2 <$> edges g1 ≡ₚ edges g2).
  { apply submseteq_length_Permutation; [|by rewrite length_fmap].
    apply NoDup_submseteq; [by apply NoDup_orient_in|].
    intros e He. apply list_elem_of_fmap in He as (e' & -> & He).
    by apply (orient_in_edges g1). }
  assert (Hin : ∀ a b, (a, b) ∈ edges g2 → adjacent g1 a b).
  { intros a b Hab. rewrite <- Hperm in Hab.
    apply list_elem_of_fmap in Hab as ([c d] & Heq & Hcd).
    apply edges_adjacent in Hcd. unfold orient_in, swap_edge in Heq.
    case_decide; simpl in Heq; injection Heq as -> ->; [done|].
    by apply Hwf1. }
  intros a b Hab. destruct (adjacent_edges g2 a b Hwf2 Hab) as [?|?].
  - by apply Hin.
  - by apply Hwf1, Hin.
Qed.

(** Two edge views are equal exactly when the graphs have the same
    adjacency. *)
Lemma edges_eqb_spec g1 g2 :
  graph_wf g1 → graph_wf g2 →
  edges_eqb g1 g2 = true ↔ ∀ a b, adjacent g1 a b ↔ adjacent g2 a b.
Proof.
  intros Hwf1 Hwf2. unfold edges_eqb, edges_le.
  rewrite !edges_len_length by done. split.
  - intros Heq. apply andb_true_iff in Heq as [Hlen Hle].
    apply Nat.eqb_eq in Hlen. rewrite Hlen, Nat.ltb_irrefl in Hle.
    rewrite forallb_forall in Hle.
    assert (Hincl : ∀ a b, adjacent g1 a b → adjacent g2 a b).
    { intros a b Hab. destruct (adjacent_edges g1 a b Hwf1 Hab) as [He|He];
        apply list_elem_of_In, Hle in He; apply edges_contains_adjacent in He; try done.
      by apply Hwf2. }
    intros a b. split; [apply Hincl|].
    apply edges_incl_same; try done. lia.
  - intros Hsame.
    assert (length (edges g1) = length (edges g2)) as ->.
    { apply Nat.le_antisymm; apply edges_incl_length; try done;
        intros a b; by rewrite Hsame. }
    rewrite Nat.eqb_refl, Nat.ltb_irrefl. simpl.
    apply forallb_forall. intros [a b] He. apply list_elem_of_In in He.
    apply edges_contains_adjacent; [done|]. by apply Hsame, edges_adjacent.
Qed.
End EdgeCount.

(** ** Graphs built by folding [add_edge] and [add_node] *)

Section FoldFacts.
Context {V E : Type} `{EqDecision V}.
Implicit Types (g acc : Graph V) (fa fb : E → V).

Lemma foldl_add_edge_wf fa fb es acc :
  graph_wf acc → graph_wf (foldl (λ g e, add_edge (fa e) (fb e) g) acc es).
Proof.
  revert acc. induction es as [|e es IH]; intros acc Hwf; simpl; [done|].
  by apply IH, graph_wf_add_edge.
Qed.

Lemma foldl_add_edge_nodes fa fb es acc x :
  x ∈ nodes (foldl (λ g e, add_edge (fa e) (fb e) g) acc es) ↔
  x ∈ nodes acc ∨ ∃ e, e ∈ es ∧ (x = fa e ∨ x = fb e).
Proof.
  revert acc. induction es as [|e es IH]; intros acc; simpl.
  - split; [by left|]. intros [?|(e & He & _)]; [done|]. by apply elem_of_nil in He.
  - rewrite IH, elem_of_nodes_add_edge. split.
    + intros [[?|[?|?]]|(e' & He' & Hx)].
      * right. exists e. split; [by left|by left].
      * right. exists e. split; [by left|by right].
      * by left.
      * right. exists e'. split; [by right|done].
    + intros [?|(e' & He' & Hx)]; [left; by right; right|].
      apply elem_of_cons in He' as [->|He'].
      * left. destruct Hx; [by left|right; by left].
      * right. by exists e'.
Qed.

Lemma foldl_add_edge_adjacent fa fb es acc a b :
  adjacent (foldl (λ g e, add_edge (fa e) (fb e) g) acc es) a b ↔
  adjacent acc a b ∨
  ∃ e, e ∈ es ∧ ((a = fa e ∧ b = fb e) ∨ (a = fb e ∧ b = fa e)).
Proof.
  revert acc. induction es as [|e es IH]; intros acc; simpl.
  - split; [by left|]. intros [?|(e & He & _)]; [done|]. by apply elem_of_nil in He.
  - rewrite IH, adjacent_add_edge. split.
    + intros [[?|Hor]|(e' & He' & Hx)].
      * by left.
      * right. exists e. split; [by left|done].
      * right. exists e'. split; [by right|done].
    + intros [?|(e' & He' & Hx)]; [left; by left|].
      apply elem_of_cons in He' as [->|He'].
      * left. by right.
      * right. by exists e'.
Qed.

Lemma foldl_add_node_wf (fr : E → V) ns acc :
  graph_wf acc → graph_wf (foldl (λ g n, add_node (fr n) g) acc ns).
Proof.
  revert acc. induction ns as [|n ns IH]; intros acc Hwf; simpl; [done|].
  by apply IH, graph_wf_add_node.
Qed.

Lemma foldl_add_node_nodes (fr : E → V) ns acc x :
  x ∈ nodes (foldl (λ g n, add_node (fr n) g) acc ns) ↔
  x ∈ nodes acc ∨ ∃ n, n ∈ ns ∧ x = fr n.
Proof.
  revert acc. induction ns as [|n ns IH]; intros acc; simpl.
  - split; [by left|]. intros [?|(e & He & _)]; [done|]. by apply elem_of_nil in He.
  - rewrite IH, elem_of_nodes_add_node. split.
    + intros [[->|?]|(n' & Hn' & Hx)].
      * right. exists n. split; [by left|done].
      * by left.
      * right. exists n'. split; [by right|done].
    + intros [?|(n' & Hn' & Hx)]; [left; by right|].
      apply elem_of_cons in Hn' as [->|Hn'].
      * left. by left.
      * right. by exists n'.
Qed.

Lemma foldl_add_node_adjacent (fr : E → V) ns acc a b :
  adjacent (foldl (λ g n, add_node (fr n) g) acc ns) a b ↔ adjacent acc a b.
Proof.
  revert acc. induction ns as [|n ns IH]; intros acc; simpl; [done|].
  by rewrite IH, adjacent_add_node.
Qed.
End FoldFacts.

(** ** The constructor of partition nodes *)

Section InitFacts.
Context {V : Type} `{PyNode V, EqDecision V}.

Lemma init_edges_pure (phi : V * V → V * V) es acc :
  (∀ e, e ∈ es → sorted_edge e = Ok (phi e)) →
  init_edges es acc =
  Ok (foldl (λ g e, add_edge (freeze (phi e).1) (freeze (phi e).2) g) acc es).
Proof.
  revert acc. induction es as [|e es IH]; intros acc Hes; simpl; [done|].
  rewrite (Hes e) by left. simpl. apply IH. intros e' He'. apply Hes. by right.
Qed.

(** The graph of the partition node made from [g], when the endpoints of
    every edge can be sorted. *)
Lemma SearchSpaceNode_init_spec (phi : V * V → V * V) (g : Graph V) :
  (∀ e, e ∈ edges g → sorted_edge e = Ok (phi e)) →
  (∀ e, phi e = e ∨ phi e = swap_edge e) →
  ∃ x, SearchSpaceNode_init g = Ok x ∧
       graph_wf (_graph x) ∧
       (∀ l, l ∈ nodes (_graph x) ↔
             (∃ n, n ∈ nodes g ∧ l = freeze n) ∨
             (∃ a b, (a, b) ∈ edges g ∧ (l = freeze a ∨ l = freeze b))) ∧
       (∀ l1 l2, adjacent (_graph x) l1 l2 ↔
             ∃ a b, (a, b) ∈ edges g ∧
                    ((l1 = freeze a ∧ l2 = freeze b) ∨ (l1 = freeze b ∧ l2 = freeze a))).
Proof.
  intros Hsort Hphi. unfold SearchSpaceNode_init.
  rewrite (init_edges_pure phi) by done. simpl.
  eexists. split; [done|]. simpl. split; [|split].
  - apply foldl_add_node_wf.
    apply (foldl_add_edge_wf (λ e, freeze (phi e).1) (λ e, freeze (phi e).2)).
    apply graph_wf_nil.
  - intros l. rewrite foldl_add_node_nodes.
    rewrite (foldl_add_edge_nodes (λ e, freeze (phi e).1) (λ e, freeze (phi e).2)).
    simpl. split.
    + intros [[Hnil|(e & He & Hl)]|?]; [by apply elem_of_nil in Hnil| |by left].
      right. destruct e as [a b]. exists a, b. split; [done|].
      destruct (Hphi (a, b)) as [Hp|Hp]; rewrite Hp in *; simpl in *; naive_solver.
    + intros [?|(a & b & He & Hl)]; [by right|].
      left. right. exists (a, b). split; [done|].
      destruct (Hphi (a, b)) as [Hp|Hp]; rewrite Hp in *; simpl in *; naive_solver.
  - intros l1 l2. rewrite foldl_add_node_adjacent.
    rewrite (foldl_add_edge_adjacent (λ e, freeze (phi e).1) (λ e, freeze (phi e).2)).
    simpl. split.
    + intros [Hnil|(e & He & Hl)]; [by apply adjacent_nil in Hnil|].
      destruct e as [a b]. exists a, b. split; [done|].
      destruct (Hphi (a, b)) as [Hp|Hp]; rewrite Hp in *; simpl in *; naive_solver.
    + intros (a & b & He & Hl). right. exists (a, b). split; [done|].
      destruct (Hphi (a, b)) as [Hp|Hp]; rewrite Hp in *; simpl in *; naive_solver.
Qed.
End InitFacts.

Lemma sort_by_pair {A} (ltb : A → A → bool) a b :
  sort_by ltb [a; b] = if ltb b a then [b; a] else [a; b].
Proof. done. Qed.

Lemma sorted_edge_int (e : Z * Z) :
  sorted_edge e = Ok (if e.2 <? e.1 then swap_edge e else e).
Proof.
  unfold sorted_edge. rewrite (sorted_pure _ Z.ltb) by done.
  rewrite sort_by_pair. simpl. destruct e as [a b]; simpl. by destruct (b <? a).
Qed.

Lemma sorted_edge_fset (e : fset * fset) :
  e.1 ≠ ∅ → e.2 ≠ ∅ →
  sorted_edge e = Ok (if fset_ltb e.2 e.1 then swap_edge e else e).
Proof.
  intros H1 H2. unfold sorted_edge. rewrite (sorted_pure _ fset_ltb).
  - rewrite sort_by_pair. simpl. destruct e as [a b]; simpl. by destruct (fset_ltb b a).
  - intros x y Hx Hy. apply fset_lt_pure; set_solver.
Qed.

(** The root partition node exists and is well formed for every graph
    over ints. *)
Lemma SearchSpaceNode_init_int (g : Graph Z) :
  ∃ x, SearchSpaceNode_init g = Ok x ∧ node_ok x ∧
       (∀ l, l ∈ nodes (_graph x) ↔
             (∃ n, n ∈ nodes g ∧ l = {[n]}) ∨
             (∃ a b, (a, b) ∈ edges g ∧ (l = {[a]} ∨ l = {[b]}))) ∧
       (∀ l1 l2, adjacent (_graph x) l1 l2 ↔
             ∃ a b, (a, b) ∈ edges g ∧
                    ((l1 = {[a]} ∧ l2 = {[b]}) ∨ (l1 = {[b]} ∧ l2 = {[a]}))).
Proof.
  destruct (SearchSpaceNode_init_spec
              (λ e : Z * Z, if e.2 <? e.1 then swap_edge e else e) g)
    as (x & Hx & Hwf & Hn & Ha).
  { intros e _. apply sorted_edge_int. }
  { intros e. destruct (e.2 <? e.1); [by right|by left]. }
  exists x. split; [done|]. split; [|done]. split; [done|].
  intros l Hl. apply Hn in Hl. simpl in Hl.
  destruct Hl as [(n & _ & ->)|(a & b & _ & [-> | ->])]; set_solver.
Qed.

(** Re-building a well-formed graph over non-empty labels keeps its
    vertices and its adjacency. *)
Lemma SearchSpaceNode_init_fset (g : Graph fset) :
  graph_wf g → labels_nonempty g →
  ∃ x, SearchSpaceNode_init g = Ok x ∧ node_ok x ∧
       (∀ l, l ∈ nodes (_graph x) ↔ l ∈ nodes g) ∧
       (∀ l1 l2, adjacent (_graph x) l1 l2 ↔ adjacent g l1 l2).
Proof.
  intros Hwf Hne.
  assert (Hends : ∀ a b, (a, b) ∈ edges g → a ∈ nodes g ∧ b ∈ nodes g).
  { intros a b He. apply edges_adjacent in He. split; [by eapply adjacent_node|].
    apply Hwf in He. by eapply adjacent_node. }
  destruct (SearchSpaceNode_init_spec
              (λ e : fset * fset, if fset_ltb e.2 e.1 then swap_edge e else e) g)
    as (x & Hx & Hwfx & Hn & Ha).
  { intros [a b] He. destruct (Hends a b He). apply sorted_edge_fset; by apply Hne. }
  { intros e. destruct (fset_ltb e.2 e.1); [by right|by left]. }
  simpl in Hn, Ha.
  assert (Hn' : ∀ l, l ∈ nodes (_graph x) ↔ l ∈ nodes g).
  { intros l. rewrite Hn. split.
    - intros [(n & ? & ->)|(a & b & He & [-> | ->])]; [done|..];
        by destruct (Hends a b He).
    - intros Hl. left. by exists l. }
  exists x. split; [done|]. split; [|split; [done|]].
  - split; [done|]. intros l Hl. by apply Hne, Hn'.
  - intros l1 l2. rewrite Ha. split.
    + intros (a & b & He & [[-> ->]|[-> ->]]); apply edges_adjacent in He; [done|].
      by apply Hwf.
    + intros Hab. destruct (adjacent_edges g l1 l2 Hwf Hab) as [He|He].
      * exists l1, l2. split; [done|by left].
      * exists l2, l1. split; [done|by right].
Qed.

(** ** The canonical tuple and the hash *)

Lemma norm_edge_swap a b : norm_edge (a, b) = norm_edge (b, a).
Proof.
  pose proof fset_ltb_strict_total as Hst.
  unfold norm_edge. rewrite !sort_by_pair. simpl.
  destruct (fset_ltb b a) eqn:Hba.
  - by rewrite (st_asym _ Hst _ _ Hba).
  - destruct (fset_ltb a b) eqn:Hab; [done|].
    by rewrite (st_total _ Hst a b).
Qed.

Lemma norm_edge_inj e1 e2 :
  norm_edge e1 = norm_edge e2 → e1 = e2 ∨ e1 = swap_edge e2.
Proof.
  destruct e1 as [a b], e2 as [c d]. unfold norm_edge, swap_edge.
  rewrite !sort_by_pair. simpl.
  destruct (fset_ltb b a), (fset_ltb d c); intros [= -> ->]; auto.
Qed.

Lemma norm_edge_nonempty e :
  e.1 ≠ ∅ → e.2 ≠ ∅ → Forall (λ a, a ≠ ∅) (norm_edge e).
Proof.
  intros H1 H2. unfold norm_edge. rewrite sort_by_pair.
  destruct (fset_ltb e.2 e.1); repeat constructor; done.
Qed.

Lemma hash_edges_pure es :
  (∀ e, e ∈ es → e.1 ≠ ∅ ∧ e.2 ≠ ∅) → hash_edges es = Ok (norm_edge <$> es).
Proof.
  induction es as [|e es IH]; intros Hes; simpl; [done|].
  destruct (Hes e) as [H1 H2]; [by left|].
  rewrite (sorted_pure _ fset_ltb).
  - simpl. rewrite IH; [done|]. intros e' He'. apply Hes. by right.
  - intros x y Hx Hy. apply fset_lt_pure; set_solver.
Qed.

Lemma edges_nodes {V} `{EqDecision V} (g : Graph V) a b :
  graph_wf g → (a, b) ∈ edges g → a ∈ nodes g ∧ b ∈ nodes g.
Proof.
  intros Hwf He. apply edges_adjacent in He. split; [by eapply adjacent_node|].
  apply Hwf in He. by eapply adjacent_node.
Qed.

(** [__hash__] never raises on a well-formed partition node: it hashes the
    canonical tuple. *)
Lemma hash_key_pure x : node_ok x → hash_key x = Ok (canonical_key (_graph x)).
Proof.
  intros [Hwf Hne]. unfold hash_key, canonical_key.
  assert (Hends : ∀ e, e ∈ edges (_graph x) → e.1 ≠ ∅ ∧ e.2 ≠ ∅).
  { intros [a b] He. destruct (edges_nodes _ a b Hwf He). split; by apply Hne. }
  rewrite hash_edges_pure by done. simpl.
  apply sorted_pure. intros p q Hp Hq.
  apply list_elem_of_fmap in Hp as (e1 & -> & He1).
  apply list_elem_of_fmap in Hq as (e2 & -> & He2).
  apply tuple_lt_pure; apply norm_edge_nonempty; by apply Hends.
Qed.

Lemma NoDup_norm_edges (g : Graph fset) : graph_wf g → NoDup (norm_edge <$> edges g).
Proof.
  intros Hwf. apply NoDup_fmap_2_strong; [|by apply NoDup_edges].
  intros [a b] [c d] H1 H2 Heq.
  destruct (norm_edge_inj _ _ Heq) as [?|Hsw]; [done|].
  unfold swap_edge in Hsw. simpl in Hsw. injection Hsw as -> ->.
  by rewrite (edges_antisym g d c Hwf).
Qed.

Lemma elem_of_norm_edges (g : Graph fset) t :
  graph_wf g →
  t ∈ norm_edge <$> edges g ↔ ∃ a b, adjacent g a b ∧ t = norm_edge (a, b).
Proof.
  intros Hwf. rewrite list_elem_of_fmap. split.
  - intros ([a b] & -> & He). exists a, b. split; [by apply edges_adjacent|done].
  - intros (a & b & Hab & ->).
    destruct (adjacent_edges g a b Hwf Hab) as [He|He].
    + by exists (a, b).
    + exists (b, a). split; [apply norm_edge_swap|done].
Qed.

(** Graphs with the same adjacency have the same canonical tuple. *)
Lemma canonical_key_same (g1 g2 : Graph fset) :
  graph_wf g1 → graph_wf g2 →
  (∀ a b, adjacent g1 a b ↔ adjacent g2 a b) →
  canonical_key g1 = canonical_key g2.
Proof.
  intros Hwf1 Hwf2 Hsame. unfold canonical_key.
  apply sort_by_unique; [apply tuple_ltb_strict_total|].
  apply NoDup_Permutation; [by apply NoDup_norm_edges..|].
  intros t. rewrite !elem_of_norm_edges by done.
  split; intros (a & b & Hab & ->); exists a, b; by rewrite ?Hsame in *.
Qed.

(** The converse: the canonical tuple determines the adjacency. *)
Lemma canonical_key_adjacent (g : Graph fset) a b :
  graph_wf g → adjacent g a b ↔ norm_edge (a, b) ∈ canonical_key g.
Proof.
  intros Hwf. unfold canonical_key. rewrite sort_by_perm, elem_of_norm_edges by done.
  split; [intros Hab; by exists a, b|].
  intros (c & d & Hcd & Heq).
  destruct (norm_edge_inj _ _ Heq) as [[= -> ->]|[= -> ->]]; [done|by apply Hwf].
Qed.

Lemma SearchSpaceNode_eq_spec x y :
  node_ok x → node_ok y →
  SearchSpaceNode_eq x y = true ↔
  ∀ a b, adjacent (_graph x) a b ↔ adjacent (_graph y) a b.
Proof. intros [Hx _] [Hy _]. by apply edges_eqb_spec. Qed.

Lemma SearchSpaceNode_eq_key x y :
  node_ok x → node_ok y →
  SearchSpaceNode_eq x y = true ↔ canonical_key (_graph x) = canonical_key (_graph y).
Proof.
  intros Hx Hy. rewrite SearchSpaceNode_eq_spec by done. split.
  - intros Hsame. apply canonical_key_same; [apply Hx|apply Hy|done].
  - intros Hkey a b.
    rewrite !canonical_key_adjacent by (apply Hx || apply Hy). by rewrite Hkey.
Qed.

(** ** Merging the endpoints of an edge *)

Lemma merge_step_merged_edge edge g e :
  merge_step edge (edge.1 ∪ edge.2) g e =
  if decide (edge = e) then g
  else add_edge (merged_edge edge e).1 (merged_edge edge e).2 g.
Proof.
  unfold merge_step, merged_edge. destruct (decide (edge = e)); [done|].
  destruct (in_edge e.1 edge); [done|]. by destruct (in_edge e.2 edge).
Qed.

Lemma merge_step_fold edge es acc :
  foldl (merge_step edge (edge.1 ∪ edge.2)) acc es =
  foldl (λ g e, add_edge (merged_edge edge e).1 (merged_edge edge e).2 g) acc
        (filter (λ e, edge ≠ e) es).
Proof.
  revert acc. induction es as [|e es IH]; intros acc; [done|].
  rewrite filter_cons. simpl. rewrite merge_step_merged_edge.
  destruct (decide (edge = e)) as [Heq|Hne].
  - rewrite decide_False by (intros Hn; by apply Hn). apply IH.
  - rewrite decide_True by done. simpl. apply IH.
Qed.

Lemma merged_graph_fold g edge :
  merged_graph g edge =
  foldl (λ g e, add_edge (merged_edge edge e).1 (merged_edge edge e).2 g)
        (add_node (edge.1 ∪ edge.2) []) (filter (λ e, edge ≠ e) (edges g)).
Proof. unfold merged_graph. apply merge_step_fold. Qed.

Lemma merged_graph_wf g edge : graph_wf (merged_graph g edge).
Proof.
  rewrite merged_graph_fold.
  apply (foldl_add_edge_wf (λ e, (merged_edge edge e).1) (λ e, (merged_edge edge e).2)).
  apply graph_wf_add_node, graph_wf_nil.
Qed.

Lemma merged_graph_nodes g edge x :
  x ∈ nodes (merged_graph g edge) ↔
  x = edge.1 ∪ edge.2 ∨
  ∃ e, e ∈ edges g ∧ edge ≠ e ∧
       (x = (merged_edge edge e).1 ∨ x = (merged_edge edge e).2).
Proof.
  rewrite merged_graph_fold.
  rewrite (foldl_add_edge_nodes (λ e, (merged_edge edge e).1) (λ e, (merged_edge edge e).2)).
  rewrite elem_of_nodes_add_node. split.
  - intros [[?|Hnil]|(e & He & Hx)]; [by left|by apply elem_of_nil in Hnil|].
    apply list_elem_of_filter in He as [Hne He]. right. by exists e.
  - intros [?|(e & He & Hne & Hx)]; [left; by left|].
    right. exists e. split; [by apply list_elem_of_filter|done].
Qed.

Lemma merged_graph_adjacent g edge a b :
  adjacent (merged_graph g edge) a b ↔
  ∃ e, e ∈ edges g ∧ edge ≠ e ∧
       ((a = (merged_edge edge e).1 ∧ b = (merged_edge edge e).2) ∨
        (a = (merged_edge edge e).2 ∧ b = (merged_edge edge e).1)).
Proof.
  rewrite merged_graph_fold.
  rewrite (foldl_add_edge_adjacent (λ e, (merged_edge edge e).1) (λ e, (merged_edge edge e).2)).
  rewrite adjacent_add_node. split.
  - intros [Hnil|(e & He & Hx)]; [by apply adjacent_nil in Hnil|].
    apply list_elem_of_filter in He as [Hne He]. by exists e.
  - intros (e & He & Hne & Hx).
    right. exists e. split; [by apply list_elem_of_filter|done].
Qed.

Lemma merged_edge_ends edge e x :
  x = (merged_edge edge e).1 ∨ x = (merged_edge edge e).2 →
  x = edge.1 ∪ edge.2 ∨ x = e.1 ∨ x = e.2.
Proof.
  unfold merged_edge. destruct (in_edge e.1 edge); [simpl; naive_solver|].
  destruct (in_edge e.2 edge); simpl; naive_solver.
Qed.

(** A child of a well-formed partition node is either the failed assertion
    or again a well-formed partition node, with the vertices and the
    adjacency of the merged graph. *)
Lemma expand_child_cases x edge :
  node_ok x → edge ∈ edges (_graph x) →
  expand_child (_graph x) edge = Raise AssertionError ∨
  ∃ c, expand_child (_graph x) edge = Ok c ∧ node_ok c ∧
       Z.of_nat (order (merged_graph (_graph x) edge)) = Z.of_nat (order (_graph x)) - 1 ∧
       (∀ l, l ∈ nodes (_graph c) ↔ l ∈ nodes (merged_graph (_graph x) edge)) ∧
       (∀ a b, adjacent (_graph c) a b ↔ adjacent (merged_graph (_graph x) edge) a b).
Proof.
  intros [Hwf Hne] Hedge. unfold expand_child.
  destruct (decide _) as [Hord|]; [|by left]. right.
  destruct (SearchSpaceNode_init_fset (merged_graph (_graph x) edge))
    as (c & Hc & Hok & Hn & Ha).
  - apply merged_graph_wf.
  - intros l Hl. apply merged_graph_nodes in Hl.
    destruct edge as [s t].
    destruct (edges_nodes _ s t Hwf Hedge) as [Hs Ht].
    assert (Hst : s ∪ t ≠ ∅).
    { specialize (Hne s Hs). set_solver. }
    destruct Hl as [->|(e & He & _ & Hl)]; [done|].
    destruct e as [a b]. destruct (edges_nodes _ a b Hwf He) as [Ha Hb].
    apply merged_edge_ends in Hl as [->|[->| ->]]; [done|by apply Hne..].
  - by exists c.
Qed.

Lemma SearchSpaceNode_expand_cases x r :
  node_ok x → r ∈ SearchSpaceNode_expand x →
  r = Raise AssertionError ∨ ∃ c, r = Ok c ∧ node_ok c.
Proof.
  intros Hok Hr. unfold SearchSpaceNode_expand in Hr.
  apply list_elem_of_fmap in Hr as (edge & -> & Hedge).
  destruct (expand_child_cases x edge Hok Hedge) as [?|(c & ? & ? & _)]; [by left|].
  right. by exists c.
Qed.

(** ** Equality and hashing of partition nodes *)

Lemma same_edge_set_adjacent (g1 g2 : Graph fset) :
  graph_wf g1 → graph_wf g2 →
  same_edge_set g1 g2 ↔ ∀ a b, adjacent g1 a b ↔ adjacent g2 a b.
Proof.
  intros Hwf1 Hwf2.
  assert (Hadj : ∀ (g : Graph fset) a b, graph_wf g →
            adjacent g a b ↔ ((a, b) ∈ edges g ∨ (b, a) ∈ edges g)).
  { intros g a b Hwf. split; [by apply adjacent_edges|].
    intros [He|He]; apply edges_adjacent in He; [done|by apply Hwf]. }
  unfold same_edge_set. split; intros Hsame a b.
  - by rewrite !Hadj.
  - by rewrite <- !Hadj.
Qed.

(** C4: partition nodes with the same edge set compare equal, whatever
    their vertex sets, and partition nodes that compare equal have the
    same hash; the hash does not depend on the order in which the edges
    are listed nor on the order of the endpoints within an edge. *)
Theorem SearchSpaceNode_eq_hash_consistent
    (py_hash : list (list fset) → Z) (x y : SearchSpaceNode) :
  node_ok x → node_ok y →
  (same_edge_set (_graph x) (_graph y) → SearchSpaceNode_eq x y = true) ∧
  (SearchSpaceNode_eq x y = true →
   ∃ h, SearchSpaceNode_hash py_hash x = Ok h ∧ SearchSpaceNode_hash py_hash y = Ok h).
Proof.
  intros Hx Hy. split.
  - intros Hsame. apply SearchSpaceNode_eq_spec; [done..|].
    apply same_edge_set_adjacent; [apply Hx|apply Hy|done].
  - intros Heq. apply SearchSpaceNode_eq_key in Heq; [|done..].
    unfold SearchSpaceNode_hash. rewrite !hash_key_pure by done. simpl.
    rewrite Heq. by eexists.
Qed.

Lemma labels_nonempty_add_node n g :
  n ≠ ∅ → labels_nonempty g → labels_nonempty (add_node n g).
Proof.
  intros Hn Hg a Ha. apply elem_of_nodes_add_node in Ha as [->|Ha]; [done|by apply Hg].
Qed.

Lemma labels_nonempty_add_edge u v g :
  u ≠ ∅ → v ≠ ∅ → labels_nonempty g → labels_nonempty (add_edge u v g).
Proof.
  intros Hu Hv Hg a Ha.
  apply elem_of_nodes_add_edge in Ha as [->|[->|Ha]]; [done..|by apply Hg].
Qed.

Lemma labels_nonempty_nil : labels_nonempty [].
Proof. intros a Ha. by apply elem_of_nil in Ha. Qed.

Lemma singleton_nonempty (n : Z) : ({[n]} : fset) ≠ ∅.
Proof. set_solver. Qed.

Lemma SearchSpaceNode_eq_hash_consistent_witness :
  let x := mkNode (add_node {[3]} (add_edge {[1]} {[2]} [])) in
  let y := mkNode (add_edge {[2]} {[1]} (add_node {[4]} [])) in
  SearchSpaceNode_eq x y = true ∧
  ∃ h, SearchSpaceNode_hash (λ k, Z.of_nat (length k)) x = Ok h ∧
       SearchSpaceNode_hash (λ k, Z.of_nat (length k)) y = Ok h.
Proof.
  intros x y.
  assert (Hx : node_ok x).
  { split.
    - apply graph_wf_add_node, graph_wf_add_edge, graph_wf_nil.
    - apply labels_nonempty_add_node; [apply singleton_nonempty|].
      apply labels_nonempty_add_edge;
        [apply singleton_nonempty..|apply labels_nonempty_nil]. }
  assert (Hy : node_ok y).
  { split.
    - apply graph_wf_add_edge, graph_wf_add_node, graph_wf_nil.
    - apply labels_nonempty_add_edge; [apply singleton_nonempty..|].
      apply labels_nonempty_add_node;
        [apply singleton_nonempty|apply labels_nonempty_nil]. }
  destruct (SearchSpaceNode_eq_hash_consistent (λ k, Z.of_nat (length k)) x y Hx Hy)
    as [Heq Hhash].
  assert (Hsame : same_edge_set (_graph x) (_graph y)).
  { intros a b.
    change (edges (_graph x)) with [(({[1]} : fset), ({[2]} : fset))].
    change (edges (_graph y)) with [(({[2]} : fset), ({[1]} : fset))].
    rewrite !list_elem_of_singleton. split; intros [[= -> ->]|[= -> ->]]; auto. }
  split; [by apply Heq|]. by apply Hhash, Heq.
Defined.

(** ** The state monad *)

Lemma bind_Ok {S A B} (m : M S A) (k : A → M S B) s a s' :
  m s = (Ok a, s') → bind m k s = k a s'.
Proof. unfold bind. by intros ->. Qed.

Lemma bind_Raise {S A B} (m : M S A) (k : A → M S B) s e s' :
  m s = (Raise e, s') → bind m k s = (Raise e, s').
Proof. unfold bind. by intros ->. Qed.

Lemma forM__app {S A} (l1 l2 : list A) (f : A → M S unit) s :
  forM_ (l1 ++ l2) f s = (let! _ := forM_ l1 f in forM_ l2 f) s.
Proof.
  revert s. induction l1 as [|x l1 IH]; intros s; simpl; [done|].
  unfold bind. destruct (f x s) as [[[]| |] s']; try done.
Qed.

Lemma forM__bind {S A B} (l : list A) (g : A → list B) (f : B → M S unit) s :
  forM_ l (λ x, forM_ (g x) f) s = forM_ (l ≫= g) f s.
Proof.
  revert s. induction l as [|x l IH]; intros s; [done|].
  change ((x :: l) ≫= g) with (g x ++ (l ≫= g)).
  rewrite forM__app. simpl. unfold bind.
  destruct (forM_ (g x) f s) as [[[]| |] s']; try done.
Qed.

(** ** Insertion into a set of partition nodes *)

Section PysetFacts.
Variable py_hash : list (list fset) → Z.

Lemma pyset_ok_nil : pyset_ok py_hash [].
Proof. intros p Hp. by apply elem_of_nil in Hp. Qed.

(** With well-formed nodes the hash test of [set.add] is implied by
    [__eq__]: the set is deduplicated by [__eq__] alone. *)
Lemma pyset_add_pure c s :
  node_ok c → pyset_ok py_hash s →
  ∃ s', pyset_add py_hash c s = Ok s' ∧ pyset_ok py_hash s' ∧
        s'.*2 = insert_node s.*2 c.
Proof.
  intros Hc Hs. unfold pyset_add, SearchSpaceNode_hash.
  rewrite hash_key_pure by done. simpl.
  assert (Hex : existsb (λ p : Z * SearchSpaceNode,
                  (p.1 =? py_hash (canonical_key (_graph c))) && SearchSpaceNode_eq p.2 c) s
                = existsb (λ y, SearchSpaceNode_eq y c) s.*2).
  { induction s as [|p s IH]; [reflexivity|]. simpl.
    rewrite IH by (intros q Hq; apply Hs; by right). f_equal.
    destruct (Hs p) as [Hp Hh]; [by left|].
    destruct (SearchSpaceNode_eq p.2 c) eqn:Heq; [|by rewrite andb_false_r].
    rewrite andb_true_r.
    apply SearchSpaceNode_eq_key in Heq; [|done..].
    rewrite Hh, Heq. apply Z.eqb_refl. }
  rewrite Hex. unfold insert_node.
  destruct (existsb _ s.*2).
  - by exists s.
  - eexists. split; [done|]. split; [|by rewrite fmap_app].
    intros p Hp. apply elem_of_app in Hp as [Hp|Hp]; [by apply Hs|].
    apply list_elem_of_singleton in Hp as ->. done.
Qed.
End PysetFacts.

Lemma insert_node_elem s c y : y ∈ insert_node s c → y ∈ s ∨ y = c.
Proof.
  unfold insert_node. destruct (existsb _ s); [by left|].
  rewrite elem_of_app, list_elem_of_singleton. tauto.
Qed.

Lemma insert_node_incl s c y : y ∈ s → y ∈ insert_node s c.
Proof.
  unfold insert_node. destruct (existsb _ s); [done|]. intros. apply elem_of_app. by left.
Qed.

Lemma insert_node_found s c :
  ∃ y, y ∈ insert_node s c ∧ SearchSpaceNode_eq y c = true ∨
       (y = c ∧ c ∈ insert_node s c).
Proof.
  unfold insert_node. destruct (existsb _ s) eqn:Hex.
  - apply existsb_exists in Hex as (y & Hy & Heq). exists y. left.
    split; [by apply list_elem_of_In|done].
  - exists c. right. split; [done|]. apply elem_of_app. right. by left.
Qed.

Lemma foldl_insert_node_elem cs s y :
  y ∈ foldl insert_node s cs → y ∈ s ∨ y ∈ cs.
Proof.
  revert s. induction cs as [|c cs IH]; intros s; simpl; [by left|].
  intros Hy. apply IH in Hy as [Hy|Hy]; [|right; by right].
  apply insert_node_elem in Hy as [?| ->]; [by left|right; by left].
Qed.

Lemma foldl_insert_node_incl cs s y : y ∈ s → y ∈ foldl insert_node s cs.
Proof.
  revert s. induction cs as [|c cs IH]; intros s; simpl; [done|].
  intros Hy. by apply IH, insert_node_incl.
Qed.

(** ** Levels in the store *)

Section LevelFacts.
Variable py_hash : list (list fset) → Z.

Lemma get_level_Some a (h : heap) lv : h !! a = Some lv → get_level a h = (Ok lv, h).
Proof. unfold get_level. by intros ->. Qed.

Lemma level_add_node_spec a (h : heap) lv s c :
  h !! a = Some lv → _nodes lv = Some s → node_ok c → pyset_ok py_hash s →
  ∃ s', level_add_node py_hash a c h = (Ok tt, <[a := with_nodes lv s']> h) ∧
        pyset_ok py_hash s' ∧ s'.*2 = insert_node s.*2 c.
Proof.
  intros Ha Hs Hc Hok.
  destruct (pyset_add_pure py_hash c s Hc Hok) as (s' & Hadd & Hok' & Hs').
  exists s'. split; [|done].
  unfold level_add_node. rewrite (bind_Ok _ _ _ _ _ (get_level_Some _ _ _ Ha)).
  rewrite Hs. unfold bind, lift_res. by rewrite Hadd.
Qed.

Lemma add_children_spec a rs (h : heap) lv s :
  h !! a = Some lv → _nodes lv = Some s → pyset_ok py_hash s →
  (∀ r, r ∈ rs → ∃ c, r = Ok c ∧ node_ok c) →
  ∃ s', forM_ rs (λ r, let! new_node := lift_res r in
                       level_add_node py_hash a new_node) h
        = (Ok tt, <[a := with_nodes lv s']> h) ∧
        pyset_ok py_hash s' ∧ s'.*2 = foldl insert_node s.*2 (omap ok_result rs).
Proof.
  revert h lv s. induction rs as [|r rs IH]; intros h lv s Ha Hs Hok Hrs.
  - exists s. split; [|done]. simpl. unfold ret. f_equal.
    symmetry. apply list_insert_id. rewrite Ha. f_equal.
    destruct lv; simpl in *; by subst.
  - destruct (Hrs r) as (c & -> & Hc); [by left|].
    destruct (level_add_node_spec a h lv s c Ha Hs Hc Hok) as (s1 & Hadd & Hok1 & Hs1).
    assert (Hlen : (a < length h)%nat) by (by eapply lookup_lt_Some).
    destruct (IH (<[a := with_nodes lv s1]> h) (with_nodes lv s1) s1)
      as (s' & Hloop & Hok' & Hs').
    + by apply list_lookup_insert_eq.
    + done.
    + done.
    + intros r' Hr'. apply Hrs. by right.
    + exists s'. split; [|split; [done|]].
      * simpl. unfold bind at 1. unfold bind at 1. unfold lift_res at 1.
        rewrite Hadd. rewrite Hloop. by rewrite list_insert_insert_eq.
      * simpl. by rewrite Hs', Hs1.
Qed.

(** [expand] on a level whose nodes are well formed and expand without
    exception: the next level is allocated at the end of the store and
    holds the deduplicated children. *)
Lemma SearchSpaceLevel_expand_spec a (h : heap) lv s :
  h !! a = Some lv → _next lv = None → _nodes lv = Some s →
  pyset_ok py_hash s → expands_ok s.*2 →
  ∃ s', SearchSpaceLevel_expand py_hash a h
        = (Ok (length h),
           <[a := with_next lv (length h)]> h
             ++ [mkLevel None (Some a) (_level lv + 1) None (Some s')]) ∧
        pyset_ok py_hash s' ∧ s'.*2 = next_nodes s.*2.
Proof.
  intros Ha Hnext Hs Hok Hexp.
  assert (Hlen : (a < length h)%nat) by (by eapply lookup_lt_Some).
  set (new := mkLevel None (Some a) (_level lv + 1) None (Some [])).
  set (h1 := <[a := with_next lv (length h)]> h ++ [new]).
  assert (Hnew : h1 !! length h = Some new).
  { unfold h1. rewrite lookup_app_r by (by rewrite length_insert).
    by rewrite length_insert, Nat.sub_diag. }
  destruct (add_children_spec (length h) (s ≫= λ p, SearchSpaceNode_expand p.2)
              h1 new [] Hnew eq_refl (pyset_ok_nil py_hash))
    as (s' & Hloop & Hok' & Hs').
  { intros r Hr. apply list_elem_of_bind in Hr as (p & Hr & Hp).
    destruct (Hok p Hp) as [Hnode _].
    destruct (Hexp p.2 r) as (c & ->); [by apply list_elem_of_fmap_2|done|].
    destruct (SearchSpaceNode_expand_cases p.2 (Ok c) Hnode Hr) as [?|(c' & [= <-] & ?)];
      [done|by exists c]. }
  exists s'. split; [|split; [done|]].
  - unfold SearchSpaceLevel_expand.
    rewrite (bind_Ok _ _ _ _ _ (get_level_Some _ _ _ Ha)). rewrite Hnext.
    unfold SearchSpaceLevel_init. simpl.
    unfold bind at 1. unfold bind at 1.
    rewrite (get_level_Some _ _ _ Ha). unfold alloc_level.
    unfold bind at 1. unfold put_level. rewrite Hs.
    unfold bind at 1.
    rewrite (forM__bind s (λ p, SearchSpaceNode_expand p.2)).
    replace (<[a:=mkLevel (Some (length h)) (_previous lv) (_level lv)
                   (_num_partitions lv) (Some s)]> (h ++ [new])) with h1.
    2:{ unfold h1. rewrite insert_app_l by done. do 3 f_equal.
        unfold with_next. by rewrite Hs. }
    rewrite Hloop. unfold ret. f_equal. unfold h1.
    rewrite insert_app_r_alt by (by rewrite length_insert).
    rewrite length_insert, Nat.sub_diag. done.
  - rewrite Hs'. unfold next_nodes. simpl. f_equal.
    clear. induction s as [|p s IH]; [done|].
    change ((p :: s) ≫= λ p, SearchSpaceNode_expand p.2)
      with (SearchSpaceNode_expand p.2 ++ (s ≫= λ p, SearchSpaceNode_expand p.2)).
    rewrite omap_app, IH. done.
Qed.

Lemma SearchSpaceLevel_expand_twice a (h : heap) lv n :
  h !! a = Some lv → _next lv = Some n →
  SearchSpaceLevel_expand py_hash a h = (Raise (ValueError "Already expanded"), h).
Proof.
  intros Ha Hn. unfold SearchSpaceLevel_expand.
  rewrite (bind_Ok _ _ _ _ _ (get_level_Some _ _ _ Ha)). by rewrite Hn.
Qed.
End LevelFacts.

Lemma num_partitions_nodes a (h : heap) lv s :
  h !! a = Some lv → _num_partitions lv = None → _nodes lv = Some s →
  num_partitions a h = (Ok (length s), h).
Proof.
  intros Ha Hn Hs. unfold num_partitions.
  rewrite (bind_Ok _ _ _ _ _ (get_level_Some _ _ _ Ha)). by rewrite Hn, Hs.
Qed.

Lemma num_partitions_recorded a (h : heap) lv k :
  h !! a = Some lv → _num_partitions lv = Some k →
  num_partitions a h = (Ok k, h).
Proof.
  intros Ha Hn. unfold num_partitions.
  rewrite (bind_Ok _ _ _ _ _ (get_level_Some _ _ _ Ha)). by rewrite Hn.
Qed.

Lemma SearchSpaceLevel_compress_spec a (h : heap) lv :
  h !! a = Some lv →
  SearchSpaceLevel_compress a h = (Ok tt, <[a := compressed lv]> h).
Proof.
  intros Ha. unfold SearchSpaceLevel_compress, compressed.
  rewrite (bind_Ok _ _ _ _ _ (get_level_Some _ _ _ Ha)).
  destruct (_nodes lv); [done|]. unfold ret. by rewrite list_insert_id.
Qed.

(** ** Compression *)

Lemma level_consistent_compressed lv : level_consistent lv → level_consistent (compressed lv).
Proof.
  unfold level_consistent, compressed.
  destruct (_nodes lv) eqn:Hn, (_num_partitions lv) eqn:Hk; simpl; try done.
  by rewrite Hn.
Qed.

Lemma level_consistent_with_nodes lv s :
  _num_partitions lv = None → level_consistent (with_nodes lv s).
Proof. unfold level_consistent, with_nodes. simpl. by intros ->. Qed.

Lemma level_consistent_with_next lv n :
  level_consistent lv → level_consistent (with_next lv n).
Proof. done. Qed.

Lemma compressed_idem lv : compressed (compressed lv) = compressed lv.
Proof. unfold compressed. by destruct (_nodes lv) eqn:Hn; simpl; rewrite ?Hn. Qed.

(** C5: on every level, compressed or not, [compress] succeeds and
    [num_partitions] reads the same count after it as before; a second
    [compress] succeeds as well and changes nothing. *)
Theorem compress_keeps_num_partitions (h : heap) (a : nat) (lv : SearchSpaceLevel) :
  h !! a = Some lv → level_consistent lv →
  ∃ k h', num_partitions a h = (Ok k, h) ∧
          SearchSpaceLevel_compress a h = (Ok tt, h') ∧
          num_partitions a h' = (Ok k, h') ∧
          SearchSpaceLevel_compress a h' = (Ok tt, h').
Proof.
  intros Ha Hc.
  assert (Hlen : (a < length h)%nat) by (by eapply lookup_lt_Some).
  assert (Ha' : <[a := compressed lv]> h !! a = Some (compressed lv))
    by (by apply list_lookup_insert_eq).
  unfold level_consistent in Hc.
  destruct (_nodes lv) as [s|] eqn:Hs, (_num_partitions lv) as [k|] eqn:Hk; try done.
  - exists (length s), (<[a := compressed lv]> h).
    split; [by eapply num_partitions_nodes|].
    split; [by apply SearchSpaceLevel_compress_spec|].
    split.
    + eapply num_partitions_recorded; [done|]. unfold compressed. by rewrite Hs.
    + rewrite (SearchSpaceLevel_compress_spec _ _ _ Ha').
      by rewrite compressed_idem, list_insert_insert_eq.
  - exists k, (<[a := compressed lv]> h).
    split; [by eapply num_partitions_recorded|].
    split; [by apply SearchSpaceLevel_compress_spec|].
    split.
    + eapply num_partitions_recorded; [done|]. unfold compressed. by rewrite Hs.
    + rewrite (SearchSpaceLevel_compress_spec _ _ _ Ha').
      by rewrite compressed_idem, list_insert_insert_eq.
Qed.

Lemma compress_keeps_num_partitions_witness :
  let lv := mkLevel None None 0 None (Some [(0, mkNode []); (1, mkNode [])]) in
  ∃ k h', num_partitions 0 [lv] = (Ok k, [lv]) ∧
          SearchSpaceLevel_compress 0 [lv] = (Ok tt, h') ∧
          num_partitions 0 h' = (Ok k, h') ∧
          SearchSpaceLevel_compress 0 h' = (Ok tt, h').
Proof.
  intros lv. apply (compress_keeps_num_partitions [lv] 0 lv); [reflexivity|exact I].
Defined.

(** ** The argument check of the level constructor *)

Lemma pyset_add_root py_hash x :
  node_ok x → ∃ s, pyset_add py_hash x [] = Ok s ∧ pyset_ok py_hash s ∧ s.*2 = [x].
Proof.
  intros Hx. destruct (pyset_add_pure py_hash x [] Hx (pyset_ok_nil _)) as (s & ? & ? & ?).
  by exists s.
Qed.

Lemma SearchSpaceLevel_init_graph py_hash (g : Graph Z) (h : heap) :
  order g ≠ 0%nat →
  ∃ root s, SearchSpaceNode_init g = Ok root ∧ pyset_ok py_hash s ∧ s.*2 = [root] ∧
            SearchSpaceLevel_init py_hash (Some g) None h
            = (Ok (length h), h ++ [mkLevel None None 0 None (Some s)]).
Proof.
  intros Hg. destruct (SearchSpaceNode_init_int g) as (root & Hroot & Hok & _).
  destruct (pyset_add_root py_hash root Hok) as (s & Hadd & Hs & Hs2).
  exists root, s. split; [done|]. split; [done|]. split; [done|].
  unfold SearchSpaceLevel_init, truthy_graph.
  destruct (order g =? 0)%nat eqn:Ho; [by apply Nat.eqb_eq in Ho|]. simpl.
  unfold bind, lift_res. rewrite Hroot, Hadd. done.
Qed.

(** C10: a graph argument without nodes counts as no graph at all, so the
    constructor raises "Either graph or previous needed"; with a graph that
    has a node, exactly one of [graph] and [previous] is accepted, both or
    neither raise. *)
Theorem SearchSpaceLevel_init_argument_check
    (py_hash : list (list fset) → Z) (g : Graph Z) (h : heap) :
  (order g = 0%nat →
   SearchSpaceLevel_init py_hash (Some g) None h
   = (Raise (ValueError "Either graph or previous needed"), h)) ∧
  (order g ≠ 0%nat →
   ∃ lv, SearchSpaceLevel_init py_hash (Some g) None h = (Ok (length h), h ++ [lv])) ∧
  (∀ p prev, h !! p = Some prev →
   ∃ lv, SearchSpaceLevel_init py_hash None (Some p) h = (Ok (length h), h ++ [lv])) ∧
  (order g ≠ 0%nat → ∀ p,
   SearchSpaceLevel_init py_hash (Some g) (Some p) h
   = (Raise (ValueError "Only one of graph and previous allowed"), h)) ∧
  SearchSpaceLevel_init py_hash None None h
  = (Raise (ValueError "Either graph or previous needed"), h).
Proof.
  split; [|split; [|split; [|split]]].
  - intros Hg. unfold SearchSpaceLevel_init, truthy_graph. by rewrite Hg.
  - intros Hg. destruct (SearchSpaceLevel_init_graph py_hash g h Hg)
      as (root & s & _ & _ & _ & Hinit). by eexists.
  - intros p prev Hp. unfold SearchSpaceLevel_init. simpl.
    rewrite (bind_Ok _ _ _ _ _ (get_level_Some _ _ _ Hp)). by eexists.
  - intros Hg p. unfold SearchSpaceLevel_init, truthy_graph.
    by destruct (order g =? 0)%nat eqn:Ho; [apply Nat.eqb_eq in Ho|].
  - done.
Qed.

Lemma SearchSpaceLevel_init_argument_check_witness :
  SearchSpaceLevel_init const_hash (Some []) None []
  = (Raise (ValueError "Either graph or previous needed"), []) ∧
  ∃ lv, SearchSpaceLevel_init const_hash (Some (add_node 1 [])) None [] = (Ok 0%nat, [lv]).
Proof.
  split.
  - apply (proj1 (SearchSpaceLevel_init_argument_check const_hash [] [])). reflexivity.
  - apply (proj1 (proj2 (SearchSpaceLevel_init_argument_check const_hash (add_node 1 []) []))).
    discriminate.
Defined.

(** ** Queries on compressed levels *)



(** ** What [print_results] can raise *)


Section SortOutcome.
Context {A : Type} (lt : A → A → res bool) (e0 : exn).
Hypothesis Hlt : ∀ x y, (∃ b, lt x y = Ok b) ∨ lt x y = Raise e0.



End SortOutcome.


Lemma SearchSpaceNode_str_ok x :
  node_ok x → SearchSpaceNode_str x = Ok (node_labels x).
Proof.
  intros [_ Hne]. unfold SearchSpaceNode_str, node_labels.
  apply sorted_pure. intros a b Ha Hb. apply fset_lt_pure; by apply Hne.
Qed.

Lemma str_nodes_ok ns :
  (∀ x, x ∈ ns → node_ok x) → str_nodes ns = Ok (node_labels <$> ns).
Proof.
  induction ns as [|x ns IH]; intros Hok; simpl; [done|].
  rewrite SearchSpaceNode_str_ok by (apply Hok; left). simpl.
  rewrite IH; [done|]. intros y Hy. apply Hok. by right.
Qed.

(** One turn of the loop of [print_results] over the levels. *)
Lemma print_levels_step it self print_nodes a ls (h : heap) lv k :
  h !! a = Some lv → num_partitions a h = (Ok k, h) →
  print_levels it self print_nodes (a :: ls) h
  = (let! dump := match _nodes lv with
                  | Some ((_ :: _) as s) =>
                      if print_nodes
                      then (let! ts := lift_res (str_nodes (it s).*2) in
                            ret [PartitionsLine ts])
                      else ret []
                  | _ => ret []
                  end in
     let! rest := print_levels it self print_nodes ls in
     ret (LevelLine (_level lv) (Z.of_nat (num_nodes self) - Z.of_nat (_level lv))
                    (stirling self (Z.of_nat (_level lv))) k :: dump ++ rest)) h.
Proof.
  intros Ha Hk. cbn [print_levels]. unfold level, level_nodes.
  rewrite (bind_Ok _ _ _ _ _ (bind_Ok _ _ _ _ _ (get_level_Some _ _ _ Ha))).
  unfold ret at 1. rewrite (bind_Ok _ _ _ _ _ Hk).
  rewrite (bind_Ok _ _ _ _ _ (bind_Ok _ _ _ _ _ (get_level_Some _ _ _ Ha))).
  reflexivity.
Qed.








(** ** The loop of [build] *)

Lemma py_index_last {A} (l : list A) x : py_index (l ++ [x]) (-1) = Ok x.
Proof.
  unfold py_index. simpl. rewrite length_app. simpl.
  replace (Z.of_nat (length l + 1) + -1) with (Z.of_nat (length l)) by lia.
  destruct (Z.of_nat (length l) <? 0) eqn:Hn; [apply Z.ltb_lt in Hn; lia|].
  rewrite Nat2Z.id, lookup_app_r by done. by rewrite Nat.sub_diag.
Qed.

Lemma py_index_last2 {A} (l : list A) x y : py_index (l ++ [x; y]) (-2) = Ok x.
Proof.
  unfold py_index. simpl. rewrite length_app. simpl.
  replace (Z.of_nat (length l + 2) + -2) with (Z.of_nat (length l)) by lia.
  destruct (Z.of_nat (length l) <? 0) eqn:Hn; [apply Z.ltb_lt in Hn; lia|].
  rewrite Nat2Z.id, lookup_app_r by done. by rewrite Nat.sub_diag.
Qed.

Lemma seq_snoc b n : seq b (S n) = seq b n ++ [(b + n)%nat].
Proof. by rewrite seq_S. Qed.

Lemma level_pure_S g j : level_pure g (S j) = next_nodes (level_pure g j).
Proof.
  unfold level_pure. by destruct (SearchSpaceNode_init g).
Qed.

Lemma on_heap_run {A} (m : M heap A) l (h : heap) r h' :
  m h = (r, h') → on_heap m (mkWorld l h) = (r, mkWorld l h').
Proof. unfold on_heap. simpl. by intros ->. Qed.

Lemma get_levels_run ls (h : heap) :
  get_levels (mkWorld (Some ls) h) = (Ok ls, mkWorld (Some ls) h).
Proof. done. Qed.

Lemma set_levels_run ls l (h : heap) :
  set_levels ls (mkWorld l h) = (Ok tt, mkWorld (Some ls) h).
Proof. done. Qed.

Lemma bind_lift_Ok {S A B} (a : A) (k : A → M S B) s :
  bind (lift_res (Ok a)) k s = k a s.
Proof. done. Qed.

Lemma bind_ret {S A B} (a : A) (k : A → M S B) s : bind (ret a) k s = k a s.
Proof. done. Qed.

Section BuildFacts.
Variable py_hash : list (list fset) → Z.
Variables (g : Graph Z) (c : bool) (h0 : heap).

(** Expanding the open level [j], then compressing it when the search
    space compresses. *)
Lemma heap_inv_step j (h : heap) :
  heap_inv py_hash g c h0 j h → expands_ok (level_pure g j) →
  ∃ h1 h2,
    SearchSpaceLevel_expand py_hash (length h0 + j) h = (Ok (length h0 + S j)%nat, h1) ∧
    (if c then SearchSpaceLevel_compress (length h0 + j) h1 = (Ok tt, h2) else h2 = h1) ∧
    heap_inv py_hash g c h0 (S j) h2.
Proof.
  intros (Hlen & Htake & Hdone & lv & Hlv & Hj & Hnext & Hnp & s & Hs & Hok & Hs2) Hexp.
  rewrite <- Hs2 in Hexp.
  destruct (SearchSpaceLevel_expand_spec py_hash _ h lv s Hlv Hnext Hs Hok Hexp)
    as (s' & Hexpand & Hok' & Hs').
  set (b := length h0) in *.
  set (lv1 := with_next lv (length h)) in *.
  set (new := mkLevel None (Some (b + j)%nat) (_level lv + 1) None (Some s')) in *.
  set (h1 := <[(b + j)%nat := lv1]> h ++ [new]) in *.
  assert (Hbj : (b + j < length h)%nat) by lia.
  assert (Hlv1 : h1 !! (b + j)%nat = Some lv1).
  { unfold h1. rewrite lookup_app_l by (rewrite length_insert; lia).
    by apply list_lookup_insert_eq. }
  set (lv2 := if c then compressed lv1 else lv1).
  set (h2 := <[(b + j)%nat := lv2]> h1).
  exists h1, h2. split; [|split].
  - rewrite Hexpand. do 2 f_equal. lia.
  - unfold h2, lv2. destruct c.
    + by apply SearchSpaceLevel_compress_spec.
    + by apply list_insert_id.
  - assert (Hlen1 : length h1 = (b + S (S j))%nat).
    { unfold h1. rewrite length_app, length_insert. simpl. lia. }
    split; [unfold h2; by rewrite length_insert|]. split; [|split].
    + unfold h2, h1. rewrite take_insert_ge by lia.
      rewrite take_app_le by (rewrite length_insert; lia).
      by rewrite take_insert_ge by lia.
    + intros i Hi. destruct (decide (i = j)) as [->|Hne].
      * exists lv2. split.
        { unfold h2. apply list_lookup_insert_eq. lia. }
        unfold lv2, level_done.
        split; [destruct c; unfold compressed, lv1, with_next; simpl; rewrite ?Hs; done|].
        destruct c.
        -- unfold compressed, lv1, with_next. simpl. rewrite Hs. simpl.
           split; [done|]. by rewrite <- Hs2, length_fmap.
        -- exists s. by rewrite <- Hs2.
      * destruct (Hdone i) as (lvi & Hlvi & Hdi); [lia|].
        exists lvi. split; [|done].
        unfold h2, h1. rewrite list_lookup_insert_ne by lia.
        rewrite lookup_app_l by (rewrite length_insert; lia).
        by rewrite list_lookup_insert_ne by lia.
    + exists new. split.
      * unfold h2. rewrite list_lookup_insert_ne by lia.
        unfold h1. rewrite lookup_app_r by (rewrite length_insert; lia).
        rewrite length_insert.
        replace (length h0 + S j - length h)%nat with 0%nat by (unfold b in *; lia). done.
      * split; [simpl; lia|]. split; [done|]. split; [done|].
        exists s'. split; [done|]. split; [done|].
        by rewrite level_pure_S, <- Hs2.
Qed.

Lemma heap_inv_num_partitions j (h : heap) :
  heap_inv py_hash g c h0 j h →
  num_partitions (length h0 + j) h = (Ok (length (level_pure g j)), h).
Proof.
  intros (_ & _ & _ & lv & Hlv & _ & _ & Hnp & s & Hs & _ & Hs2).
  rewrite <- Hs2, length_fmap. by eapply num_partitions_nodes.
Qed.

Lemma build_loop_unfold fuel :
  build_loop py_hash fuel c =
  (let! ls := get_levels in
   let! last := lift_res (py_index ls (-1)) in
   let! np := on_heap (num_partitions last) in
   if (1 <? np)%nat then
     match fuel with
     | O => timeout
     | S fuel' =>
         let! new_level := on_heap (SearchSpaceLevel_expand py_hash last) in
         let! _ := set_levels (ls ++ [new_level]) in
         let! _ := (if c
                    then let! ls' := get_levels in
                         let! l2 := lift_res (py_index ls' (-2)) in
                         on_heap (SearchSpaceLevel_compress l2)
                    else ret tt) in
         build_loop py_hash fuel' c
     end
   else ret tt).
Proof. by destruct fuel. Qed.

Lemma build_loop_spec m :
  levels_shape g m →
  ∀ fuel j w,
    (1 ≤ j)%nat → (j < m)%nat → (m - 1 - j ≤ fuel)%nat →
    build_inv py_hash g c h0 j w →
    ∃ w', build_loop py_hash fuel c w = (Ok tt, w') ∧
          build_inv py_hash g c h0 (m - 1) w'.
Proof.
  intros (Hexp & Hmany & Hlast) fuel.
  induction fuel as [|fuel IH]; intros j w Hj Hjm Hfuel [Hlevels Hheap];
    destruct w as [lvls h]; cbn [_levels w_heap] in Hlevels, Hheap; subst lvls;
    rewrite build_loop_unfold;
    rewrite (bind_Ok _ _ _ _ _ (get_levels_run _ _));
    rewrite seq_snoc, py_index_last, bind_lift_Ok;
    rewrite (bind_Ok _ _ _ _ _ (on_heap_run _ _ _ _ _ (heap_inv_num_partitions _ _ Hheap)));
    rewrite <- seq_snoc.
  - assert (j = (m - 1)%nat) as -> by lia.
    destruct (1 <? _)%nat eqn:Hlt; [apply Nat.ltb_lt in Hlt; lia|].
    eexists. split; [done|]. by split.
  - destruct (1 <? _)%nat eqn:Hlt.
    + apply Nat.ltb_lt in Hlt.
      assert (Hjm' : (S j < m)%nat).
      { destruct (decide (j = m - 1)%nat) as [->|]; lia. }
      destruct (heap_inv_step j h Hheap (Hexp j Hjm')) as (h1 & h2 & Hex & Hcomp & Hinv).
      rewrite (bind_Ok _ _ _ _ _ (on_heap_run _ _ _ _ _ Hex)).
      rewrite (bind_Ok _ _ _ _ _ (set_levels_run _ _ _)).
      rewrite <- (seq_snoc _ (S j)).
      assert (Hrest : (if c
               then let! ls' := get_levels in
                    let! l2 := lift_res (py_index ls' (-2)) in
                    on_heap (SearchSpaceLevel_compress l2)
               else ret tt) (mkWorld (Some (seq (length h0) (S (S j)))) h1)
              = (Ok tt, mkWorld (Some (seq (length h0) (S (S j)))) h2)).
      { destruct c.
        - rewrite (bind_Ok _ _ _ _ _ (get_levels_run _ _)).
          rewrite (seq_snoc _ (S j)), (seq_snoc _ j), <- app_assoc. simpl app.
          rewrite py_index_last2, bind_lift_Ok.
          by rewrite (on_heap_run _ _ _ _ _ Hcomp).
        - by subst h2. }
      rewrite (bind_Ok _ _ _ _ _ Hrest).
      apply (IH (S j)); [lia..|]. by split.
    + apply Nat.ltb_ge in Hlt.
      destruct (decide (S j < m)%nat) as [Hlt'|Hge].
      * specialize (Hmany j Hj Hlt'). lia.
      * assert (j = (m - 1)%nat) as -> by lia.
        eexists. split; [done|]. by split.
Qed.
End BuildFacts.

(** ** [build] as a whole *)

Section BuildSpec.
Variable py_hash : list (list fset) → Z.
Variables (g : Graph Z) (c : bool).

Lemma heap_inv_init (h0 : heap) :
  order g ≠ 0%nat →
  ∃ h, SearchSpaceLevel_init py_hash (Some g) None h0 = (Ok (length h0), h) ∧
       heap_inv py_hash g c h0 0 h.
Proof.
  intros Hg.
  destruct (SearchSpaceLevel_init_graph py_hash g h0 Hg)
    as (root & s & Hroot & Hok & Hs & Hinit).
  eexists. split; [exact Hinit|].
  split; [rewrite length_app; simpl; lia|].
  split; [by rewrite take_app_length|].
  split; [intros i Hi; lia|].
  eexists. split.
  - rewrite Nat.add_0_r. rewrite lookup_app_r by done. by rewrite Nat.sub_diag.
  - split; [done|]. split; [done|]. split; [done|].
    exists s. split; [done|]. split; [done|].
    unfold level_pure. by rewrite Hroot.
Qed.

Lemma heap_inv_finish (h0 : heap) j (h : heap) :
  heap_inv py_hash g c h0 j h →
  ∃ h', (if c then SearchSpaceLevel_compress (length h0 + j) h = (Ok tt, h') else h' = h) ∧
        length h' = (length h0 + S j)%nat ∧ take (length h0) h' = h0 ∧
        ∀ i, (i < S j)%nat →
             ∃ lv, h' !! (length h0 + i)%nat = Some lv ∧
                   level_done c (level_pure g i) i lv.
Proof.
  intros (Hlen & Htake & Hdone & lv & Hlv & Hj & Hnext & Hnp & s & Hs & Hok & Hs2).
  set (lv' := if c then compressed lv else lv).
  exists (<[(length h0 + j)%nat := lv']> h). split; [|split; [|split]].
  - unfold lv'. destruct c.
    + by apply SearchSpaceLevel_compress_spec.
    + by apply list_insert_id.
  - by rewrite length_insert.
  - by rewrite take_insert_ge by lia.
  - intros i Hi. destruct (decide (i = j)) as [->|Hne].
    + exists lv'. split; [apply list_lookup_insert_eq; lia|].
      unfold lv', level_done. destruct c.
      * unfold compressed. rewrite Hs. simpl.
        split; [done|]. split; [done|]. by rewrite <- Hs2, length_fmap.
      * split; [done|]. by exists s.
    + destruct (Hdone i) as (lvi & Hlvi & Hdi); [lia|].
      exists lvi. split; [|done]. by rewrite list_lookup_insert_ne by lia.
Qed.

(** When the levels of [g] have the shape of an [m]-level search space,
    [build] returns [m] fresh levels, each with the partition nodes (or,
    compressed, the count) of its level, and leaves the objects that
    were in the store before untouched. *)
Lemma SearchSpace_build_spec (w : world) m :
  order g ≠ 0%nat → levels_shape g m → (2 ≤ m)%nat → (m - 2 ≤ order g)%nat →
  ∃ w', SearchSpace_build py_hash (mkSpace g c) w
        = (Ok (seq (length (w_heap w)) m), w') ∧
        build_done g c (w_heap w) m w'.
Proof.
  intros Hg Hshape Hm Hfuel. destruct w as [lvls h0]. simpl.
  destruct (heap_inv_init h0 Hg) as (h & Hinit & Hinv0).
  pose proof Hshape as (Hexp & _ & _).
  destruct (heap_inv_step py_hash g c h0 0 h Hinv0 (Hexp 0%nat ltac:(lia)))
    as (h1 & h2 & Hex & Hcomp & Hinv1).
  rewrite Nat.add_0_r in Hex, Hcomp.
  unfold SearchSpace_build. cbn [ss_graph ss_compress].
  rewrite (bind_Ok _ _ _ _ _ (on_heap_run _ _ _ _ _ Hinit)).
  rewrite (bind_Ok _ _ _ _ _ (on_heap_run _ _ _ _ _ Hex)).
  rewrite (bind_Ok _ _ _ _ _ (set_levels_run _ _ _)).
  assert (Hc1 : (if c then on_heap (SearchSpaceLevel_compress (length h0)) else ret tt)
                  (mkWorld (Some [length h0; (length h0 + 1)%nat]) h1)
                = (Ok tt, mkWorld (Some (seq (length h0) 2)) h2)).
  { replace (length h0 + 1)%nat with (S (length h0)) by lia. destruct c.
    - by rewrite (on_heap_run _ _ _ _ _ Hcomp).
    - by subst h2. }
  rewrite (bind_Ok _ _ _ _ _ Hc1).
  destruct (build_loop_spec py_hash g c h0 m Hshape (order g) 1
              (mkWorld (Some (seq (length h0) 2)) h2))
    as ([lvls3 h3] & Hloop & Hlv3 & Hinv3); [lia..|by split|].
  cbn [_levels w_heap] in Hlv3, Hinv3. subst lvls3.
  rewrite (bind_Ok _ _ _ _ _ Hloop).
  destruct (heap_inv_finish h0 (m - 1) h3 Hinv3) as (h4 & Hfin & Hlen4 & Htake4 & Hdone4).
  replace (S (m - 1)) with m in * by lia.
  assert (Hc2 : (if c
                 then let! ls := get_levels in
                      let! l1 := lift_res (py_index ls (-1)) in
                      on_heap (SearchSpaceLevel_compress l1)
                 else ret tt) (mkWorld (Some (seq (length h0) m)) h3)
                = (Ok tt, mkWorld (Some (seq (length h0) m)) h4)).
  { destruct c.
    - rewrite (bind_Ok _ _ _ _ _ (get_levels_run _ _)).
      replace m with (S (m - 1)) at 1 by lia.
      rewrite seq_snoc, py_index_last, bind_lift_Ok.
      rewrite (on_heap_run _ _ _ _ _ Hfin). done.
    - by subst h4. }
  rewrite (bind_Ok _ _ _ _ _ Hc2).
  eexists. split; [done|]. by split.
Qed.
End BuildSpec.

(** ** The root partition node *)

Lemma NoDup_same_length {A} (l k : list A) :
  NoDup l → NoDup k → (∀ x, x ∈ l ↔ x ∈ k) → length l = length k.
Proof. intros Hl Hk Hlk. by rewrite (NoDup_Permutation l k). Qed.

Lemma singleton_inj_fset (a b : Z) : ({[a]} : fset) = {[b]} → a = b.
Proof. intros Heq. assert (a ∈ ({[b]} : fset)) by (rewrite <- Heq; set_solver). set_solver. Qed.

Lemma rtc_adjacent_map {V W} `{EqDecision V, EqDecision W}
    (g : Graph V) (g' : Graph W) (f : V → W) a b :
  (∀ u v, adjacent g u v → f u = f v ∨ adjacent g' (f u) (f v)) →
  rtc (adjacent g) a b → rtc (adjacent g') (f a) (f b).
Proof.
  intros Hstep. induction 1 as [|u v w Huv _ IH]; [done|].
  destruct (Hstep u v Huv) as [->|Hadj]; [done|]. by eapply rtc_l.
Qed.

Lemma SearchSpaceNode_init_root (g0 : Graph Z) :
  simple_graph g0 → connected g0 →
  ∃ root, SearchSpaceNode_init g0 = Ok root ∧ partition_node g0 root ∧
          order (_graph root) = order g0.
Proof.
  intros [Hwf Hloop] Hconn.
  destruct (SearchSpaceNode_init_int g0) as (root & Hroot & Hok & Hn & Ha).
  assert (Hn' : ∀ l, l ∈ nodes (_graph root) ↔ ∃ n, n ∈ nodes g0 ∧ l = {[n]}).
  { intros l. rewrite Hn. split; [|by left].
    intros [?|(a & b & He & Hl)]; [done|].
    destruct (edges_nodes g0 a b Hwf He). destruct Hl as [-> | ->]; eauto. }
  assert (Ha' : ∀ l1 l2, adjacent (_graph root) l1 l2 ↔
                  ∃ a b, adjacent g0 a b ∧ l1 = {[a]} ∧ l2 = {[b]}).
  { intros l1 l2. rewrite Ha. split.
    - intros (a & b & He & [[-> ->]|[-> ->]]); apply edges_adjacent in He.
      + by exists a, b.
      + exists b, a. split; [by apply Hwf|done].
    - intros (a & b & Hab & -> & ->).
      destruct (adjacent_edges g0 a b Hwf Hab) as [He|He].
      + exists a, b. split; [done|by left].
      + exists b, a. split; [done|by right]. }
  exists root. split; [done|]. split; [|].
  - split; [done|]. split; [|split; [|split]].
    + intros a b Ha0 Hb0 Hne. apply Hn' in Ha0 as (u & _ & ->).
      apply Hn' in Hb0 as (v & _ & ->). set_solver.
    + intros u. split.
      * intros Hu. exists {[u]}. split; [apply Hn'; by exists u|set_solver].
      * intros (a & Ha0 & Hu). apply Hn' in Ha0 as (v & Hv & ->). set_solver.
    + intros l1 l2. rewrite Ha'. split.
      * intros (a & b & Hab & -> & ->). split; [|split; [|split]].
        -- apply Hn'. exists a. split; [by eapply adjacent_node|done].
        -- apply Hn'. exists b. split; [|done]. apply Hwf in Hab. by eapply adjacent_node.
        -- intros Heq. apply singleton_inj_fset in Heq as ->. by apply Hloop in Hab.
        -- exists a, b. set_solver.
      * intros (Hl1 & Hl2 & _ & u & v & Hu & Hv & Huv).
        apply Hn' in Hl1 as (a & _ & ->). apply Hn' in Hl2 as (b & _ & ->).
        exists a, b. set_solver.
    + intros l1 l2 Hl1 Hl2.
      apply Hn' in Hl1 as (a & Ha0 & ->). apply Hn' in Hl2 as (b & Hb0 & ->).
      apply (rtc_adjacent_map g0 (_graph root) (λ n, {[n]})); [|by apply Hconn].
      intros u v Huv. right. apply Ha'. by exists u, v.
  - unfold order. change (length (_graph root)) with (length (_graph root)).
    rewrite <- (length_fmap fst (_graph root)), <- (length_fmap fst g0).
    rewrite <- (length_fmap (λ n : Z, ({[n]} : fset)) (g0.*1)).
    apply NoDup_same_length.
    + apply Hok.
    + apply NoDup_fmap_2; [intros a b; apply singleton_inj_fset|apply Hwf].
    + intros l. etrans; [apply Hn'|]. rewrite list_elem_of_fmap.
      unfold nodes. naive_solver.
Qed.

(** ** The children of a partition node *)

Lemma in_edge_spec a s t : in_edge a (s, t) = true ↔ a = s ∨ a = t.
Proof.
  unfold in_edge. simpl. rewrite orb_true_iff, !bool_decide_eq_true. done.
Qed.

Lemma rtc_first_step {A} (R : relation A) a b : rtc R a b → a ≠ b → ∃ c, R a c.
Proof. intros Hrtc Hne. destruct Hrtc; [done|eauto]. Qed.

Section ChildFacts.
Variables (g0 : Graph Z) (x : SearchSpaceNode) (s t : fset).
Hypothesis Hx : partition_node g0 x.
Hypothesis Hst : (s, t) ∈ edges (_graph x).

Let f := merged_label (s, t).

Lemma merged_label_in a : (a = s ∨ a = t) → f a = s ∪ t.
Proof.
  intros Ha. unfold f, merged_label. by rewrite (proj2 (in_edge_spec a s t) Ha).
Qed.

Lemma merged_label_out a : a ≠ s → a ≠ t → f a = a.
Proof.
  intros Hs Ht. unfold f, merged_label.
  destruct (in_edge a (s, t)) eqn:Hin; [|done].
  apply in_edge_spec in Hin. naive_solver.
Qed.

Lemma merged_label_cases a : (f a = s ∪ t ∧ (a = s ∨ a = t)) ∨ (f a = a ∧ a ≠ s ∧ a ≠ t).
Proof.
  destruct (decide (a = s)) as [->|Hs]; [left; split; [apply merged_label_in|]; auto|].
  destruct (decide (a = t)) as [->|Ht]; [left; split; [apply merged_label_in|]; auto|].
  right. split; [by apply merged_label_out|done].
Qed.

Lemma edge_ends :
  s ∈ nodes (_graph x) ∧ t ∈ nodes (_graph x) ∧ adjacent (_graph x) s t ∧
  s ≠ t ∧ s ≠ ∅ ∧ t ≠ ∅ ∧ s ## t.
Proof.
  destruct Hx as ([Hwf Hne] & Hdis & Hcov & Hind & Hconn).
  destruct (edges_nodes _ s t Hwf Hst) as [Hs Ht].
  pose proof (edges_adjacent _ _ _ Hst) as Hadj.
  assert (s ≠ t) by (apply Hind in Hadj; tauto).
  repeat split; try done; try (by apply Hne). by apply Hdis.
Qed.

Lemma merged_not_node : s ∪ t ∉ nodes (_graph x).
Proof.
  destruct Hx as ([Hwf Hne] & Hdis & Hcov & Hind & Hconn).
  destruct edge_ends as (Hs & Ht & _ & Hneq & Hsne & Htne & Hdisj).
  intros Hin.
  destruct (decide (s ∪ t = s)) as [Heq|Hneq'].
  - assert (t ⊆ s) by set_solver. apply Htne. set_solver.
  - specialize (Hdis _ _ Hin Hs Hneq'). apply Hsne. set_solver.
Qed.

Lemma merged_label_inj a b :
  a ∈ nodes (_graph x) → b ∈ nodes (_graph x) → f a = f b →
  a = b ∨ ((a = s ∨ a = t) ∧ (b = s ∨ b = t)).
Proof.
  intros Ha Hb Heq. pose proof merged_not_node as Hnew.
  destruct (merged_label_cases a) as [[Hfa Hain]|(Hfa & ? & ?)],
           (merged_label_cases b) as [[Hfb Hbin]|(Hfb & ? & ?)].
  - by right.
  - rewrite Hfa, Hfb in Heq. subst b. done.
  - rewrite Hfa, Hfb in Heq. subst a. done.
  - left. congruence.
Qed.

Lemma merged_label_subseteq a : a ⊆ f a.
Proof.
  clear Hx Hst.
  destruct (merged_label_cases a) as [[-> [-> | ->]]|[-> _]]; set_solver.
Qed.

Lemma merged_edge_labels a b :
  (a, b) ∈ edges (_graph x) → (s, t) ≠ (a, b) →
  merged_edge (s, t) (a, b) = (f a, f b) ∧ ¬ ((a = s ∨ a = t) ∧ (b = s ∨ b = t)).
Proof.
  intros Hab Hne.
  destruct Hx as ([Hwf _] & _ & _ & Hind & _).
  assert (Hanb : a ≠ b).
  { apply edges_adjacent, Hind in Hab. tauto. }
  assert (Hnot : ¬ ((a = s ∨ a = t) ∧ (b = s ∨ b = t))).
  { intros [[-> | ->] [-> | ->]]; try done.
    assert (t = s) by (by apply (edges_antisym (_graph x))).
    destruct edge_ends as (_ & _ & _ & ? & _). done. }
  split; [|done]. unfold merged_edge, f, merged_label. simpl.
  destruct (in_edge a (s, t)) eqn:Ha.
  - destruct (in_edge b (s, t)) eqn:Hb; [|done].
    apply in_edge_spec in Ha, Hb. tauto.
  - by destruct (in_edge b (s, t)).
Qed.

Lemma has_neighbour a :
  a ∈ nodes (_graph x) → a ≠ s → ∃ b, adjacent (_graph x) a b.
Proof.
  intros Ha Hne. destruct Hx as (_ & _ & _ & _ & Hconn).
  destruct edge_ends as (Hs & _).
  by apply (rtc_first_step _ a s); [apply Hconn|].
Qed.

(** The vertices of the merged graph are the merged labels. *)
Lemma merged_graph_labels l :
  l ∈ nodes (merged_graph (_graph x) (s, t)) ↔
  ∃ a, a ∈ nodes (_graph x) ∧ l = f a.
Proof.
  pose proof Hx as ([Hwf _] & _).
  destruct edge_ends as (Hs & Ht & _).
  rewrite merged_graph_nodes. simpl. split.
  - intros [->|([a b] & He & Hne & Hl)].
    + exists s. split; [done|]. symmetry. apply merged_label_in. by left.
    + destruct (merged_edge_labels a b He Hne) as [Heq _]. rewrite Heq in Hl. simpl in Hl.
      destruct (edges_nodes _ a b Hwf He). destruct Hl as [-> | ->]; eauto.
  - intros (a & Ha & ->).
    destruct (merged_label_cases a) as [[-> _]|(Hfa & Has & Hat)]; [by left|].
    right. destruct (has_neighbour a Ha Has) as (b & Hab).
    destruct (adjacent_edges _ a b Hwf Hab) as [He|He].
    + exists (a, b). split; [done|]. split; [congruence|].
      destruct (merged_edge_labels a b He) as [-> _]; [congruence|]. by left.
    + exists (b, a). split; [done|]. split; [congruence|].
      destruct (merged_edge_labels b a He) as [-> _]; [congruence|]. by right.
Qed.

(** The adjacency of the merged graph is that of the parent, carried
    over by the merged labels, without the merged edge. *)
Lemma merged_graph_adjacency l1 l2 :
  adjacent (merged_graph (_graph x) (s, t)) l1 l2 ↔
  ∃ a b, adjacent (_graph x) a b ∧ ¬ ((a = s ∨ a = t) ∧ (b = s ∨ b = t)) ∧
         l1 = f a ∧ l2 = f b.
Proof.
  pose proof Hx as ([Hwf _] & _).
  rewrite merged_graph_adjacent. split.
  - intros ([a b] & He & Hne & Hl).
    destruct (merged_edge_labels a b He Hne) as [Heq Hnot]. rewrite Heq in Hl. simpl in Hl.
    pose proof (edges_adjacent _ _ _ He) as Hab.
    destruct Hl as [[-> ->]|[-> ->]].
    + by exists a, b.
    + exists b, a. split; [by apply Hwf|]. tauto.
  - intros (a & b & Hab & Hnot & -> & ->).
    destruct (adjacent_edges _ a b Hwf Hab) as [He|He].
    + assert (Hne : (s, t) ≠ (a, b)) by (intros [= <- <-]; tauto).
      exists (a, b). split; [done|]. split; [done|].
      destruct (merged_edge_labels a b He Hne) as [-> _]. by left.
    + assert (Hne : (s, t) ≠ (b, a)) by (intros [= <- <-]; tauto).
      exists (b, a). split; [done|]. split; [done|].
      destruct (merged_edge_labels b a He Hne) as [-> _]. by right.
Qed.

Lemma merged_graph_order :
  (order (merged_graph (_graph x) (s, t)) + 1 = order (_graph x))%nat.
Proof.
  pose proof Hx as ([[Hnd _] _] & _).
  destruct edge_ends as (Hs & Ht & _ & Hneq & _).
  pose proof merged_not_node as Hnew.
  set (rest := filter (λ a, a ≠ s ∧ a ≠ t) (nodes (_graph x))).
  assert (H1 : nodes (_graph x) ≡ₚ s :: t :: rest).
  { apply NoDup_Permutation; [done| |].
    - repeat constructor.
      + rewrite not_elem_of_cons. split; [done|].
        unfold rest. rewrite list_elem_of_filter. tauto.
      + unfold rest. rewrite list_elem_of_filter. tauto.
      + by apply NoDup_filter.
    - intros a. rewrite !elem_of_cons. unfold rest. rewrite list_elem_of_filter.
      destruct (decide (a = s)), (decide (a = t)); naive_solver. }
  assert (H2 : nodes (merged_graph (_graph x) (s, t)) ≡ₚ (s ∪ t) :: rest).
  { apply NoDup_Permutation; [apply merged_graph_wf| |].
    - constructor; [|by apply NoDup_filter].
      unfold rest. rewrite list_elem_of_filter. tauto.
    - intros l. rewrite merged_graph_labels, elem_of_cons.
      unfold rest. rewrite list_elem_of_filter. split.
      + intros (a & Ha & ->).
        destruct (merged_label_cases a) as [[-> _]|(-> & ? & ?)]; auto.
      + intros [->|[[? ?] Hl]].
        * exists s. split; [done|]. symmetry. apply merged_label_in. by left.
        * exists l. split; [done|]. symmetry. by apply merged_label_out. }
  unfold order. rewrite <- (length_fmap fst (merged_graph _ _)), <- (length_fmap fst (_graph x)).
  change (length (nodes (merged_graph (_graph x) (s, t))) + 1 = length (nodes (_graph x)))%nat.
  rewrite H1, H2. simpl. lia.
Qed.
End ChildFacts.

(** Every edge of a partition node of a connected graph yields a child:
    the assertion of [expand] holds and the child is again a partition
    node of the graph. *)
Lemma expand_child_partition (g0 : Graph Z) (x : SearchSpaceNode) (s t : fset) :
  partition_node g0 x → (s, t) ∈ edges (_graph x) →
  ∃ c, expand_child (_graph x) (s, t) = Ok c ∧ partition_node g0 c ∧
       (order (_graph c) + 1 = order (_graph x))%nat ∧
       (∀ l, l ∈ nodes (_graph c) ↔
             ∃ a, a ∈ nodes (_graph x) ∧ l = merged_label (s, t) a) ∧
       (∀ l1 l2, adjacent (_graph c) l1 l2 ↔
             ∃ a b, adjacent (_graph x) a b ∧
                    ¬ ((a = s ∨ a = t) ∧ (b = s ∨ b = t)) ∧
                    l1 = merged_label (s, t) a ∧ l2 = merged_label (s, t) b).
Proof.
  intros Hx Hst.
  pose proof Hx as (Hok & Hdis & Hcov & Hind & Hconn).
  pose proof (merged_graph_order g0 x s t Hx Hst) as Hord.
  destruct (expand_child_cases x (s, t) Hok Hst) as [Hraise|(c & Hc & Hokc & _ & Hn & Ha)].
  { unfold expand_child in Hraise.
    destruct (decide _) as [|Hne] in Hraise; [|lia].
    destruct (SearchSpaceNode_init_fset (merged_graph (_graph x) (s, t)))
      as (c & Hc & _); [apply merged_graph_wf| |congruence].
    intros l Hl. apply (merged_graph_labels g0 x s t Hx Hst) in Hl as (a & Ha & ->).
    destruct Hok as [_ Hne].
    destruct (edge_ends g0 x s t Hx Hst) as (Hs & _ & _ & _ & Hsne & _).
    destruct (merged_label_cases s t a) as [[-> _]|[-> _]]; [set_solver|by apply Hne]. }
  assert (Hn' : ∀ l, l ∈ nodes (_graph c) ↔
                     ∃ a, a ∈ nodes (_graph x) ∧ l = merged_label (s, t) a).
  { intros l. rewrite Hn. apply (merged_graph_labels g0 x s t Hx Hst). }
  assert (Ha' : ∀ l1 l2, adjacent (_graph c) l1 l2 ↔
             ∃ a b, adjacent (_graph x) a b ∧
                    ¬ ((a = s ∨ a = t) ∧ (b = s ∨ b = t)) ∧
                    l1 = merged_label (s, t) a ∧ l2 = merged_label (s, t) b).
  { intros l1 l2. rewrite Ha. apply (merged_graph_adjacency g0 x s t Hx Hst). }
  destruct (edge_ends g0 x s t Hx Hst) as (Hs & Ht & Hadj & Hneq & Hsne & Htne & Hdisj).
  pose proof (merged_not_node g0 x s t Hx Hst) as Hnew.
  exists c. split; [done|]. split; [|split; [|done]].
  - split; [done|]. split; [|split; [|split]].
    + (* disjoint labels *)
      intros l1 l2 Hl1 Hl2 Hne.
      apply Hn' in Hl1 as (a & Ha1 & ->). apply Hn' in Hl2 as (b & Hb1 & ->).
      assert (Hab : a ≠ b) by congruence.
      destruct (merged_label_cases s t a) as [[Hfa Hain]|(Hfa & ? & ?)],
               (merged_label_cases s t b) as [[Hfb Hbin]|(Hfb & ? & ?)];
        rewrite Hfa, Hfb in *; try done.
      * pose proof (Hdis _ _ Hs Hb1). pose proof (Hdis _ _ Ht Hb1).
        assert (s ## b) by auto. assert (t ## b) by auto. set_solver.
      * pose proof (Hdis _ _ Ha1 Hs). pose proof (Hdis _ _ Ha1 Ht).
        assert (a ## s) by auto. assert (a ## t) by auto. set_solver.
      * by apply Hdis.
    + (* cover *)
      intros u. rewrite (Hcov u). split.
      * intros (a & Ha1 & Hu). exists (merged_label (s, t) a). split.
        -- apply Hn'. by exists a.
        -- by apply (merged_label_subseteq s t).
      * intros (l & Hl & Hu). apply Hn' in Hl as (a & Ha1 & ->).
        destruct (merged_label_cases s t a) as [[Hfa _]|(Hfa & _)]; rewrite Hfa in Hu.
        -- apply elem_of_union in Hu as [Hu|Hu]; eauto.
        -- eauto.
    + (* induced adjacency *)
      intros l1 l2. rewrite Ha'. split.
      * intros (a & b & Hab & Hnot & -> & ->).
        pose proof (proj1 (Hind a b) Hab) as (Ha1 & Hb1 & Hanb & u & v & Hu & Hv & Huv).
        split; [apply Hn'; by exists a|]. split; [apply Hn'; by exists b|].
        split.
        -- intros Heq.
           destruct (merged_label_inj g0 x s t Hx Hst a b Ha1 Hb1 Heq); tauto.
        -- exists u, v. split; [by apply (merged_label_subseteq s t)|].
           split; [by apply (merged_label_subseteq s t)|done].
      * intros (Hl1 & Hl2 & Hne & u & v & Hu & Hv & Huv).
        apply Hn' in Hl1 as (a & Ha1 & ->). apply Hn' in Hl2 as (b & Hb1 & ->).
        assert (Hpick : ∀ a w, a ∈ nodes (_graph x) → w ∈ merged_label (s, t) a →
                  ∃ a', a' ∈ nodes (_graph x) ∧ w ∈ a' ∧
                        merged_label (s, t) a' = merged_label (s, t) a).
        { intros a0 w Ha0 Hw.
          destruct (merged_label_cases s t a0) as [[Hfa _]|(Hfa & _)]; rewrite Hfa in Hw.
          - apply elem_of_union in Hw as [Hw|Hw].
            + exists s. split; [done|]. split; [done|].
              rewrite Hfa. apply merged_label_in. by left.
            + exists t. split; [done|]. split; [done|].
              rewrite Hfa. apply merged_label_in. by right.
          - by exists a0. }
        destruct (Hpick a u Ha1 Hu) as (a' & Ha2 & Hu' & Hfa).
        destruct (Hpick b v Hb1 Hv) as (b' & Hb2 & Hv' & Hfb).
        exists a', b'. rewrite Hfa, Hfb. split; [|split; [|done]].
        -- apply Hind. split; [done|]. split; [done|]. split; [congruence|].
           by exists u, v.
        -- intros [Hin1 Hin2].
           apply Hne. rewrite <- Hfa, <- Hfb.
           by rewrite (merged_label_in s t a' Hin1), (merged_label_in s t b' Hin2).
    + (* connected *)
      intros l1 l2 Hl1 Hl2.
      apply Hn' in Hl1 as (a & Ha1 & ->). apply Hn' in Hl2 as (b & Hb1 & ->).
      apply (rtc_adjacent_map (_graph x) (_graph c) (merged_label (s, t)));
        [|by apply Hconn].
      intros u v Huv.
      destruct (decide ((u = s ∨ u = t) ∧ (v = s ∨ v = t))) as [[Hu Hv]|Hnot].
      * left. by rewrite (merged_label_in s t u Hu), (merged_label_in s t v Hv).
      * right. apply Ha'. by exists u, v.
  - rewrite <- Hord. f_equal. unfold order.
    rewrite <- (length_fmap fst (_graph c)), <- (length_fmap fst (merged_graph _ _)).
    apply NoDup_same_length; [apply Hokc|apply merged_graph_wf|apply Hn].
Qed.

(** ** Checking the hypotheses on a given graph *)

Section Checkers.
Context {V : Type} `{EqDecision V}.
Implicit Types (g : Graph V).

Lemma nbrs_of_elem a g nb : nbrs_of a g = Some nb → (a, nb) ∈ g.
Proof.
  induction g as [|[n nb'] g IH]; simpl; [done|].
  destruct (decide (n = a)) as [->|Hne].
  - intros [= ->]. by left.
  - intros Hg. right. by apply IH.
Qed.

Lemma neighbours_adjacent g a b : b ∈ neighbours g a → adjacent g a b.
Proof.
  unfold neighbours. destruct (nbrs_of a g) as [nb|] eqn:Hnb; simpl.
  - intros Hb. exists nb. split; [by apply nbrs_of_elem|done].
  - intros Hb. by apply elem_of_nil in Hb.
Qed.

Lemma reach_sound g k l b :
  b ∈ reach g k l → ∃ a, a ∈ l ∧ rtc (adjacent g) a b.
Proof.
  revert b. induction k as [|k IH]; intros b; simpl.
  - intros Hb. by exists b.
  - intros Hb. apply elem_of_app in Hb as [Hb|Hb]; [by apply IH|].
    apply list_elem_of_bind in Hb as (c & Hb & Hc).
    destruct (IH c Hc) as (a & Ha & Hac). exists a. split; [done|].
    eapply rtc_r; [done|]. by apply neighbours_adjacent.
Qed.

Lemma connectedb_sound g : connectedb g = true → connected g.
Proof.
  unfold connectedb. rewrite forallb_forall. intros Hall a b Ha Hb.
  apply list_elem_of_In in Ha. specialize (Hall a Ha).
  rewrite forallb_forall in Hall. apply list_elem_of_In in Hb.
  specialize (Hall b Hb). apply bool_decide_eq_true in Hall.
  destruct (reach_sound _ _ _ _ Hall) as (a' & Ha' & Hrtc).
  apply list_elem_of_singleton in Ha'. by subst.
Qed.

Lemma loop_freeb_sound g : loop_freeb g = true → loop_free g.
Proof.
  unfold loop_freeb. rewrite forallb_forall. intros Hall a (nb & Hin & Ha).
  apply list_elem_of_In in Hin. specialize (Hall _ Hin). simpl in Hall.
  apply negb_true_iff, bool_decide_eq_false in Hall. done.
Qed.
End Checkers.

Lemma graph_of_edges_wf es : graph_wf (graph_of_edges es).
Proof.
  unfold graph_of_edges.
  apply (foldl_add_edge_wf (λ e : Z * Z, e.1) (λ e : Z * Z, e.2)), graph_wf_nil.
Qed.

Lemma simple_graph_check es :
  loop_freeb (graph_of_edges es) = true → simple_graph (graph_of_edges es).
Proof. intros Hl. split; [apply graph_of_edges_wf|by apply loop_freeb_sound]. Qed.

Lemma path2_simple : simple_graph path2.
Proof. by apply simple_graph_check. Qed.

Lemma path2_connected : connected path2.
Proof. by apply connectedb_sound. Qed.

Lemma path3_simple : simple_graph path3.
Proof. by apply simple_graph_check. Qed.

Lemma path3_connected : connected path3.
Proof. by apply connectedb_sound. Qed.

Lemma cycle4_simple : simple_graph cycle4.
Proof. by apply simple_graph_check. Qed.

Lemma cycle4_connected : connected cycle4.
Proof. by apply connectedb_sound. Qed.

(** ** Reachable partition nodes *)

Lemma reachable_partition_node (g0 : Graph Z) x :
  simple_graph g0 → connected g0 → reachable g0 x → partition_node g0 x.
Proof.
  intros Hs Hc. induction 1 as [root Hroot|x c Hx IH Hc'].
  - destruct (SearchSpaceNode_init_root g0 Hs Hc) as (root' & Hroot' & Hp & _).
    congruence.
  - unfold SearchSpaceNode_expand in Hc'.
    apply list_elem_of_fmap in Hc' as ([s t] & Heq & He).
    destruct (expand_child_partition g0 x s t IH He) as (c' & Hc'' & Hp & _).
    congruence.
Qed.

(** C8 as the code has it: on every partition node reachable from a
    connected graph without self-loops, [expand] yields a child for every
    edge: the assertion on the vertex count of the merged graph holds, and
    the child has exactly one vertex less than its parent. *)
Theorem expand_never_fails (g0 : Graph Z) (x : SearchSpaceNode) :
  simple_graph g0 → connected g0 → reachable g0 x →
  ∀ e, e ∈ edges (_graph x) →
       Z.of_nat (order (merged_graph (_graph x) e)) = Z.of_nat (order (_graph x)) - 1 ∧
       ∃ c, expand_child (_graph x) e = Ok c ∧
            Z.of_nat (order (_graph c)) = Z.of_nat (order (_graph x)) - 1.
Proof.
  intros Hs Hc Hx [s t] He.
  pose proof (reachable_partition_node g0 x Hs Hc Hx) as Hp.
  pose proof (merged_graph_order g0 x s t Hp He).
  destruct (expand_child_partition g0 x s t Hp He) as (c & Hc' & _ & Hord & _).
  split; [lia|]. exists c. split; [done|lia].
Qed.

Lemma expand_never_fails_witness :
  ∃ root, SearchSpaceNode_init path3 = Ok root ∧
          ∀ e, e ∈ edges (_graph root) →
               ∃ c, expand_child (_graph root) e = Ok c ∧
                    Z.of_nat (order (_graph c)) = Z.of_nat (order (_graph root)) - 1.
Proof.
  destruct (SearchSpaceNode_init_root path3 path3_simple path3_connected)
    as (root & Hroot & _).
  exists root. split; [done|]. intros e He.
  apply (expand_never_fails path3 root path3_simple path3_connected
           (reachable_root path3 root Hroot) e He).
Defined.

(** The claim of C8 as it is worded fails on a graph with a self-loop: the
    graph with the edge 1-2 and a loop at 2 is connected and its root
    partition node is reachable, yet merging the loop leaves the two
    vertices of the root in place and [expand] raises [AssertionError]. *)
Lemma expand_fails_on_self_loop :
  let g0 := graph_of_edges [(1, 2); (2, 2)] in
  (graph_wf g0 ∧ connected g0) ∧
  ∃ root, SearchSpaceNode_init g0 = Ok root ∧ reachable g0 root ∧
          ({[2]}, {[2]}) ∈ edges (_graph root) ∧
          order (merged_graph (_graph root) ({[2]}, {[2]})) = order (_graph root) ∧
          expand_child (_graph root) ({[2]}, {[2]}) = Raise AssertionError ∧
          Raise AssertionError ∈ SearchSpaceNode_expand root.
Proof.
  intros g0. split; [split; [apply graph_of_edges_wf|by apply connectedb_sound]|].
  destruct (SearchSpaceNode_init g0) as [root| |] eqn:Hroot; try by vm_compute in Hroot.
  exists root. split; [done|]. split; [by constructor|].
  vm_compute in Hroot. injection Hroot as <-.
  split; [|split; [|split]].
  - apply list_elem_of_In. vm_compute. tauto.
  - vm_compute. reflexivity.
  - vm_compute. reflexivity.
  - apply list_elem_of_In. vm_compute. tauto.
Qed.

(** ** The levels of a connected graph *)

Lemma SearchSpaceNode_eq_refl x : node_ok x → SearchSpaceNode_eq x x = true.
Proof. intros Hx. by apply SearchSpaceNode_eq_spec. Qed.

Lemma ok_children_elem x c : c ∈ ok_children x ↔ Ok c ∈ SearchSpaceNode_expand x.
Proof.
  unfold ok_children. rewrite list_elem_of_omap. split.
  - intros (r & Hr & Hc). destruct r; simplify_eq/=. done.
  - intros Hc. by exists (Ok c).
Qed.

Lemma next_nodes_elem s c :
  c ∈ next_nodes s → ∃ x, x ∈ s ∧ Ok c ∈ SearchSpaceNode_expand x.
Proof.
  unfold next_nodes. intros Hc.
  apply foldl_insert_node_elem in Hc as [Hc|Hc]; [by apply elem_of_nil in Hc|].
  apply list_elem_of_bind in Hc as (x & Hc & Hx). exists x. split; [done|].
  by apply ok_children_elem.
Qed.

Lemma foldl_insert_node_complete cs acc c :
  c ∈ cs → ∃ y, y ∈ foldl insert_node acc cs ∧ (y = c ∨ SearchSpaceNode_eq y c = true).
Proof.
  revert acc. induction cs as [|c' cs IH]; intros acc Hc; [by apply elem_of_nil in Hc|].
  apply elem_of_cons in Hc as [->|Hc]; [|by apply IH].
  simpl. unfold insert_node at 2.
  destruct (existsb _ acc) eqn:Hex.
  - apply existsb_exists in Hex as (y & Hy & Heq). exists y. split; [|by right].
    apply foldl_insert_node_incl. by apply list_elem_of_In.
  - exists c'. split; [|by left]. apply foldl_insert_node_incl.
    apply elem_of_app. right. by left.
Qed.

Lemma next_nodes_complete s x c :
  x ∈ s → Ok c ∈ SearchSpaceNode_expand x →
  ∃ y, y ∈ next_nodes s ∧ (y = c ∨ SearchSpaceNode_eq y c = true).
Proof.
  intros Hx Hc. apply foldl_insert_node_complete.
  apply list_elem_of_bind. exists x. split; [by apply ok_children_elem|done].
Qed.

Lemma pairwise_ne_insert s c : pairwise_ne s → pairwise_ne (insert_node s c).
Proof.
  intros Hs. unfold insert_node. destruct (existsb _ s) eqn:Hex; [done|].
  intros i j y z Hij Hi Hj.
  destruct (decide (j < length s)%nat) as [Hlt|Hge].
  - rewrite lookup_app_l in Hi, Hj by lia. by apply (Hs i j).
  - assert (j = length s) as ->.
    { apply lookup_lt_Some in Hj. rewrite length_app in Hj. simpl in Hj. lia. }
    rewrite lookup_app_l in Hi by lia.
    rewrite lookup_app_r, Nat.sub_diag in Hj by lia. injection Hj as <-.
    destruct (SearchSpaceNode_eq y c) eqn:Heq; [|done].
    assert (existsb (λ y, SearchSpaceNode_eq y c) s = true); [|congruence].
    apply existsb_exists. exists y. split; [|done].
    apply list_elem_of_In. by eapply list_elem_of_lookup_2.
Qed.

Lemma pairwise_ne_foldl cs s : pairwise_ne s → pairwise_ne (foldl insert_node s cs).
Proof.
  revert s. induction cs as [|c cs IH]; intros s Hs; simpl; [done|].
  by apply IH, pairwise_ne_insert.
Qed.

Lemma pairwise_ne_next_nodes s : pairwise_ne (next_nodes s).
Proof. apply pairwise_ne_foldl. intros i j y z _ Hi. by rewrite lookup_nil in Hi. Qed.

Lemma pairwise_ne_all_eq l :
  pairwise_ne l → (∀ y z, y ∈ l → z ∈ l → SearchSpaceNode_eq y z = true) →
  (length l ≤ 1)%nat.
Proof.
  intros Hne Heq. destruct l as [|y [|z l]]; simpl; [lia..|].
  assert (Hf : SearchSpaceNode_eq y z = false) by (apply (Hne 0%nat 1%nat); [lia|done..]).
  rewrite Heq in Hf; [done|by left|right; by left].
Qed.

Lemma two_members_length {A} (l : list A) y z :
  y ∈ l → z ∈ l → y ≠ z → (2 ≤ length l)%nat.
Proof.
  intros Hy Hz Hne. destruct l as [|a [|b l]]; simpl; [|set_solver|lia].
  by apply elem_of_nil in Hy.
Qed.

Section LevelTheory.
Variable g0 : Graph Z.
Hypothesis Hsimple : simple_graph g0.
Hypothesis Hconn : connected g0.

Lemma level_pure_0 :
  ∃ root, SearchSpaceNode_init g0 = Ok root ∧ level_pure g0 0 = [root] ∧
          partition_node g0 root ∧ order (_graph root) = order g0.
Proof.
  destruct (SearchSpaceNode_init_root g0 Hsimple Hconn) as (root & Hroot & Hp & Ho).
  exists root. unfold level_pure. by rewrite Hroot.
Qed.

Lemma level_pure_partition j x :
  x ∈ level_pure g0 j →
  partition_node g0 x ∧ (order (_graph x) + j = order g0)%nat.
Proof.
  revert x. induction j as [|j IH]; intros x Hx.
  - destruct level_pure_0 as (root & _ & Hl & Hp & Ho). rewrite Hl in Hx.
    apply list_elem_of_singleton in Hx as ->. split; [done|lia].
  - rewrite level_pure_S in Hx. apply next_nodes_elem in Hx as (p & Hp & Hx).
    destruct (IH p Hp) as [Hpp Hpo].
    unfold SearchSpaceNode_expand in Hx.
    apply list_elem_of_fmap in Hx as ([s t] & Heq & He).
    destruct (expand_child_partition g0 p s t Hpp He) as (c & Hc & Hcp & Hco & _).
    assert (x = c) as -> by congruence. split; [done|lia].
Qed.

Lemma level_pure_expands_ok j : expands_ok (level_pure g0 j).
Proof.
  intros x r Hx Hr. destruct (level_pure_partition j x Hx) as [Hp _].
  unfold SearchSpaceNode_expand in Hr.
  apply list_elem_of_fmap in Hr as ([s t] & -> & He).
  destruct (expand_child_partition g0 x s t Hp He) as (c & Hc & _). by exists c.
Qed.

Lemma level_pure_pairwise_ne j : pairwise_ne (level_pure g0 j).
Proof.
  destruct j as [|j].
  - destruct level_pure_0 as (root & _ & -> & _).
    intros i j y z Hij Hi Hj. apply lookup_lt_Some in Hj. simpl in Hj. lia.
  - rewrite level_pure_S. apply pairwise_ne_next_nodes.
Qed.
End LevelTheory.

Section PartitionFacts.
Variables (g0 : Graph Z) (x : SearchSpaceNode).
Hypothesis Hx : partition_node g0 x.

Lemma partition_has_neighbour a a' :
  a ∈ nodes (_graph x) → a' ∈ nodes (_graph x) → a ≠ a' →
  ∃ b, adjacent (_graph x) a b.
Proof.
  intros Ha Ha' Hne. destruct Hx as (_ & _ & _ & _ & Hconn).
  by apply (rtc_first_step _ a a'); [apply Hconn|].
Qed.

Lemma adjacent_in_edges a b :
  adjacent (_graph x) a b → ∃ e, e ∈ edges (_graph x) ∧ (a = e.1 ∨ a = e.2).
Proof.
  intros Hab. destruct Hx as ([Hwf _] & _).
  destruct (adjacent_edges _ a b Hwf Hab) as [He|He].
  - exists (a, b). split; [done|by left].
  - exists (b, a). split; [done|by right].
Qed.

Lemma order_ge2_edge : (2 ≤ order (_graph x))%nat → ∃ e, e ∈ edges (_graph x).
Proof.
  intros Hord. pose proof Hx as ([[Hnd _] _] & _).
  unfold order in Hord. rewrite <- (length_fmap fst) in Hord.
  fold (nodes (_graph x)) in Hord.
  destruct (nodes (_graph x)) as [|v1 [|v2 l]] eqn:Hn; simpl in Hord; [lia..|].
  apply NoDup_cons in Hnd as [Hv1 _].
  destruct (partition_has_neighbour v1 v2) as (b & Hb).
  - rewrite Hn. by left.
  - rewrite Hn. right. by left.
  - intros ->. apply Hv1. by left.
  - destruct (adjacent_in_edges _ _ Hb) as (e & He & _). by exists e.
Qed.

Lemma order_ge3_two_edges :
  (3 ≤ order (_graph x))%nat →
  ∃ e1 e2, e1 ∈ edges (_graph x) ∧ e2 ∈ edges (_graph x) ∧ e1 ≠ e2.
Proof.
  intros Hord. pose proof Hx as ([Hwf _] & _). pose proof Hwf as [Hnd _].
  unfold order in Hord. rewrite <- (length_fmap fst) in Hord.
  fold (nodes (_graph x)) in Hord.
  destruct (nodes (_graph x)) as [|v1 [|v2 [|v3 l]]] eqn:Hn; simpl in Hord; [lia..|].
  apply NoDup_cons in Hnd as [Hv1 Hnd]. apply NoDup_cons in Hnd as [Hv2 _].
  assert (H12 : v1 ≠ v2) by (intros ->; apply Hv1; by left).
  assert (H13 : v1 ≠ v3) by (intros ->; apply Hv1; right; by left).
  assert (H23 : v2 ≠ v3) by (intros ->; apply Hv2; by left).
  assert (Hin1 : v1 ∈ nodes (_graph x)) by (rewrite Hn; set_solver).
  assert (Hin2 : v2 ∈ nodes (_graph x)) by (rewrite Hn; set_solver).
  assert (Hin3 : v3 ∈ nodes (_graph x)) by (rewrite Hn; set_solver).
  destruct (partition_has_neighbour v1 v2 Hin1 Hin2 H12) as (b1 & Hb1).
  destruct (partition_has_neighbour v2 v3 Hin2 Hin3 H23) as (b2 & Hb2).
  destruct (partition_has_neighbour v3 v1 Hin3 Hin1 ltac:(congruence)) as (b3 & Hb3).
  destruct (adjacent_in_edges _ _ Hb1) as (e1 & He1 & Hv1e).
  destruct (adjacent_in_edges _ _ Hb2) as (e2 & He2 & Hv2e).
  destruct (adjacent_in_edges _ _ Hb3) as (e3 & He3 & Hv3e).
  destruct (decide (e1 = e2)) as [<-|Hne12]; [|by exists e1, e2].
  destruct (decide (e1 = e3)) as [<-|Hne13]; [|by exists e1, e3].
  exfalso. destruct Hv1e, Hv2e, Hv3e; congruence.
Qed.

Lemma order_le1_no_adjacent a b :
  (order (_graph x) ≤ 1)%nat → ¬ adjacent (_graph x) a b.
Proof.
  intros Hord Hab. destruct Hx as (_ & _ & _ & Hind & _).
  apply Hind in Hab as (Ha & Hb & Hne & _).
  unfold order in Hord. rewrite <- (length_fmap fst) in Hord.
  fold (nodes (_graph x)) in Hord.
  destruct (nodes (_graph x)) as [|v1 [|v2 l]]; simpl in Hord; [|set_solver|lia].
  by apply elem_of_nil in Ha.
Qed.
End PartitionFacts.

Lemma expand_child_distinct (g0 : Graph Z) (x c1 c2 : SearchSpaceNode) e1 e2 :
  partition_node g0 x → (3 ≤ order (_graph x))%nat →
  e1 ∈ edges (_graph x) → e2 ∈ edges (_graph x) → e1 ≠ e2 →
  expand_child (_graph x) e1 = Ok c1 → expand_child (_graph x) e2 = Ok c2 →
  ¬ (∀ a b, adjacent (_graph c1) a b ↔ adjacent (_graph c2) a b).
Proof.
  intros Hx Hord He1 He2 Hne Hc1 Hc2 Hsame.
  destruct e1 as [s1 t1], e2 as [s2 t2].
  destruct (expand_child_partition g0 x s1 t1 Hx He1) as (c1' & Hc1' & Hp1 & Ho1 & Hn1 & _).
  destruct (expand_child_partition g0 x s2 t2 Hx He2) as (c2' & Hc2' & Hp2 & Ho2 & Hn2 & _).
  assert (c1' = c1) as -> by congruence. assert (c2' = c2) as -> by congruence.
  destruct (edge_ends g0 x s1 t1 Hx He1) as (Hs1 & Ht1 & _ & Hst1 & Hs1ne & Ht1ne & _).
  destruct (edge_ends g0 x s2 t2 Hx He2) as (Hs2 & Ht2 & _ & Hst2 & _).
  pose proof (merged_not_node g0 x s1 t1 Hx He1) as Hnew1.
  pose proof Hx as ([Hwf _] & Hdis & _).
  (* the merged label of [c1] has a neighbour in [c1] *)
  assert (Hm1 : s1 ∪ t1 ∈ nodes (_graph c1)).
  { apply Hn1. exists s1. split; [done|]. symmetry. apply merged_label_in. by left. }
  assert (Hother : ∃ l, l ∈ nodes (_graph c1) ∧ s1 ∪ t1 ≠ l).
  { pose proof Hp1 as ([[Hnd1 _] _] & _).
    assert (Hlen : (2 ≤ length (nodes (_graph c1)))%nat).
    { unfold nodes. rewrite length_fmap. unfold order in *. lia. }
    destruct (nodes (_graph c1)) as [|v1 [|v2 l]] eqn:Hn; simpl in Hlen; [lia..|].
    apply NoDup_cons in Hnd1 as [Hv1 _].
    destruct (decide (s1 ∪ t1 = v1)) as [<-|Hv].
    - exists v2. split; [right; by left|]. intros <-. apply Hv1. by left.
    - exists v1. split; [by left|done]. }
  destruct Hother as (l & Hl & Hlne).
  destruct (partition_has_neighbour g0 c1 Hp1 _ _ Hm1 Hl Hlne) as (b & Hb).
  apply Hsame, adjacent_node in Hb.
  apply Hn2 in Hb as (a & Ha & Heq).
  destruct (merged_label_cases s2 t2 a) as [[Hfa _]|[Hfa _]]; rewrite Hfa in Heq.
  2:{ by rewrite Heq in Hnew1. }
  (* equal unions of disjoint labels *)
  assert (Hpick : ∀ l, l ∈ nodes (_graph x) → l ≠ ∅ → l ⊆ s2 ∪ t2 → l = s2 ∨ l = t2).
  { intros l0 Hl0 Hl0ne Hsub.
    destruct (decide (l0 = s2)) as [|Hn2s]; [by left|].
    destruct (decide (l0 = t2)) as [|Hn2t]; [by right|].
    pose proof (Hdis _ _ Hl0 Hs2 Hn2s) as Hd1. pose proof (Hdis _ _ Hl0 Ht2 Hn2t) as Hd2.
    exfalso. apply Hl0ne. clear -Hsub Hd1 Hd2. set_solver. }
  assert (Hsub1 : s1 ⊆ s2 ∪ t2) by (clear -Heq; set_solver).
  assert (Hsub2 : t1 ⊆ s2 ∪ t2) by (clear -Heq; set_solver).
  destruct (Hpick s1 Hs1 Hs1ne Hsub1) as [Es | Es], (Hpick t1 Ht1 Ht1ne Hsub2) as [Et | Et];
    subst s1 t1; try done.
  apply Hst2. by apply (edges_antisym (_graph x)).
Qed.

Section LevelShape.
Variable g0 : Graph Z.
Hypothesis Hsimple : simple_graph g0.
Hypothesis Hconn : connected g0.

Lemma level_pure_nonempty j : (j < order g0)%nat → level_pure g0 j ≠ [].
Proof.
  induction j as [|j IH]; intros Hj.
  - destruct (level_pure_0 g0 Hsimple Hconn) as (root & _ & -> & _). done.
  - destruct (level_pure g0 j) as [|x l] eqn:Hl; [by destruct IH; [lia|]|].
    assert (Hx : x ∈ level_pure g0 j) by (rewrite Hl; by left).
    destruct (level_pure_partition g0 Hsimple Hconn j x Hx) as [Hp Ho].
    destruct (order_ge2_edge g0 x Hp) as ([s t] & He); [lia|].
    destruct (expand_child_partition g0 x s t Hp He) as (c & Hc & _).
    destruct (next_nodes_complete (level_pure g0 j) x c Hx) as (y & Hy & _).
    { unfold SearchSpaceNode_expand. apply list_elem_of_fmap. by exists (s, t). }
    rewrite level_pure_S. intros Hnil. rewrite Hnil in Hy. by apply elem_of_nil in Hy.
Qed.

Lemma level_pure_many j :
  (1 ≤ j)%nat → (S j < order g0)%nat → (1 < length (level_pure g0 j))%nat.
Proof.
  intros Hj Hjn. destruct j as [|j]; [lia|].
  destruct (level_pure g0 j) as [|x l] eqn:Hl.
  { by destruct (level_pure_nonempty j); [lia|]. }
  assert (Hx : x ∈ level_pure g0 j) by (rewrite Hl; by left).
  destruct (level_pure_partition g0 Hsimple Hconn j x Hx) as [Hp Ho].
  destruct (order_ge3_two_edges g0 x Hp) as (e1 & e2 & He1 & He2 & Hne); [lia|].
  destruct e1 as [s1 t1], e2 as [s2 t2].
  destruct (expand_child_partition g0 x s1 t1 Hp He1) as (c1 & Hc1 & Hp1 & _).
  destruct (expand_child_partition g0 x s2 t2 Hp He2) as (c2 & Hc2 & Hp2 & _).
  destruct (next_nodes_complete (level_pure g0 j) x c1 Hx) as (y1 & Hy1 & Hyc1).
  { unfold SearchSpaceNode_expand. apply list_elem_of_fmap. by exists (s1, t1). }
  destruct (next_nodes_complete (level_pure g0 j) x c2 Hx) as (y2 & Hy2 & Hyc2).
  { unfold SearchSpaceNode_expand. apply list_elem_of_fmap. by exists (s2, t2). }
  rewrite <- level_pure_S in Hy1, Hy2.
  apply (two_members_length _ y1 y2 Hy1 Hy2). intros <-.
  destruct (level_pure_partition g0 Hsimple Hconn (S j) y1 Hy1) as [(Hoky & _) _].
  pose proof Hp1 as (Hok1 & _). pose proof Hp2 as (Hok2 & _).
  assert (H1 : SearchSpaceNode_eq y1 c1 = true).
  { destruct Hyc1 as [->|?]; [by apply SearchSpaceNode_eq_refl|done]. }
  assert (H2 : SearchSpaceNode_eq y1 c2 = true).
  { destruct Hyc2 as [->|?]; [by apply SearchSpaceNode_eq_refl|done]. }
  pose proof (proj1 (SearchSpaceNode_eq_spec y1 c1 Hoky Hok1) H1) as H1'.
  pose proof (proj1 (SearchSpaceNode_eq_spec y1 c2 Hoky Hok2) H2) as H2'.
  apply (expand_child_distinct g0 x c1 c2 (s1, t1) (s2, t2)); try done; [lia|].
  intros a b. by rewrite <- H1', <- H2'.
Qed.

Lemma level_pure_last j :
  (order g0 ≤ S (S j))%nat → (length (level_pure g0 (S j)) ≤ 1)%nat.
Proof.
  intros Hj. apply pairwise_ne_all_eq; [by apply level_pure_pairwise_ne|].
  intros y z Hy Hz.
  destruct (level_pure_partition g0 Hsimple Hconn (S j) y Hy) as [Hpy Hoy].
  destruct (level_pure_partition g0 Hsimple Hconn (S j) z Hz) as [Hpz Hoz].
  apply SearchSpaceNode_eq_spec; [apply Hpy|apply Hpz|].
  intros a b. split; intros Hab; exfalso.
  - by apply (order_le1_no_adjacent g0 y Hpy a b); [lia|].
  - by apply (order_le1_no_adjacent g0 z Hpz a b); [lia|].
Qed.

(** A connected graph with [n] nodes has a search space of [n] levels
    (of two levels when it has a single node). *)
Lemma levels_shape_connected :
  order g0 ≠ 0%nat → levels_shape g0 (Nat.max (order g0) 2).
Proof.
  intros Hn. split; [|split].
  - intros j _. by apply level_pure_expands_ok.
  - intros j Hj Hjm. apply level_pure_many; lia.
  - replace (Nat.max (order g0) 2 - 1)%nat with (S (Nat.max (order g0) 2 - 2)) by lia.
    apply level_pure_last. lia.
Qed.

(** [build] on a connected graph without self-loops. *)
Lemma SearchSpace_build_connected py_hash c (w : world) :
  order g0 ≠ 0%nat →
  ∃ w', SearchSpace_build py_hash (mkSpace g0 c) w
        = (Ok (seq (length (w_heap w)) (Nat.max (order g0) 2)), w') ∧
        build_done g0 c (w_heap w) (Nat.max (order g0) 2) w'.
Proof.
  intros Hn. apply SearchSpace_build_spec; [done| |lia..].
  by apply levels_shape_connected.
Qed.
End LevelShape.

(** ** The counts of a built search space *)

Lemma level_done_num_partitions c ns j a (h : heap) lv :
  h !! a = Some lv → level_done c ns j lv →
  num_partitions a h = (Ok (length ns), h).
Proof.
  intros Ha [_ Hd]. destruct c.
  - destruct Hd as [_ Hk]. by eapply num_partitions_recorded.
  - destruct Hd as (s & Hs & Hk & <-). rewrite length_fmap.
    by eapply num_partitions_nodes.
Qed.

Lemma sum_num_partitions_seq (f : nat → nat) b m (h : heap) :
  (∀ i, (i < m)%nat → num_partitions (b + i) h = (Ok (f i), h)) →
  sum_num_partitions (seq b m) h = (Ok (sum_list (f <$> seq 0 m)), h).
Proof.
  revert b f. induction m as [|m IH]; intros b f Hf; [done|].
  simpl. unfold bind. rewrite <- (Nat.add_0_r b) at 1. rewrite (Hf 0%nat) by lia.
  rewrite (IH (S b) (λ i, f (S i))).
  - unfold ret. do 3 f_equal. rewrite <- fmap_S_seq, <- list_fmap_compose. done.
  - intros i Hi. replace (S b + i)%nat with (b + S i)%nat by lia. apply Hf. lia.
Qed.

Lemma SearchSpace_build_counts py_hash (g0 : Graph Z) c (w : world) :
  simple_graph g0 → connected g0 → order g0 ≠ 0%nat →
  ∃ w', SearchSpace_build py_hash (mkSpace g0 c) w
        = (Ok (seq (length (w_heap w)) (Nat.max (order g0) 2)), w') ∧
        _levels w' = Some (seq (length (w_heap w)) (Nat.max (order g0) 2)) ∧
        length (w_heap w') = (length (w_heap w) + Nat.max (order g0) 2)%nat ∧
        take (length (w_heap w)) (w_heap w') = w_heap w ∧
        (∀ i, (i < Nat.max (order g0) 2)%nat →
              num_partitions (length (w_heap w) + i) (w_heap w')
              = (Ok (length (level_pure g0 i)), w_heap w')) ∧
        (c = false →
         ∀ i, (i < Nat.max (order g0) 2)%nat →
              ∃ lv s, w_heap w' !! (length (w_heap w) + i)%nat = Some lv ∧
                      _nodes lv = Some s ∧ s.*2 = level_pure g0 i).
Proof.
  intros Hs Hc Hn.
  destruct (SearchSpace_build_connected g0 Hs Hc py_hash c w Hn)
    as (w' & Hbuild & Hlv & Hlen & Htake & Hdone).
  exists w'. split; [done|]. split; [done|]. split; [done|]. split; [done|]. split.
  - intros i Hi. destruct (Hdone i Hi) as (lv & Hlv' & Hd).
    by eapply level_done_num_partitions.
  - intros -> i Hi. destruct (Hdone i Hi) as (lv & Hlv' & _ & s & Hs' & _ & Hs2).
    by exists lv, s.
Qed.

(** ** The 4-cycle *)

Lemma cycle4_level_sizes :
  length (level_pure cycle4 0) = 1%nat ∧ length (level_pure cycle4 1) = 4%nat ∧
  length (level_pure cycle4 2) = 6%nat ∧ length (level_pure cycle4 3) = 1%nat.
Proof. by vm_compute. Qed.

(** C1 as the code has it: the search space of the 4-cycle has four levels
    with 1, 4, 6 and 1 partition nodes, 12 in all, whatever the hash
    function and whether or not the levels are compressed. *)
Theorem cycle4_levels (py_hash : list (list fset) → Z) (c : bool) (w : world) :
  ∃ l0 l1 l2 l3 w',
    SearchSpace_build py_hash (mkSpace cycle4 c) w = (Ok [l0; l1; l2; l3], w') ∧
    _levels w' = Some [l0; l1; l2; l3] ∧
    num_partitions l0 (w_heap w') = (Ok 1%nat, w_heap w') ∧
    num_partitions l1 (w_heap w') = (Ok 4%nat, w_heap w') ∧
    num_partitions l2 (w_heap w') = (Ok 6%nat, w_heap w') ∧
    num_partitions l3 (w_heap w') = (Ok 1%nat, w_heap w') ∧
    SearchSpace_num_partitions None w' = (Ok 12%nat, w').
Proof.
  destruct (SearchSpace_build_counts py_hash cycle4 c w cycle4_simple cycle4_connected)
    as (w' & Hbuild & Hlv & _ & _ & Hcount & _); [done|].
  change (Nat.max (order cycle4) 2) with 4%nat in *.
  destruct cycle4_level_sizes as (H0 & H1 & H2 & H3).
  pose proof (Hcount 0%nat ltac:(lia)) as C0. rewrite H0 in C0.
  pose proof (Hcount 1%nat ltac:(lia)) as C1. rewrite H1 in C1.
  pose proof (Hcount 2%nat ltac:(lia)) as C2. rewrite H2 in C2.
  pose proof (Hcount 3%nat ltac:(lia)) as C3. rewrite H3 in C3.
  rewrite Nat.add_0_r in C0.
  replace (length (w_heap w) + 1)%nat with (S (length (w_heap w))) in C1 by lia.
  replace (length (w_heap w) + 2)%nat with (S (S (length (w_heap w)))) in C2 by lia.
  replace (length (w_heap w) + 3)%nat with (S (S (S (length (w_heap w))))) in C3 by lia.
  eexists _, _, _, _, w'. split; [exact Hbuild|]. split; [exact Hlv|].
  split; [exact C0|]. split; [exact C1|]. split; [exact C2|]. split; [exact C3|].
  destruct w' as [lvls h']. cbn [_levels w_heap] in *. subst lvls.
  unfold SearchSpace_num_partitions. erewrite bind_Ok by reflexivity.
  cbn [_levels]. apply on_heap_run. simpl. unfold bind. rewrite C0, C1, C2, C3. done.
Qed.

(** The claim of C1 fails: the third level of the 4-cycle has six
    partition nodes, not three, and the total is twelve, not nine. *)
Lemma cycle4_levels_not_1_4_3_1 :
  let w := (SearchSpace_build const_hash (mkSpace cycle4 true) empty_world).2 in
  level_counts w = Some [1; 4; 6; 1]%nat ∧
  level_counts w ≠ Some [1; 4; 3; 1]%nat ∧
  (SearchSpace_num_partitions None w).1 = Ok 12%nat.
Proof. by vm_compute. Qed.

(** ** The shape of a built search space *)

Lemma no_adjacent_no_edges {V} `{EqDecision V} (g : Graph V) :
  (∀ a b, ¬ adjacent g a b) → edges g = [].
Proof.
  intros Hno. destruct (edges g) as [|[a b] l] eqn:He; [done|].
  destruct (Hno a b). apply edges_adjacent. rewrite He. by left.
Qed.

(** C2 as the code has it: for a connected graph with [n >= 2] nodes
    [build] returns exactly [n] levels; the first and the last hold one
    partition node each, and the node of the last level has no edge. *)
Theorem build_levels_connected
    (py_hash : list (list fset) → Z) (g0 : Graph Z) (c : bool) (w : world) :
  simple_graph g0 → connected g0 → (2 ≤ order g0)%nat →
  ∃ ls w' first last,
    SearchSpace_build py_hash (mkSpace g0 c) w = (Ok ls, w') ∧
    _levels w' = Some ls ∧ length ls = order g0 ∧
    ls !! 0%nat = Some first ∧ ls !! (order g0 - 1)%nat = Some last ∧
    num_partitions first (w_heap w') = (Ok 1%nat, w_heap w') ∧
    num_partitions last (w_heap w') = (Ok 1%nat, w_heap w') ∧
    (∀ x, x ∈ level_pure g0 (order g0 - 1) → edges (_graph x) = []) ∧
    (c = false →
     ∃ lv0 lv s0 s,
       w_heap w' !! first = Some lv0 ∧ _nodes lv0 = Some s0 ∧ length s0 = 1%nat ∧
       w_heap w' !! last = Some lv ∧ _nodes lv = Some s ∧ length s = 1%nat ∧
       ∀ p, p ∈ s → edges (_graph p.2) = []).
Proof.
  intros Hs Hc Hn.
  destruct (SearchSpace_build_counts py_hash g0 c w Hs Hc ltac:(lia))
    as (w' & Hbuild & Hlv & _ & _ & Hcount & Hnodes).
  replace (Nat.max (order g0) 2) with (order g0) in * by lia.
  set (b := length (w_heap w)) in *.
  assert (H0 : length (level_pure g0 0) = 1%nat).
  { destruct (level_pure_0 g0 Hs Hc) as (root & _ & -> & _). done. }
  assert (Hlast : length (level_pure g0 (order g0 - 1)) = 1%nat).
  { pose proof (level_pure_last g0 Hs Hc (order g0 - 2) ltac:(lia)) as Hle.
    replace (S (order g0 - 2)) with (order g0 - 1)%nat in Hle by lia.
    pose proof (level_pure_nonempty g0 Hs Hc (order g0 - 1) ltac:(lia)) as Hne.
    destruct (level_pure g0 (order g0 - 1)) as [|? [|]]; simpl in *; [done|done|lia]. }
  assert (Hedges : ∀ x, x ∈ level_pure g0 (order g0 - 1) → edges (_graph x) = []).
  { intros x Hx. destruct (level_pure_partition g0 Hs Hc _ x Hx) as [Hp Ho].
    apply no_adjacent_no_edges. intros a' b'.
    apply (order_le1_no_adjacent g0 x Hp). lia. }
  exists (seq b (order g0)), w', b, (b + (order g0 - 1))%nat.
  split; [done|]. split; [done|]. split; [by rewrite length_seq|].
  split; [rewrite lookup_seq_lt by lia; f_equal; lia|].
  split; [by rewrite lookup_seq_lt by lia|].
  pose proof (Hcount 0%nat ltac:(lia)) as Hc0. rewrite H0, Nat.add_0_r in Hc0.
  pose proof (Hcount (order g0 - 1)%nat ltac:(lia)) as Hc1. rewrite Hlast in Hc1.
  split; [exact Hc0|]. split; [exact Hc1|].
  split; [done|].
  intros ->.
  destruct (Hnodes eq_refl 0%nat ltac:(lia)) as (lv0 & s0 & Hlv0 & Hs0 & Hs02).
  destruct (Hnodes eq_refl (order g0 - 1)%nat ltac:(lia)) as (lv & s & Hlv' & Hs' & Hs2).
  rewrite Nat.add_0_r in Hlv0.
  exists lv0, lv, s0, s. split; [done|]. split; [done|].
  split; [by rewrite <- (length_fmap snd), Hs02|].
  split; [done|]. split; [done|].
  split; [by rewrite <- (length_fmap snd), Hs2|].
  intros p Hp. apply Hedges. rewrite <- Hs2. by apply list_elem_of_fmap_2.
Qed.

Lemma build_levels_connected_witness :
  ∃ ls w', SearchSpace_build const_hash (mkSpace path3 false) empty_world = (Ok ls, w') ∧
           length ls = 3%nat.
Proof.
  destruct (build_levels_connected const_hash path3 false empty_world
              path3_simple path3_connected)
    as (ls & w' & first & last & Hbuild & _ & Hlen & _).
  - vm_compute. lia.
  - exists ls, w'. split; [exact Hbuild|exact Hlen].
Defined.

(** The claim of C2 fails for a graph with a single node: [build] returns
    two levels and the last one holds no partition node. *)
Lemma build_single_node_two_levels :
  let g := add_node 7 [] in
  connected g ∧ order g = 1%nat ∧
  (SearchSpace_build const_hash (mkSpace g false) empty_world).1 = Ok [0; 1]%nat ∧
  level_counts (SearchSpace_build const_hash (mkSpace g false) empty_world).2
  = Some [1; 0]%nat.
Proof.
  intros g. split; [by apply connectedb_sound|]. by vm_compute.
Qed.

(** ** Expanding and building twice *)




(** ** Counting set partitions *)

Lemma length_bind_const {A B} (f : A → list B) (l : list A) c :
  (∀ x, x ∈ l → length (f x) = c) → length (l ≫= f) = (c * length l)%nat.
Proof.
  induction l as [|x l IH]; intros Hf; [simpl; lia|].
  change ((x :: l) ≫= f) with (f x ++ (l ≫= f)). simpl length.
  rewrite length_app, (Hf x), IH; [lia| |by left].
  intros y Hy. apply Hf. by right.
Qed.

Lemma is_partition_block_subseteq U P b : is_partition U P → b ∈ P → b ⊆ U.
Proof. intros (_ & _ & Hcov) Hb u Hu. apply Hcov. by exists b. Qed.

Lemma is_partition_block_unique U P a b u :
  is_partition U P → a ∈ P → b ∈ P → u ∈ a → u ∈ b → a = b.
Proof.
  intros (_ & Hdis & _) Ha Hb Hua Hub.
  destruct (decide (a = b)) as [|Hne]; [done|].
  specialize (Hdis a b Ha Hb Hne). exfalso. clear -Hdis Hua Hub. set_solver.
Qed.

Section AddElement.
Variables (u : Z) (U' : fset).
Hypothesis Hu : u ∉ U'.

Lemma partition_add_singleton P :
  is_partition U' P →
  is_partition ({[u]} ∪ U') ({[ {[u]} ]} ∪ P) ∧ ({[u]} : fset) ∉ P.
Proof.
  intros HP. pose proof HP as (Hne & Hdis & Hcov).
  assert (Hnot : ({[u]} : fset) ∉ P).
  { intros Hin. apply Hu. apply (is_partition_block_subseteq U' P _ HP Hin).
    by apply elem_of_singleton. }
  split; [|done]. split; [|split].
  - intros b Hb. apply elem_of_union in Hb as [Hb|Hb]; [|by apply Hne].
    apply elem_of_singleton in Hb as ->. clear. set_solver.
  - intros a b Ha Hb Hab.
    apply elem_of_union in Ha as [Ha|Ha]; apply elem_of_union in Hb as [Hb|Hb].
    + apply elem_of_singleton in Ha, Hb. congruence.
    + apply elem_of_singleton in Ha as ->.
      pose proof (is_partition_block_subseteq U' P b HP Hb). clear -H Hu. set_solver.
    + apply elem_of_singleton in Hb as ->.
      pose proof (is_partition_block_subseteq U' P a HP Ha). clear -H Hu. set_solver.
    + by apply Hdis.
  - intros v. rewrite elem_of_union, elem_of_singleton, Hcov. split.
    + intros [->|(b & Hb & Hv)].
      * exists {[u]}. split; [apply elem_of_union; left; by apply elem_of_singleton|].
        by apply elem_of_singleton.
      * exists b. split; [apply elem_of_union; by right|done].
    + intros (b & Hb & Hv). apply elem_of_union in Hb as [Hb|Hb].
      * apply elem_of_singleton in Hb as ->. left. by apply elem_of_singleton in Hv.
      * right. by exists b.
Qed.

Lemma partition_join_block P b :
  is_partition U' P → b ∈ P →
  is_partition ({[u]} ∪ U') (join_block u P b) ∧ {[u]} ∪ b ∉ P ∖ {[b]}.
Proof.
  intros HP Hb. pose proof HP as (Hne & Hdis & Hcov).
  assert (Hnot : {[u]} ∪ b ∉ P ∖ {[b]}).
  { intros Hin. apply elem_of_difference in Hin as [Hin _]. apply Hu.
    apply (is_partition_block_subseteq U' P _ HP Hin). clear. set_solver. }
  split; [|done]. unfold join_block. split; [|split].
  - intros a Ha. apply elem_of_union in Ha as [Ha|Ha].
    + apply elem_of_singleton in Ha as ->. clear. set_solver.
    + apply elem_of_difference in Ha as [Ha _]. by apply Hne.
  - intros a c Ha Hc Hac.
    apply elem_of_union in Ha as [Ha|Ha]; apply elem_of_union in Hc as [Hc|Hc].
    + apply elem_of_singleton in Ha, Hc. congruence.
    + apply elem_of_singleton in Ha as ->.
      apply elem_of_difference in Hc as [Hc Hcb]. rewrite not_elem_of_singleton in Hcb.
      pose proof (is_partition_block_subseteq U' P c HP Hc) as Hsub.
      pose proof (Hdis b c Hb Hc ltac:(congruence)) as Hd.
      clear -Hsub Hd Hu. set_solver.
    + apply elem_of_singleton in Hc as ->.
      apply elem_of_difference in Ha as [Ha Hab]. rewrite not_elem_of_singleton in Hab.
      pose proof (is_partition_block_subseteq U' P a HP Ha) as Hsub.
      pose proof (Hdis a b Ha Hb Hab) as Hd.
      clear -Hsub Hd Hu. set_solver.
    + apply elem_of_difference in Ha as [Ha _]. apply elem_of_difference in Hc as [Hc _].
      by apply Hdis.
  - intros v. rewrite elem_of_union, elem_of_singleton, Hcov. split.
    + intros [->|(a & Ha & Hv)].
      * exists ({[u]} ∪ b). split; [apply elem_of_union; left; by apply elem_of_singleton|].
        clear. set_solver.
      * destruct (decide (a = b)) as [->|Hab].
        -- exists ({[u]} ∪ b). split; [apply elem_of_union; left; by apply elem_of_singleton|].
           clear -Hv. set_solver.
        -- exists a. split; [|done]. apply elem_of_union. right.
           apply elem_of_difference. split; [done|]. by apply not_elem_of_singleton.
    + intros (a & Ha & Hv). apply elem_of_union in Ha as [Ha|Ha].
      * apply elem_of_singleton in Ha as ->.
        apply elem_of_union in Hv as [Hv|Hv]; [left; by apply elem_of_singleton in Hv|].
        right. by exists b.
      * apply elem_of_difference in Ha as [Ha _]. right. by exists a.
Qed.

(** Every partition of [{u} ∪ U'] arises in one of the two ways. *)
Lemma partition_remove_element P :
  is_partition ({[u]} ∪ U') P →
  (∃ P', is_partition U' P' ∧ P = {[ {[u]} ]} ∪ P' ∧ size P = S (size P')) ∨
  (∃ P' b, is_partition U' P' ∧ b ∈ P' ∧ P = join_block u P' b ∧ size P = size P').
Proof.
  intros HP. pose proof HP as (Hne & Hdis & Hcov).
  destruct (proj1 (Hcov u)) as (bu & Hbu & Hubu); [clear; set_solver|].
  assert (Hother : ∀ a, a ∈ P → a ≠ bu → (u ∉ a) ∧ a ⊆ U').
  { intros a Ha Hab.
    assert (u ∉ a).
    { intros Hua. apply Hab.
      exact (is_partition_block_unique _ P a bu u HP Ha Hbu Hua Hubu). }
    split; [done|].
    pose proof (is_partition_block_subseteq _ P a HP Ha) as Hsub.
    clear -Hsub H. set_solver. }
  pose proof (is_partition_block_subseteq _ P bu HP Hbu) as Hbusub.
  destruct (decide (bu = {[u]})) as [->|Hnsing].
  - left. exists (P ∖ {[ {[u]} ]}). split; [|split].
    + split; [|split].
      * intros b Hb. apply elem_of_difference in Hb as [Hb _]. by apply Hne.
      * intros a b Ha Hb. apply elem_of_difference in Ha as [Ha _].
        apply elem_of_difference in Hb as [Hb _]. by apply Hdis.
      * intros v. split.
        -- intros Hv. destruct (proj1 (Hcov v)) as (b & Hb & Hvb); [clear -Hv; set_solver|].
           exists b. split; [|done]. apply elem_of_difference. split; [done|].
           apply not_elem_of_singleton. intros ->.
           apply elem_of_singleton in Hvb as ->. done.
        -- intros (b & Hb & Hv). apply elem_of_difference in Hb as [Hb Hbn].
           apply not_elem_of_singleton in Hbn.
           destruct (Hother b Hb Hbn) as [_ Hsub]. by apply Hsub.
    + apply set_eq. intros a. rewrite elem_of_union, elem_of_difference, elem_of_singleton.
      destruct (decide (a = {[u]})) as [->|]; naive_solver.
    + rewrite size_difference by (clear -Hbu; set_solver).
      rewrite size_singleton.
      assert (size P ≠ 0)%nat; [|lia].
      apply size_non_empty_iff. intros Hempty. rewrite Hempty in Hbu.
      by apply elem_of_empty in Hbu.
  - right. set (b' := bu ∖ {[u]}).
    assert (Hb'ne : b' ≠ ∅).
    { intros Hemp. apply Hnsing. apply set_eq. intros v.
      rewrite elem_of_singleton. split.
      - intros Hv. destruct (decide (v = u)) as [|Hvu]; [done|].
        assert (v ∈ b') by (unfold b'; clear -Hv Hvu; set_solver).
        rewrite Hemp in H. by apply elem_of_empty in H.
      - by intros ->. }
    assert (Hb'P : b' ∉ P).
    { intros Hin. destruct (set_choose_L b' Hb'ne) as (v & Hv).
      assert (b' = bu).
      { apply (is_partition_block_unique _ P b' bu v HP Hin Hbu Hv).
        unfold b' in Hv. apply elem_of_difference in Hv. tauto. }
      assert (u ∈ b') by (by rewrite H).
      unfold b' in H0. clear -H0. set_solver. }
    assert (Hjoin : {[u]} ∪ b' = bu).
    { unfold b'. apply set_eq. intros v.
      rewrite elem_of_union, elem_of_singleton, elem_of_difference, elem_of_singleton.
      destruct (decide (v = u)) as [->|]; naive_solver. }
    exists ({[b']} ∪ (P ∖ {[bu]})), b'. split; [|split; [|split]].
    + split; [|split].
      * intros b Hb. apply elem_of_union in Hb as [Hb|Hb].
        -- by apply elem_of_singleton in Hb as ->.
        -- apply elem_of_difference in Hb as [Hb _]. by apply Hne.
      * intros a b Ha Hb Hab.
        apply elem_of_union in Ha as [Ha|Ha]; apply elem_of_union in Hb as [Hb|Hb].
        -- apply elem_of_singleton in Ha, Hb. congruence.
        -- apply elem_of_singleton in Ha as ->.
           apply elem_of_difference in Hb as [Hb Hbn]. apply not_elem_of_singleton in Hbn.
           pose proof (Hdis bu b Hbu Hb ltac:(congruence)) as Hd.
           unfold b'. clear -Hd. set_solver.
        -- apply elem_of_singleton in Hb as ->.
           apply elem_of_difference in Ha as [Ha Han]. apply not_elem_of_singleton in Han.
           pose proof (Hdis a bu Ha Hbu Han) as Hd.
           unfold b'. clear -Hd. set_solver.
        -- apply elem_of_difference in Ha as [Ha _].
           apply elem_of_difference in Hb as [Hb _]. by apply Hdis.
      * intros v. split.
        -- intros Hv. destruct (proj1 (Hcov v)) as (b & Hb & Hvb); [clear -Hv; set_solver|].
           destruct (decide (b = bu)) as [->|Hbn].
           ++ exists b'. split; [apply elem_of_union; left; by apply elem_of_singleton|].
              unfold b'. apply elem_of_difference. split; [done|].
              apply not_elem_of_singleton. intros ->. done.
           ++ exists b. split; [|done]. apply elem_of_union. right.
              apply elem_of_difference. split; [done|]. by apply not_elem_of_singleton.
        -- intros (b & Hb & Hv). apply elem_of_union in Hb as [Hb|Hb].
           ++ apply elem_of_singleton in Hb as ->. unfold b' in Hv.
              apply elem_of_difference in Hv as [Hv Hvu]. apply not_elem_of_singleton in Hvu.
              specialize (Hbusub v Hv). clear -Hbusub Hvu. set_solver.
           ++ apply elem_of_difference in Hb as [Hb Hbn]. apply not_elem_of_singleton in Hbn.
              destruct (Hother b Hb Hbn) as [_ Hsub]. by apply Hsub.
    + apply elem_of_union. left. by apply elem_of_singleton.
    + unfold join_block. rewrite Hjoin. apply set_eq. intros a.
      rewrite !elem_of_union, !elem_of_difference, !elem_of_union, !elem_of_singleton,
        !elem_of_difference, !elem_of_singleton.
      destruct (decide (a = bu)) as [->|]; [naive_solver|].
      destruct (decide (a = b')) as [->|]; naive_solver.
    + rewrite size_union.
      * rewrite size_singleton, size_difference by (clear -Hbu; set_solver).
        rewrite size_singleton.
        assert (size P ≠ 0)%nat; [|lia].
        apply size_non_empty_iff. intros Hempty. rewrite Hempty in Hbu.
        by apply elem_of_empty in Hbu.
      * clear -Hb'P. set_solver.
Qed.
End AddElement.

Lemma is_partition_empty P : is_partition ∅ P → P = ∅.
Proof.
  intros (Hne & _ & Hcov). apply set_eq. intros b. split; [|by intros ?%elem_of_empty].
  intros Hb. destruct (set_choose_L b (Hne b Hb)) as (u & Hu).
  exfalso. apply (not_elem_of_empty (C:=fset) u). apply Hcov. by exists b.
Qed.

Lemma all_parts_sound us k P :
  NoDup us → P ∈ all_parts us k → is_partition (list_to_set us) P ∧ size P = k.
Proof.
  revert k P. induction us as [|u us IH]; intros k P Hnd HP.
  - destruct k; simpl in HP; [|by apply elem_of_nil in HP].
    apply list_elem_of_singleton in HP as ->. split; [|apply size_empty].
    split; [|split].
    + intros b Hb. by apply elem_of_empty in Hb.
    + intros a b Ha. by apply elem_of_empty in Ha.
    + intros v. split; [by intros ?%elem_of_empty|].
      intros (b & Hb & _). by apply elem_of_empty in Hb.
  - apply NoDup_cons in Hnd as [Hu Hnd].
    assert (Hu' : u ∉ (list_to_set us : fset)) by (by rewrite elem_of_list_to_set).
    simpl in HP. apply elem_of_app in HP as [HP|HP].
    + destruct k as [|k]; [by apply elem_of_nil in HP|].
      apply list_elem_of_fmap in HP as (P' & -> & HP').
      destruct (IH k P' Hnd HP') as [Hpart Hsize].
      destruct (partition_add_singleton u _ Hu' P' Hpart) as [Hnew Hnot].
      split; [exact Hnew|].
      rewrite size_union by (clear -Hnot; set_solver).
      by rewrite size_singleton, Hsize.
    + apply list_elem_of_bind in HP as (P' & HP & HP').
      apply list_elem_of_fmap in HP as (b & -> & Hb). apply elem_of_elements in Hb.
      destruct (IH k P' Hnd HP') as [Hpart Hsize].
      destruct (partition_join_block u _ Hu' P' b Hpart Hb) as [Hnew Hnot].
      split; [exact Hnew|]. unfold join_block.
      rewrite size_union by (clear -Hnot; set_solver).
      rewrite size_singleton, size_difference by (clear -Hb; set_solver).
      rewrite size_singleton, Hsize.
      assert (size P' ≠ 0)%nat; [|lia].
      apply size_non_empty_iff. intros Hempty. rewrite Hempty in Hb.
      by apply elem_of_empty in Hb.
Qed.

Lemma all_parts_length us k :
  NoDup us → length (all_parts us k) = stirling2 (length us) k.
Proof.
  revert k. induction us as [|u us IH]; intros k Hnd.
  - by destruct k.
  - pose proof Hnd as Hnd0. apply NoDup_cons in Hnd as [Hu Hnd].
    simpl all_parts. rewrite length_app.
    rewrite (length_bind_const _ _ k).
    2:{ intros P HP. rewrite length_fmap.
        by destruct (all_parts_sound us k P Hnd HP) as [_ <-]. }
    rewrite IH by done. destruct k as [|k]; simpl; [lia|].
    rewrite length_fmap, IH by done. lia.
Qed.

Lemma all_parts_complete us k P :
  NoDup us → is_partition (list_to_set us) P → size P = k → P ∈ all_parts us k.
Proof.
  revert k P. induction us as [|u us IH]; intros k P Hnd HP Hk.
  - apply is_partition_empty in HP as ->. rewrite size_empty in Hk. subst k. by left.
  - apply NoDup_cons in Hnd as [Hu Hnd].
    assert (Hu' : u ∉ (list_to_set us : fset)) by (by rewrite elem_of_list_to_set).
    simpl in HP. simpl all_parts. apply elem_of_app.
    destruct (partition_remove_element u _ Hu' P HP)
      as [(P' & HP' & -> & Hsize)|(P' & b & HP' & Hb & -> & Hsize)].
    + left. rewrite <- Hk, Hsize. apply list_elem_of_fmap. exists P'. split; [done|].
      by apply IH.
    + right. apply list_elem_of_bind. exists P'. split.
      * apply list_elem_of_fmap. exists b. split; [done|]. by apply elem_of_elements.
      * apply IH; [done..|congruence].
Qed.

(** There are at most [S(n, k)] partitions of an [n]-element set into [k]
    blocks. *)
Lemma partitions_le_stirling (U : fset) k (l : list (gset fset)) :
  NoDup l → (∀ P, P ∈ l → is_partition U P ∧ size P = k) →
  (length l ≤ stirling2 (size U) k)%nat.
Proof.
  intros Hnd Hl.
  change (size U) with (length (elements U)).
  rewrite <- (all_parts_length (elements U) k) by apply NoDup_elements.
  apply submseteq_length, NoDup_submseteq; [done|].
  intros P HP. destruct (Hl P HP) as [Hpart Hsize].
  apply all_parts_complete; [apply NoDup_elements| |done].
  by rewrite list_to_set_elements_L.
Qed.

(** ** The upper bound on the size of a level *)

Lemma elem_of_blocks x a : a ∈ blocks x ↔ a ∈ nodes (_graph x).
Proof. unfold blocks. apply elem_of_list_to_set. Qed.

Lemma blocks_is_partition g0 x :
  partition_node g0 x → is_partition (vertex_set g0) (blocks x).
Proof.
  intros ([_ Hne] & Hdis & Hcov & _). split; [|split].
  - intros b Hb. apply Hne. by apply elem_of_blocks.
  - intros a b Ha Hb. apply Hdis; by apply elem_of_blocks.
  - intros u. unfold vertex_set. rewrite elem_of_list_to_set, (Hcov u).
    split; intros (b & Hb & Hu); exists b; (split; [by apply elem_of_blocks|done]).
Qed.

Lemma size_blocks x : node_ok x → size (blocks x) = order (_graph x).
Proof.
  intros [[Hnd _] _]. unfold blocks. rewrite size_list_to_set by done.
  unfold nodes, order. by rewrite length_fmap.
Qed.

Lemma blocks_eq g0 x y :
  partition_node g0 x → partition_node g0 y → blocks x = blocks y →
  SearchSpaceNode_eq x y = true.
Proof.
  intros (Hokx & _ & _ & Hix & _) (Hoky & _ & _ & Hiy & _) Hb.
  apply SearchSpaceNode_eq_spec; [done..|].
  intros a b. rewrite (Hix a b), (Hiy a b), <- !elem_of_blocks, Hb. done.
Qed.

Lemma NoDup_blocks_level g0 j :
  simple_graph g0 → connected g0 → NoDup (blocks <$> level_pure g0 j).
Proof.
  intros Hs Hc. apply NoDup_alt. intros i1 i2 P H1 H2.
  apply list_lookup_fmap_Some in H1 as (x1 & -> & Hx1).
  apply list_lookup_fmap_Some in H2 as (x2 & Heq & Hx2).
  pose proof (level_pure_pairwise_ne g0 Hs Hc j) as Hne.
  destruct (level_pure_partition g0 Hs Hc j x1) as [Hp1 _];
    [by eapply list_elem_of_lookup_2|].
  destruct (level_pure_partition g0 Hs Hc j x2) as [Hp2 _];
    [by eapply list_elem_of_lookup_2|].
  destruct (Nat.lt_trichotomy i1 i2) as [Hlt|[->|Hlt]]; [|done|].
  - specialize (Hne i1 i2 x1 x2 Hlt Hx1 Hx2).
    by rewrite (blocks_eq g0 x1 x2 Hp1 Hp2 Heq) in Hne.
  - specialize (Hne i2 i1 x2 x1 Hlt Hx2 Hx1).
    by rewrite (blocks_eq g0 x2 x1 Hp2 Hp1 (eq_sym Heq)) in Hne.
Qed.

Lemma size_vertex_set (g0 : Graph Z) : graph_wf g0 → size (vertex_set g0) = order g0.
Proof.
  intros [Hnd _]. unfold vertex_set. rewrite size_list_to_set by done.
  unfold nodes, order. by rewrite length_fmap.
Qed.

(** A level holds at most as many partition nodes as there are partitions
    of the nodes into that many clusters. *)
Lemma level_pure_le_stirling g0 j :
  simple_graph g0 → connected g0 →
  (length (level_pure g0 j) ≤ stirling2 (order g0) (order g0 - j))%nat.
Proof.
  intros Hs Hc. rewrite <- (length_fmap blocks), <- (size_vertex_set g0) at 1 by apply Hs.
  rewrite <- (size_vertex_set g0) by apply Hs.
  apply partitions_le_stirling; [by apply NoDup_blocks_level|].
  intros P HP. apply list_elem_of_fmap in HP as (x & -> & Hx).
  destruct (level_pure_partition g0 Hs Hc j x Hx) as [Hp Ho].
  split; [by apply blocks_is_partition|].
  rewrite size_blocks by apply Hp. rewrite (size_vertex_set g0) by apply Hs. lia.
Qed.

(** ** A spanning tree of a connected graph *)

Lemma rtc_exit {A} (R : relation A) (S : A → Prop) `{∀ a, Decision (S a)} a b :
  rtc R a b → S a → ¬ S b → ∃ p v, S p ∧ ¬ S v ∧ R p v.
Proof.
  induction 1 as [|a c b Hac _ IH]; intros Ha Hb; [done|].
  destruct (decide (S c)) as [Hc|Hc].
  - by apply IH.
  - by exists a, c.
Qed.

Lemma tree_order_vertices g r ord :
  graph_wf g → tree_order g r ord →
  NoDup (ord_vertices r ord) ∧ ∀ u, u ∈ ord_vertices r ord → u ∈ nodes g.
Proof.
  intros Hwf. induction 1 as [Hr|v p ord Hord [IHnd IHin] Hv Hp Hadj].
  - split; [apply NoDup_singleton|].
    intros u Hu. apply list_elem_of_singleton in Hu as ->. done.
  - split.
    + change (ord_vertices r ((v, p) :: ord)) with (v :: ord_vertices r ord).
      by constructor.
    + intros u Hu. change (ord_vertices r ((v, p) :: ord)) with (v :: ord_vertices r ord) in Hu.
      apply elem_of_cons in Hu as [->|Hu]; [|by apply IHin].
      apply Hwf in Hadj. by eapply adjacent_node.
Qed.

Lemma filter_shrink {A} (P Q : A → Prop) `{∀ x, Decision (P x)} `{∀ x, Decision (Q x)}
    (l : list A) v :
  (∀ x, Q x → P x) → v ∈ l → P v → ¬ Q v →
  (length (filter Q l) < length (filter P l))%nat.
Proof.
  intros HQP Hv HPv HQv.
  assert (filter Q l = filter Q (filter P l)) as ->.
  { clear Hv. induction l as [|x l IH]; [done|].
    rewrite !filter_cons. destruct (decide (P x)) as [HPx|HPx].
    - rewrite filter_cons. destruct (decide (Q x)); by rewrite IH.
    - destruct (decide (Q x)) as [HQx|]; [by destruct HPx; apply HQP|done]. }
  apply (length_filter_lt _ _ v); [|done]. by apply list_elem_of_filter.
Qed.

Lemma tree_order_grow (g : Graph Z) r :
  graph_wf g → connected g →
  ∀ m ord, tree_order g r ord →
    (length (filter (λ u, u ∉ ord_vertices r ord) (nodes g)) ≤ m)%nat →
    ∃ ord', tree_order g r ord' ∧ ∀ u, u ∈ nodes g → u ∈ ord_vertices r ord'.
Proof.
  intros Hwf Hconn m. induction m as [|m IH]; intros ord Hord Hm.
  - exists ord. split; [done|]. intros u Hu.
    destruct (decide (u ∈ ord_vertices r ord)) as [|Hnot]; [done|].
    assert (Hin : u ∈ filter (λ u, u ∉ ord_vertices r ord) (nodes g))
      by (by apply list_elem_of_filter).
    destruct (filter _ (nodes g)); [by apply elem_of_nil in Hin|simpl in Hm; lia].
  - destruct (decide (Forall (λ u, u ∈ ord_vertices r ord) (nodes g))) as [Hall|Hnall].
    { exists ord. split; [done|]. by apply Forall_forall. }
    apply not_Forall_Exists in Hnall; [|apply _].
    apply Exists_exists in Hnall as (u & Hu & Hnot). simpl in Hnot.
    assert (Hr : r ∈ nodes g).
    { apply (tree_order_vertices g r ord Hwf Hord). unfold ord_vertices.
      apply elem_of_app. right. by left. }
    destruct (rtc_exit (adjacent g) (λ a, a ∈ ord_vertices r ord) r u)
      as (p & v & Hp & Hv & Hpv).
    + by apply Hconn.
    + unfold ord_vertices. apply elem_of_app. right. by left.
    + done.
    + apply (IH ((v, p) :: ord)); [by constructor|].
      assert (Hvg : v ∈ nodes g) by (apply Hwf in Hpv; by eapply adjacent_node).
      pose proof (filter_shrink (λ u, u ∉ ord_vertices r ord)
                    (λ u, u ∉ ord_vertices r ((v, p) :: ord)) (nodes g) v) as Hlt.
      simpl in Hlt. specialize (Hlt ltac:(intros x Hx Hx'; apply Hx; by right) Hvg Hv).
      specialize (Hlt ltac:(intros Hx; apply Hx; by left)). lia.
Qed.

Lemma tree_order_exists (g : Graph Z) :
  graph_wf g → connected g → order g ≠ 0%nat →
  ∃ r ord, tree_order g r ord ∧ NoDup (ord_vertices r ord) ∧
           (∀ u, u ∈ ord_vertices r ord ↔ u ∈ nodes g) ∧
           S (length ord) = order g.
Proof.
  intros Hwf Hconn Hn.
  assert (∃ r, r ∈ nodes g) as [r Hr].
  { destruct (nodes g) as [|r l] eqn:Hnodes.
    - unfold order in Hn. rewrite <- (length_fmap fst) in Hn.
      fold (nodes g) in Hn. by rewrite Hnodes in Hn.
    - exists r. by left. }
  destruct (tree_order_grow g r Hwf Hconn (length (nodes g)) [])
    as (ord & Hord & Hall); [by constructor|apply length_filter|].
  destruct (tree_order_vertices g r ord Hwf Hord) as [Hnd Hin].
  exists r, ord. split; [done|]. split; [done|]. split; [intros u; split; [apply Hin|apply Hall]|].
  transitivity (length (ord_vertices r ord)).
  - unfold ord_vertices. rewrite length_app, length_fmap. simpl. lia.
  - unfold order. rewrite <- (length_fmap fst g).
    apply NoDup_same_length; [done|apply Hwf|]. split; auto.
Qed.

(** ** Choosing which vertices join their parent *)

Lemma choices_length len k : length (choices len k) = binom len k.
Proof.
  revert k. induction len as [|len IH]; intros [|k]; simpl; try done.
  - rewrite length_app, length_fmap, IH. simpl. destruct len; simpl; lia.
  - rewrite length_app, !length_fmap, !IH. lia.
Qed.

Lemma choices_spec len k bs :
  bs ∈ choices len k → length bs = len ∧ count_false bs = k.
Proof.
  revert k bs. induction len as [|len IH]; intros k bs Hbs; simpl in Hbs.
  - destruct k; [|by apply elem_of_nil in Hbs].
    apply list_elem_of_singleton in Hbs as ->. done.
  - apply elem_of_app in Hbs as [Hbs|Hbs].
    + apply list_elem_of_fmap in Hbs as (bs' & -> & Hbs').
      destruct (IH _ _ Hbs') as [Hl Hc]. split; [simpl; lia|].
      unfold count_false in *. rewrite filter_cons. by destruct (decide (true = false)).
    + destruct k as [|k]; [by apply elem_of_nil in Hbs|].
      apply list_elem_of_fmap in Hbs as (bs' & -> & Hbs').
      destruct (IH _ _ Hbs') as [Hl Hc]. split; [simpl; lia|].
      unfold count_false in *. rewrite filter_cons.
      destruct (decide (false = false)); [simpl; lia|done].
Qed.

Lemma choices_NoDup len k : NoDup (choices len k).
Proof.
  revert k. induction len as [|len IH]; intros k; simpl.
  - destruct k; [apply NoDup_singleton|apply NoDup_nil_2].
  - apply NoDup_app. split; [|split].
    + apply NoDup_fmap_2; [|apply IH]. by intros a b [= ->].
    + intros bs H1 H2. destruct k as [|k]; [by apply elem_of_nil in H2|].
      apply list_elem_of_fmap in H1 as (b1 & -> & _).
      apply list_elem_of_fmap in H2 as (b2 & [=] & _).
    + destruct k as [|k]; [apply NoDup_nil_2|].
      apply NoDup_fmap_2; [|apply IH]. by intros a b [= ->].
Qed.

Lemma count_true_false bs : (count_true bs + count_false bs = length bs)%nat.
Proof.
  unfold count_true, count_false. induction bs as [|[] bs IH]; [done|..];
    rewrite !filter_cons; simpl.
  - destruct (decide (true = true)); [|done]. destruct (decide (true = false)); [done|].
    simpl. lia.
  - destruct (decide (false = true)); [done|]. destruct (decide (false = false)); [|done].
    simpl. lia.
Qed.

(** ** The partitions along a spanning tree *)

Lemma block_of_spec U P p :
  is_partition U P → p ∈ U → block_of p P ∈ P ∧ p ∈ block_of p P.
Proof.
  intros (_ & _ & Hcov) Hp. apply Hcov in Hp as (b & Hb & Hpb).
  unfold block_of.
  destruct (filter (λ b, p ∈ b) (elements P)) as [|c l] eqn:Hf.
  - assert (Hin : b ∈ filter (λ b, p ∈ b) (elements P)).
    { apply list_elem_of_filter. split; [done|]. by apply elem_of_elements. }
    rewrite Hf in Hin. by apply elem_of_nil in Hin.
  - simpl. assert (Hin : c ∈ filter (λ b, p ∈ b) (elements P)) by (rewrite Hf; by left).
    apply list_elem_of_filter in Hin as [Hpc Hc]. apply elem_of_elements in Hc. done.
Qed.

Lemma tree_order_inv g r v p ord :
  tree_order g r ((v, p) :: ord) →
  tree_order g r ord ∧ (v ∉ ord_vertices r ord) ∧ p ∈ ord_vertices r ord ∧ adjacent g p v.
Proof. by inversion 1. Qed.

Lemma tree_part_partition g r ord bs :
  tree_order g r ord → length bs = length ord →
  is_partition (list_to_set (ord_vertices r ord)) (tree_part r ord bs).
Proof.
  intros Hord. revert bs. induction Hord as [Hr|v p ord Hord IH Hv Hp Hadj]; intros bs Hlen.
  - destruct bs; [|done]. simpl. unfold ord_vertices. simpl.
    split; [|split].
    + intros b Hb. apply elem_of_singleton in Hb as ->. clear. set_solver.
    + intros a b Ha Hb. apply elem_of_singleton in Ha, Hb. congruence.
    + intros u. split.
      * intros Hu. exists {[r]}. split; [by apply elem_of_singleton|].
        clear -Hu. set_solver.
      * intros (b & Hb & Hu). apply elem_of_singleton in Hb as ->. clear -Hu. set_solver.
  - destruct bs as [|b bs]; [done|]. simpl in Hlen.
    specialize (IH bs ltac:(lia)).
    change (ord_vertices r ((v, p) :: ord)) with (v :: ord_vertices r ord).
    rewrite list_to_set_cons.
    assert (Hv' : v ∉ (list_to_set (ord_vertices r ord) : fset))
      by (by rewrite elem_of_list_to_set).
    simpl. destruct b.
    + apply partition_join_block; [done..|].
      apply (block_of_spec _ _ _ IH). by apply elem_of_list_to_set.
    + by apply partition_add_singleton.
Qed.

Lemma elem_of_remove_vertex v P a :
  a ∈ remove_vertex v P ↔ a ≠ ∅ ∧ ∃ b, b ∈ P ∧ a = b ∖ {[v]}.
Proof.
  unfold remove_vertex. rewrite elem_of_difference, elem_of_map, not_elem_of_singleton.
  naive_solver.
Qed.

Section RemoveVertex.
Variables (v : Z) (U' : fset) (Q : gset fset).
Hypothesis Hv : v ∉ U'.
Hypothesis HQ : is_partition U' Q.

Lemma block_without b : b ∈ Q → b ∖ {[v]} = b.
Proof.
  intros Hb. pose proof (is_partition_block_subseteq U' Q b HQ Hb) as Hsub.
  clear -Hsub Hv. set_solver.
Qed.

Lemma remove_vertex_singleton : remove_vertex v ({[ {[v]} ]} ∪ Q) = Q.
Proof.
  pose proof HQ as (Hne & _).
  apply set_eq. intros a. rewrite elem_of_remove_vertex. split.
  - intros (Ha & b & Hb & ->). apply elem_of_union in Hb as [Hb|Hb].
    + apply elem_of_singleton in Hb as ->. destruct Ha. clear. set_solver.
    + by rewrite block_without.
  - intros Ha. split; [by apply Hne|]. exists a. split; [apply elem_of_union; by right|].
    by rewrite block_without.
Qed.

Lemma remove_vertex_join b : b ∈ Q → remove_vertex v (join_block v Q b) = Q.
Proof.
  intros Hb. pose proof HQ as (Hne & _).
  assert (Hvb : ({[v]} ∪ b) ∖ {[v]} = b).
  { pose proof (block_without b Hb) as Hw. clear -Hw. set_solver. }
  apply set_eq. intros a. rewrite elem_of_remove_vertex. unfold join_block. split.
  - intros (Ha & c & Hc & ->). apply elem_of_union in Hc as [Hc|Hc].
    + apply elem_of_singleton in Hc as ->. by rewrite Hvb.
    + apply elem_of_difference in Hc as [Hc _]. by rewrite block_without.
  - intros Ha. split; [by apply Hne|].
    destruct (decide (a = b)) as [->|Hab].
    + exists ({[v]} ∪ b). split; [apply elem_of_union; left; by apply elem_of_singleton|].
      by rewrite Hvb.
    + exists a. split; [|by rewrite block_without].
      apply elem_of_union. right. apply elem_of_difference.
      split; [done|]. by apply not_elem_of_singleton.
Qed.

Lemma singleton_not_joined b : b ∈ Q → ({[v]} : fset) ∉ join_block v Q b.
Proof.
  intros Hb Hin. pose proof HQ as (Hne & _). unfold join_block in Hin.
  apply elem_of_union in Hin as [Hin|Hin].
  - apply elem_of_singleton in Hin.
    pose proof (block_without b Hb) as Hw. specialize (Hne b Hb).
    clear -Hin Hw Hne. set_solver.
  - apply elem_of_difference in Hin as [Hin _].
    pose proof (is_partition_block_subseteq U' Q _ HQ Hin) as Hsub.
    clear -Hsub Hv. set_solver.
Qed.
End RemoveVertex.

Lemma tree_part_inj g r ord bs bs' :
  tree_order g r ord → length bs = length ord → length bs' = length ord →
  tree_part r ord bs = tree_part r ord bs' → bs = bs'.
Proof.
  intros Hord. revert bs bs'.
  induction Hord as [Hr|v p ord Hord IH Hv Hp Hadj]; intros bs bs' Hl Hl' Heq.
  - by destruct bs, bs'.
  - destruct bs as [|b bs], bs' as [|b' bs']; try done. simpl in Hl, Hl'.
    pose proof (tree_part_partition g r ord bs Hord ltac:(lia)) as HQ.
    pose proof (tree_part_partition g r ord bs' Hord ltac:(lia)) as HQ'.
    assert (Hv' : v ∉ (list_to_set (ord_vertices r ord) : fset))
      by (by rewrite elem_of_list_to_set).
    assert (Hp' : p ∈ (list_to_set (ord_vertices r ord) : fset))
      by (by rewrite elem_of_list_to_set).
    destruct (block_of_spec _ _ p HQ Hp') as [HB _].
    destruct (block_of_spec _ _ p HQ' Hp') as [HB' _].
    simpl in Heq.
    assert (Htail : tree_part r ord bs = tree_part r ord bs').
    { apply (f_equal (remove_vertex v)) in Heq.
      destruct b, b';
        rewrite ?(remove_vertex_join v _ _ Hv' HQ _ HB),
                ?(remove_vertex_join v _ _ Hv' HQ' _ HB'),
                ?(remove_vertex_singleton v _ _ Hv' HQ),
                ?(remove_vertex_singleton v _ _ Hv' HQ') in Heq; done. }
    assert (Hhead : b = b').
    { destruct b, b'; try done; exfalso.
      - apply (singleton_not_joined v _ _ Hv' HQ _ HB). rewrite Heq.
        apply elem_of_union. left. by apply elem_of_singleton.
      - apply (singleton_not_joined v _ _ Hv' HQ' _ HB'). rewrite <- Heq.
        apply elem_of_union. left. by apply elem_of_singleton. }
    f_equal; [done|]. apply IH; [lia..|done].
Qed.

(** ** Every partition along the spanning tree is enumerated *)

Lemma root_blocks (g0 : Graph Z) root :
  graph_wf g0 → SearchSpaceNode_init g0 = Ok root →
  blocks root = list_to_set ((λ n : Z, ({[n]} : fset)) <$> nodes g0).
Proof.
  intros Hwf Hroot.
  destruct (SearchSpaceNode_init_int g0) as (x & Hx & _ & Hn & _).
  assert (x = root) as -> by congruence.
  apply set_eq. intros l.
  rewrite elem_of_blocks, Hn, elem_of_list_to_set, list_elem_of_fmap. split.
  - intros [(n & Hin & ->)|(a & b & He & Hl)]; [by exists n|].
    destruct (edges_nodes g0 a b Hwf He). destruct Hl as [-> | ->]; eauto.
  - intros (n & -> & Hin). left. by exists n.
Qed.

Lemma tree_part_all_false r ord :
  tree_part r ord (replicate (length ord) false)
  = list_to_set ((λ n : Z, ({[n]} : fset)) <$> ord_vertices r ord).
Proof.
  induction ord as [|[v p] ord IH].
  - simpl. unfold ord_vertices. simpl. clear. set_solver.
  - change (tree_part r ((v, p) :: ord) (replicate (length ((v, p) :: ord)) false))
      with ({[ {[v]} ]} ∪ tree_part r ord (replicate (length ord) false)).
    rewrite IH.
    change (ord_vertices r ((v, p) :: ord)) with (v :: ord_vertices r ord).
    by rewrite fmap_cons, list_to_set_cons.
Qed.

Lemma count_true_0 bs : count_true bs = 0%nat → bs = replicate (length bs) false.
Proof.
  unfold count_true. induction bs as [|[] bs IH]; [done|..]; rewrite filter_cons.
  - by destruct (decide (true = true)).
  - destruct (decide (false = true)); [done|]. intros H. simpl. f_equal. by apply IH.
Qed.

Lemma first_true bs i :
  count_true bs = S i →
  ∃ k bs2, bs = replicate k false ++ true :: bs2 ∧
           count_true (replicate k false ++ false :: bs2) = i.
Proof.
  unfold count_true. induction bs as [|[] bs IH]; [done|..]; rewrite filter_cons.
  - destruct (decide (true = true)); [|done]. simpl. intros [= Hi].
    exists 0%nat, bs. split; [done|]. simpl. rewrite filter_cons.
    by destruct (decide (false = true)).
  - destruct (decide (false = true)); [done|]. intros Hi.
    destruct (IH Hi) as (k & bs2 & -> & Hc). exists (S k), bs2. split; [done|].
    simpl. rewrite filter_cons. by destruct (decide (false = true)).
Qed.

Lemma tree_order_suffix g r ord1 ord2 :
  tree_order g r (ord1 ++ ord2) → tree_order g r ord2.
Proof.
  induction ord1 as [|[v p] ord1 IH]; [done|]. simpl. intros H.
  apply tree_order_inv in H as [H _]. by apply IH.
Qed.

Lemma ord_vertices_app r ord1 ord2 :
  ord_vertices r (ord1 ++ ord2) = ord1.*1 ++ ord_vertices r ord2.
Proof. unfold ord_vertices. by rewrite fmap_app, <- app_assoc. Qed.

(** Setting the flag of one vertex, with no flag set after it, merges its
    singleton block with the block of its parent. *)
Lemma tree_part_step g r ord1 v p ord2 bs2 :
  tree_order g r (ord1 ++ (v, p) :: ord2) → length bs2 = length ord2 →
  let B := block_of p (tree_part r ord2 bs2) in
  let P' := tree_part r (ord1 ++ (v, p) :: ord2)
              (replicate (length ord1) false ++ false :: bs2) in
  let P := tree_part r (ord1 ++ (v, p) :: ord2)
             (replicate (length ord1) false ++ true :: bs2) in
  ({[v]} : fset) ∈ P' ∧ B ∈ P' ∧ p ∈ B ∧ v ∉ B ∧
  B ⊆ list_to_set (ord_vertices r ord2) ∧
  P = {[ {[v]} ∪ B ]} ∪ (P' ∖ {[ {[v]} ]} ∖ {[B]}).
Proof.
  intros Hord Hlen. simpl.
  set (Q := tree_part r ord2 bs2). set (B := block_of p Q).
  induction ord1 as [|[w pw] ord1 IH].
  - simpl in *. fold Q. fold B.
    apply tree_order_inv in Hord as (Hord2 & Hv & Hp & _).
    pose proof (tree_part_partition g r ord2 bs2 Hord2 Hlen) as HQ. fold Q in HQ.
    assert (Hv' : v ∉ (list_to_set (ord_vertices r ord2) : fset))
      by (by rewrite elem_of_list_to_set).
    destruct (block_of_spec _ Q p HQ) as [HB HpB]; [by apply elem_of_list_to_set|].
    fold B in HB, HpB.
    pose proof (is_partition_block_subseteq _ Q B HQ HB) as Hsub.
    destruct (partition_add_singleton v _ Hv' Q HQ) as [_ HvQ].
    split; [apply elem_of_union; left; by apply elem_of_singleton|].
    split; [apply elem_of_union; by right|].
    split; [done|]. split; [clear -Hsub Hv'; set_solver|]. split; [done|].
    unfold join_block. f_equal. apply set_eq. intros a.
    rewrite !elem_of_difference, elem_of_union, !elem_of_singleton. split.
    + intros [Ha HaB]. split; [|done]. split; [by right|]. intros ->. done.
    + intros [[[->|Ha] Hav] HaB]; done.
  - simpl in Hord. apply tree_order_inv in Hord as (Hord' & Hw & _ & _).
    destruct (IH Hord') as (Hv & HB & HpB & HvB & Hsub & HP).
    simpl. rewrite HP.
    rewrite ord_vertices_app in Hw. rewrite elem_of_app in Hw.
    change (ord_vertices r ((v, p) :: ord2)) with (v :: ord_vertices r ord2) in Hw.
    rewrite elem_of_cons in Hw.
    assert (Hwv : ({[w]} : fset) ≠ {[v]}).
    { intros Heq. apply singleton_inj_fset in Heq. tauto. }
    assert (HwB : ({[w]} : fset) ≠ B).
    { intros Heq. apply Hw. right. right.
      assert (Hin : w ∈ (list_to_set (ord_vertices r ord2) : fset)).
      { apply Hsub. rewrite <- Heq. by apply elem_of_singleton. }
      by apply elem_of_list_to_set in Hin. }
    split; [apply elem_of_union; by right|].
    split; [apply elem_of_union; by right|].
    split; [done|]. split; [done|]. split; [done|].
    apply set_eq. intros a.
    rewrite !elem_of_union, !elem_of_difference, !elem_of_union, !elem_of_singleton.
    clear -Hwv HwB. naive_solver.
Qed.

(** The clusters of the child that merges the edge [(s, t)]. *)
Lemma child_blocks g0 x s t c :
  partition_node g0 x → (s, t) ∈ edges (_graph x) →
  (∀ l, l ∈ nodes (_graph c) ↔
        ∃ a, a ∈ nodes (_graph x) ∧ l = merged_label (s, t) a) →
  blocks c = {[ s ∪ t ]} ∪ (blocks x ∖ {[s]} ∖ {[t]}).
Proof.
  intros Hx Hst Hn. destruct (edge_ends g0 x s t Hx Hst) as (Hs & _).
  apply set_eq. intros l.
  rewrite elem_of_union, !elem_of_difference, !elem_of_singleton, !elem_of_blocks, Hn.
  split.
  - intros (a & Ha & ->).
    destruct (merged_label_cases s t a) as [[-> _]|(-> & ? & ?)]; auto.
  - intros [->|[[Hl Hls] Hlt]].
    + exists s. split; [done|]. symmetry. apply merged_label_in. by left.
    + exists l. split; [done|]. symmetry. by apply merged_label_out.
Qed.

Lemma eq_blocks_subseteq g0 x y :
  partition_node g0 x → partition_node g0 y →
  (∀ a b, adjacent (_graph x) a b ↔ adjacent (_graph y) a b) →
  blocks x ⊆ blocks y.
Proof.
  intros Hx Hy Hadj a Ha. apply elem_of_blocks in Ha. apply elem_of_blocks.
  pose proof Hx as ([_ Hnex] & _ & Hcx & Hix & _).
  pose proof Hy as ([_ Hney] & _ & Hcy & Hiy & _).
  destruct (decide (Forall (λ a', a' = a) (nodes (_graph x)))) as [Hall|Hnall].
  - (* [a] is the only cluster of [x], so [x] has no edge *)
    rewrite Forall_forall in Hall.
    assert (Hnoadj : ∀ b1 b2, ¬ adjacent (_graph y) b1 b2).
    { intros b1 b2 Hb. apply Hadj in Hb. apply Hix in Hb as (H1 & H2 & Hne & _).
      apply Hall in H1, H2. congruence. }
    assert (Hau : ∀ u, u ∈ a ↔ u ∈ nodes g0).
    { intros u. rewrite (Hcx u). split.
      - intros Hu. by exists a.
      - intros (a' & Ha' & Hu). by rewrite <- (Hall a' Ha'). }
    destruct (set_choose_or_empty a) as [[u Hu]|Hemp];
      [|apply leibniz_equiv in Hemp; by destruct (Hnex a Ha)].
    destruct (proj1 (Hcy u)) as (b & Hb & Hub); [by apply Hau|].
    assert (Hallb : ∀ b', b' ∈ nodes (_graph y) → b' = b).
    { intros b' Hb'. destruct (decide (b' = b)) as [|Hne]; [done|].
      destruct (partition_has_neighbour g0 y Hy b b' Hb Hb') as (c & Hc); [done|].
      by apply Hnoadj in Hc. }
    assert (a = b) as ->; [|done].
    apply set_eq. intros w. rewrite Hau, (Hcy w). split.
    + intros (b' & Hb' & Hw). by rewrite <- (Hallb b' Hb').
    + intros Hw. by exists b.
  - apply not_Forall_Exists in Hnall; [|apply _].
    apply Exists_exists in Hnall as (a' & Ha' & Hne). simpl in Hne.
    destruct (partition_has_neighbour g0 x Hx a a' Ha Ha') as (c & Hc); [done|].
    apply Hadj in Hc. by eapply adjacent_node.
Qed.

Lemma eq_blocks g0 x y :
  partition_node g0 x → partition_node g0 y →
  SearchSpaceNode_eq x y = true → blocks x = blocks y.
Proof.
  intros Hx Hy Heq.
  pose proof (proj1 (SearchSpaceNode_eq_spec x y (proj1 Hx) (proj1 Hy)) Heq) as Hadj.
  clear Heq. rename Hadj into Heq.
  apply set_eq. intros a. split.
  - by apply (eq_blocks_subseteq g0 x y).
  - apply (eq_blocks_subseteq g0 y x); [done..|]. intros b1 b2. by rewrite Heq.
Qed.

Lemma tree_part_reachable g0 r ord :
  simple_graph g0 → connected g0 → tree_order g0 r ord →
  (∀ u, u ∈ ord_vertices r ord ↔ u ∈ nodes g0) →
  ∀ i bs, length bs = length ord → count_true bs = i →
    ∃ x, x ∈ level_pure g0 i ∧ blocks x = tree_part r ord bs.
Proof.
  intros Hs Hc Hord Hall i. induction i as [|i IH]; intros bs Hlen Hcount.
  - destruct (level_pure_0 g0 Hs Hc) as (root & Hroot & Hl & _).
    exists root. split; [rewrite Hl; by left|].
    rewrite (count_true_0 bs Hcount), Hlen, tree_part_all_false.
    rewrite (root_blocks g0 root (proj1 Hs) Hroot).
    apply set_eq. intros l. rewrite !elem_of_list_to_set, !list_elem_of_fmap.
    split; intros (n & -> & Hn); exists n; (split; [done|]); by apply Hall.
  - destruct (first_true bs i Hcount) as (k & bs2 & -> & Hc').
    rewrite length_app, length_replicate in Hlen. simpl in Hlen.
    assert (∃ ord1 v p ord2, ord = ord1 ++ (v, p) :: ord2 ∧ length ord1 = k ∧
                             length ord2 = length bs2)
      as (ord1 & v & p & ord2 & -> & Hk & Hl2).
    { exists (take k ord). destruct (drop k ord) as [|[v p] ord2] eqn:Hd.
      - apply (f_equal length) in Hd. rewrite length_drop in Hd. simpl in Hd. lia.
      - exists v, p, ord2. split; [by rewrite <- Hd, take_drop|].
        split; [rewrite length_take; lia|].
        apply (f_equal length) in Hd. rewrite length_drop in Hd. simpl in Hd. lia. }
    subst k.
    destruct (IH (replicate (length ord1) false ++ false :: bs2)) as (x' & Hx' & Hbx').
    { rewrite !length_app, length_replicate. simpl. lia. }
    { done. }
    destruct (tree_part_step g0 r ord1 v p ord2 bs2 Hord (eq_sym Hl2))
      as (Hv & HB & HpB & HvB & Hsub & HP).
    set (B := block_of p (tree_part r ord2 bs2)) in *.
    rewrite <- Hbx' in Hv, HB, HP.
    destruct (level_pure_partition g0 Hs Hc i x' Hx') as [Hpx' _].
    pose proof Hpx' as (Hokx & _ & _ & Hind & _).
    apply elem_of_blocks in Hv, HB.
    assert (Hadj0 : adjacent g0 p v).
    { pose proof (tree_order_suffix g0 r ord1 _ Hord) as Ht.
      by apply tree_order_inv in Ht as (_ & _ & _ & Ht). }
    assert (HBv : B ≠ {[v]}).
    { intros Heq. apply HvB. rewrite Heq. by apply elem_of_singleton. }
    assert (Hadj : adjacent (_graph x') B {[v]}).
    { apply Hind. split; [done|]. split; [done|]. split; [done|].
      exists p, v. split; [done|]. split; [by apply elem_of_singleton|done]. }
    assert (∃ s t, (s, t) ∈ edges (_graph x') ∧ s ∪ t = {[v]} ∪ B ∧
                   blocks x' ∖ {[s]} ∖ {[t]} = blocks x' ∖ {[ {[v]} ]} ∖ {[B]})
      as (s & t & Hst & Hu & Hd).
    { destruct (adjacent_edges _ _ _ (proj1 Hokx) Hadj) as [He|He].
      - exists B, {[v]}. split; [done|]. split; [clear; set_solver|].
        clear. set_solver.
      - exists {[v]}, B. done. }
    destruct (expand_child_partition g0 x' s t Hpx' Hst) as (c & Hcc & Hpc & _ & Hn & _).
    destruct (next_nodes_complete (level_pure g0 i) x' c Hx') as (y & Hy & Hyc).
    { unfold SearchSpaceNode_expand. apply list_elem_of_fmap. by exists (s, t). }
    exists y. rewrite level_pure_S. split; [done|].
    assert (Hby : blocks y = blocks c).
    { destruct Hyc as [->|Heq]; [done|].
      apply (eq_blocks g0); [|done..].
      apply (level_pure_partition g0 Hs Hc (S i)). by rewrite level_pure_S. }
    rewrite Hby, (child_blocks g0 x' s t c Hpx' Hst Hn), Hu, Hd. by rewrite HP.
Qed.

(** ** The lower bound on the size of a level *)

Lemma level_pure_ge_binom g0 j :
  simple_graph g0 → connected g0 → (j < order g0)%nat →
  (binom (order g0 - 1) (order g0 - j - 1) ≤ length (level_pure g0 j))%nat.
Proof.
  intros Hs Hc Hj.
  destruct (tree_order_exists g0 (proj1 Hs) Hc) as (r & ord & Hord & _ & Hall & Hlen);
    [lia|].
  set (k := (order g0 - j - 1)%nat).
  rewrite <- (choices_length (order g0 - 1) k).
  rewrite <- (length_fmap (tree_part r ord)), <- (length_fmap blocks (level_pure g0 j)).
  apply submseteq_length, NoDup_submseteq.
  - apply NoDup_fmap_2_strong; [|apply choices_NoDup].
    intros bs bs' Hbs Hbs' Heq.
    apply choices_spec in Hbs as [Hl _]. apply choices_spec in Hbs' as [Hl' _].
    apply (tree_part_inj g0 r ord); [done|lia..|done].
  - intros P HP. apply list_elem_of_fmap in HP as (bs & -> & Hbs).
    apply choices_spec in Hbs as [Hl Hf].
    pose proof (count_true_false bs) as Htf.
    destruct (tree_part_reachable g0 r ord Hs Hc Hord Hall j bs) as (x & Hx & Hbx);
      [lia|unfold k in Hf; lia|].
    apply list_elem_of_fmap. by exists x.
Qed.

(** ** The bounds on the size of each level *)

Lemma py_index_seq base m (i : Z) :
  0 ≤ i < Z.of_nat m → py_index (seq base m) i = Ok (base + Z.to_nat i)%nat.
Proof.
  intros Hi. unfold py_index.
  destruct (i <? 0) eqn:Hneg; [apply Z.ltb_lt in Hneg; lia|]. rewrite Hneg.
  by rewrite lookup_seq_lt by lia.
Qed.

Lemma SearchSpace_num_partitions_level (w : world) ls (i : Z) a p :
  _levels w = Some ls → py_index ls i = Ok a →
  num_partitions a (w_heap w) = (Ok p, w_heap w) →
  SearchSpace_num_partitions (Some i) w = (Ok p, w).
Proof.
  destruct w as [l h]. simpl. intros -> Hidx Hnum.
  unfold SearchSpace_num_partitions, levels, bind. simpl.
  rewrite Hidx. unfold lift_res. by rewrite (on_heap_run _ _ _ _ _ Hnum).
Qed.

(** C7: for every connected input graph (undirected, without self-loops,
    at least one node), [build] returns the levels of the search space,
    and at every level index [i] the recorded number of
    partitions lies between [num_k_partitions_lb(i)] and
    [num_k_partitions_ub(i)]; the upper bound is the Stirling number of the
    second kind [S(n, n - i)], the lower bound is the binomial coefficient
    of [n - 1] over [n - i - 1] (zero past the last level of the
    single-node graph). *)
Theorem level_counts_within_bounds
    (py_hash : list (list fset) → Z) (g0 : Graph Z) (c : bool) (w : world) :
  simple_graph g0 → connected g0 → order g0 ≠ 0%nat →
  let self := mkSpace g0 c in
  ∃ ls w',
    SearchSpace_build py_hash self w = (Ok ls, w') ∧
    ∀ i : Z, 0 ≤ i < Z.of_nat (length ls) →
      ∃ p : nat,
        SearchSpace_num_partitions (Some i) w' = (Ok p, w') ∧
        num_k_partitions_lb self i ≤ Z.of_nat p ≤ num_k_partitions_ub self i ∧
        num_k_partitions_ub self i
        = Z.of_nat (stirling2 (order g0) (order g0 - Z.to_nat i)) ∧
        num_k_partitions_lb self i
        = (if Z.of_nat (order g0) <=? i then 0
           else Z.of_nat (binom (order g0 - 1) (order g0 - Z.to_nat i - 1))).
Proof.
  intros Hs Hc Hn self.
  destruct (SearchSpace_build_counts py_hash g0 c w Hs Hc Hn)
    as (w' & Hbuild & Hlv & _ & _ & Hcount & _).
  exists (seq (length (w_heap w)) (Nat.max (order g0) 2)), w'. split; [exact Hbuild|].
  rewrite length_seq. intros i Hi.
  set (j := Z.to_nat i).
  exists (length (level_pure g0 j)).
  assert (Hub : num_k_partitions_ub self i = Z.of_nat (stirling2 (order g0) (order g0 - j))).
  { unfold num_k_partitions_ub, stirling, py_stirling, num_nodes. simpl.
    destruct (Z.of_nat (order g0) - i <? 0) eqn:Hneg; [apply Z.ltb_lt in Hneg; lia|].
    do 2 f_equal. lia. }
  assert (Hlb : num_k_partitions_lb self i
                = (if Z.of_nat (order g0) <=? i then 0
                   else Z.of_nat (binom (order g0 - 1) (order g0 - j - 1)))).
  { unfold num_k_partitions_lb, py_binomial, num_nodes. simpl.
    destruct (Z.of_nat (order g0) <=? i) eqn:Hle.
    - apply Z.leb_le in Hle.
      destruct (Z.of_nat (order g0) - i - 1 <? 0) eqn:Hneg; [done|].
      apply Z.ltb_ge in Hneg. lia.
    - apply Z.leb_gt in Hle.
      destruct (Z.of_nat (order g0) - i - 1 <? 0) eqn:Hneg; [apply Z.ltb_lt in Hneg; lia|].
      destruct (Z.of_nat (order g0) - 1 <? 0) eqn:Hneg'; [apply Z.ltb_lt in Hneg'; lia|].
      f_equal. f_equal; lia. }
  split; [|split; [|by split]].
  - apply (SearchSpace_num_partitions_level w'
             (seq (length (w_heap w)) (Nat.max (order g0) 2)) i
             (length (w_heap w) + j)%nat);
      [exact Hlv|by apply py_index_seq|].
    apply Hcount. lia.
  - rewrite Hub, Hlb. split.
    + destruct (Z.of_nat (order g0) <=? i) eqn:Hle; [lia|].
      apply Z.leb_gt in Hle. apply Nat2Z.inj_le.
      apply level_pure_ge_binom; [done..|lia].
    + apply Nat2Z.inj_le. by apply level_pure_le_stirling.
Qed.

Lemma level_counts_within_bounds_witness :
  ∃ ls w' p,
    SearchSpace_build const_hash (mkSpace cycle4 true) empty_world = (Ok ls, w') ∧
    SearchSpace_num_partitions (Some 1) w' = (Ok p, w') ∧
    3 ≤ Z.of_nat p ≤ 6.
Proof.
  destruct (level_counts_within_bounds const_hash cycle4 true empty_world
              cycle4_simple cycle4_connected)
    as (ls & w' & Hbuild & Hlevels).
  - by vm_compute.
  - assert (Hlen : length ls = 4%nat).
    { pose proof Hbuild as Hb. vm_compute in Hb. by injection Hb as <- _. }
    destruct (Hlevels 1) as (p & Hp & Hbounds & Hub & Hlb); [rewrite Hlen; lia|].
    exists ls, w', p. split; [exact Hbuild|]. split; [exact Hp|].
    rewrite Hub, Hlb in Hbounds. exact Hbounds.
Defined.

(** * Equality, expansion and queries in more detail *)

(** ** Equality of partition nodes *)

(** X1: [SearchSpaceNode.__eq__] is an equivalence relation on well-formed
    partition nodes, as membership in a Python set needs. *)
Theorem SearchSpaceNode_eq_equivalence (x y z : SearchSpaceNode) :
  node_ok x → node_ok y → node_ok z →
  SearchSpaceNode_eq x x = true ∧
  SearchSpaceNode_eq x y = SearchSpaceNode_eq y x ∧
  (SearchSpaceNode_eq x y = true → SearchSpaceNode_eq y z = true →
   SearchSpaceNode_eq x z = true).
Proof.
  intros Hx Hy Hz. split; [by apply SearchSpaceNode_eq_refl|]. split.
  - destruct (SearchSpaceNode_eq x y) eqn:Hxy, (SearchSpaceNode_eq y x) eqn:Hyx;
      try done.
    + pose proof (proj1 (SearchSpaceNode_eq_spec x y Hx Hy) Hxy) as H.
      rewrite <- Hyx. symmetry. apply SearchSpaceNode_eq_spec; [done..|].
      intros a b. by rewrite H.
    + pose proof (proj1 (SearchSpaceNode_eq_spec y x Hy Hx) Hyx) as H.
      rewrite <- Hxy. apply SearchSpaceNode_eq_spec; [done..|].
      intros a b. by rewrite H.
  - intros Hxy Hyz.
    pose proof (proj1 (SearchSpaceNode_eq_spec x y Hx Hy) Hxy) as H1.
    pose proof (proj1 (SearchSpaceNode_eq_spec y z Hy Hz) Hyz) as H2.
    apply SearchSpaceNode_eq_spec; [done..|]. intros a b. by rewrite H1, H2.
Qed.

Lemma SearchSpaceNode_eq_equivalence_witness :
  let x := mkNode (add_edge {[1]} {[2]} []) in
  let y := mkNode (add_edge {[2]} {[1]} []) in
  SearchSpaceNode_eq x y = SearchSpaceNode_eq y x.
Proof.
  intros x y.
  assert (Hx : node_ok x).
  { split; [apply graph_wf_add_edge, graph_wf_nil|].
    apply labels_nonempty_add_edge; [apply singleton_nonempty..|apply labels_nonempty_nil]. }
  assert (Hy : node_ok y).
  { split; [apply graph_wf_add_edge, graph_wf_nil|].
    apply labels_nonempty_add_edge; [apply singleton_nonempty..|apply labels_nonempty_nil]. }
  exact (proj1 (proj2 (SearchSpaceNode_eq_equivalence x y y Hx Hy Hy))).
Defined.

(** X2: Although [__eq__] compares edges only, on the partition nodes of a
    connected graph it tells partitions apart: two reachable nodes compare
    equal exactly when they have the same clusters. *)
Theorem SearchSpaceNode_eq_same_clusters (g0 : Graph Z) (x y : SearchSpaceNode) :
  simple_graph g0 → connected g0 → reachable g0 x → reachable g0 y →
  SearchSpaceNode_eq x y = true ↔
  ∀ a, a ∈ nodes (_graph x) ↔ a ∈ nodes (_graph y).
Proof.
  intros Hs Hc Hx Hy.
  pose proof (reachable_partition_node g0 x Hs Hc Hx) as Hpx.
  pose proof (reachable_partition_node g0 y Hs Hc Hy) as Hpy.
  split.
  - intros Heq a. rewrite <- !elem_of_blocks. by rewrite (eq_blocks g0 x y Hpx Hpy Heq).
  - intros Hn. apply (blocks_eq g0); [done..|].
    apply set_eq. intros a. by rewrite !elem_of_blocks.
Qed.

Lemma SearchSpaceNode_eq_same_clusters_witness :
  ∃ root, SearchSpaceNode_init path3 = Ok root ∧ SearchSpaceNode_eq root root = true.
Proof.
  destruct (SearchSpaceNode_init_root path3 path3_simple path3_connected)
    as (root & Hroot & _).
  exists root. split; [done|].
  apply (SearchSpaceNode_eq_same_clusters path3 root root path3_simple path3_connected
           (reachable_root path3 root Hroot) (reachable_root path3 root Hroot)).
  done.
Defined.

(** ** What [expand] yields *)



(** ** Queries on a built search space *)

Lemma py_index_seq_any b m (i : Z) :
  py_index (seq b m) i
  = if bool_decide (- Z.of_nat m ≤ i < Z.of_nat m)
    then Ok (b + Z.to_nat (i `mod` Z.of_nat m))%nat
    else Raise IndexError.
Proof.
  unfold py_index. rewrite length_seq.
  destruct (i <? 0) eqn:Hneg.
  - apply Z.ltb_lt in Hneg.
    destruct (Z.of_nat m + i <? 0) eqn:Hlow.
    + apply Z.ltb_lt in Hlow. rewrite bool_decide_eq_false_2 by lia. done.
    + apply Z.ltb_ge in Hlow. rewrite bool_decide_eq_true_2 by lia.
      rewrite lookup_seq_lt by lia. do 3 f_equal.
      apply Z.mod_unique with (q := -1); lia.
  - pose proof Hneg as Hb. apply Z.ltb_ge in Hneg.
    destruct (decide (i < Z.of_nat m)) as [Hlt|Hge].
    + rewrite bool_decide_eq_true_2 by lia. rewrite lookup_seq_lt by lia.
      rewrite Z.mod_small by lia. by rewrite Hb.
    + rewrite bool_decide_eq_false_2 by lia.
      rewrite lookup_seq_ge by lia. by rewrite Hb.
Qed.

Section Built.
Variables (w : world) (b m : nat) (f : nat → nat).
Hypothesis Hlevels : _levels w = Some (seq b m).
Hypothesis Hcount : ∀ i, (i < m)%nat →
  num_partitions (b + i) (w_heap w) = (Ok (f i), w_heap w).

Lemma SearchSpace_num_partitions_at (i : Z) :
  SearchSpace_num_partitions (Some i) w
  = if bool_decide (- Z.of_nat m ≤ i < Z.of_nat m)
    then (Ok (f (Z.to_nat (i `mod` Z.of_nat m))), w)
    else (Raise IndexError, w).
Proof.
  destruct w as [l h]. simpl in *. subst l.
  unfold SearchSpace_num_partitions, levels, bind. simpl.
  rewrite py_index_seq_any. unfold lift_res.
  destruct (bool_decide _) eqn:Hin; [|done].
  apply bool_decide_eq_true in Hin.
  apply on_heap_run, Hcount.
  destruct (decide (m = 0)%nat) as [->|Hm]; [lia|].
  pose proof (Z.mod_pos_bound i (Z.of_nat m)). lia.
Qed.

Lemma SearchSpace_num_partitions_total :
  SearchSpace_num_partitions None w = (Ok (sum_list (f <$> seq 0 m)), w).
Proof.
  destruct w as [l h]. simpl in *. subst l.
  unfold SearchSpace_num_partitions, levels, bind. simpl.
  apply on_heap_run. by apply sum_num_partitions_seq.
Qed.
End Built.

(** X5: [num_partitions(i)] on a built search space of [m] levels accepts
    exactly the indices [-m <= i < m]: a negative index counts from the
    last level, any other index raises [IndexError]. *)
Theorem num_partitions_level_index
    (py_hash : list (list fset) → Z) (g0 : Graph Z) (c : bool) (w : world) :
  simple_graph g0 → connected g0 → order g0 ≠ 0%nat →
  ∃ ls w',
    SearchSpace_build py_hash (mkSpace g0 c) w = (Ok ls, w') ∧
    (∀ i : Z, 0 ≤ i < Z.of_nat (length ls) →
       ∃ p, SearchSpace_num_partitions (Some i) w' = (Ok p, w') ∧
            SearchSpace_num_partitions (Some (i - Z.of_nat (length ls))) w' = (Ok p, w')) ∧
    (∀ i : Z, i < - Z.of_nat (length ls) ∨ Z.of_nat (length ls) ≤ i →
       SearchSpace_num_partitions (Some i) w' = (Raise IndexError, w')).
Proof.
  intros Hs Hc Hn.
  destruct (SearchSpace_build_counts py_hash g0 c w Hs Hc Hn)
    as (w' & Hbuild & Hlv & _ & _ & Hcount & _).
  set (m := Nat.max (order g0) 2) in *.
  exists (seq (length (w_heap w)) m), w'. split; [exact Hbuild|].
  rewrite length_seq. split.
  - intros i Hi. exists (length (level_pure g0 (Z.to_nat i))).
    rewrite !(SearchSpace_num_partitions_at w' _ m (λ j, length (level_pure g0 j)) Hlv Hcount).
    rewrite !bool_decide_eq_true_2 by lia.
    replace ((i - Z.of_nat m) `mod` Z.of_nat m) with i
      by (apply Z.mod_unique with (q := -1); lia).
    by rewrite Z.mod_small by lia.
  - intros i Hi.
    rewrite (SearchSpace_num_partitions_at w' _ m (λ j, length (level_pure g0 j)) Hlv Hcount).
    by rewrite bool_decide_eq_false_2 by lia.
Qed.

Lemma num_partitions_level_index_witness :
  ∃ ls w',
    SearchSpace_build const_hash (mkSpace path3 true) empty_world = (Ok ls, w') ∧
    SearchSpace_num_partitions (Some 3) w' = (Raise IndexError, w').
Proof.
  destruct (num_partitions_level_index const_hash path3 true empty_world
              path3_simple path3_connected)
    as (ls & w' & Hbuild & _ & Hout).
  - by vm_compute.
  - assert (Hlen : length ls = 3%nat).
    { pose proof Hbuild as Hb. vm_compute in Hb. by injection Hb as <- _. }
    exists ls, w'. split; [exact Hbuild|]. apply Hout. rewrite Hlen. lia.
Defined.

(** X6: The counts of a search space depend on the graph alone: neither the
    hash function, nor compression, nor the level objects that exist
    already change the number of levels, the count of any level or the
    total. *)
Theorem counts_independent_of_hash_and_compression
    (py_hash1 py_hash2 : list (list fset) → Z) (g0 : Graph Z)
    (c1 c2 : bool) (w1 w2 : world) :
  simple_graph g0 → connected g0 → order g0 ≠ 0%nat →
  ∃ ls1 w1' ls2 w2',
    SearchSpace_build py_hash1 (mkSpace g0 c1) w1 = (Ok ls1, w1') ∧
    SearchSpace_build py_hash2 (mkSpace g0 c2) w2 = (Ok ls2, w2') ∧
    length ls1 = length ls2 ∧
    (∀ i : Z, (SearchSpace_num_partitions (Some i) w1').1
              = (SearchSpace_num_partitions (Some i) w2').1) ∧
    (SearchSpace_num_partitions None w1').1 = (SearchSpace_num_partitions None w2').1.
Proof.
  intros Hs Hc Hn.
  destruct (SearchSpace_build_counts py_hash1 g0 c1 w1 Hs Hc Hn)
    as (w1' & Hbuild1 & Hlv1 & _ & _ & Hcount1 & _).
  destruct (SearchSpace_build_counts py_hash2 g0 c2 w2 Hs Hc Hn)
    as (w2' & Hbuild2 & Hlv2 & _ & _ & Hcount2 & _).
  set (m := Nat.max (order g0) 2) in *.
  exists (seq (length (w_heap w1)) m), w1', (seq (length (w_heap w2)) m), w2'.
  split; [exact Hbuild1|]. split; [exact Hbuild2|].
  split; [by rewrite !length_seq|]. split.
  - intros i.
    rewrite (SearchSpace_num_partitions_at w1' _ m (λ j, length (level_pure g0 j)) Hlv1 Hcount1).
    rewrite (SearchSpace_num_partitions_at w2' _ m (λ j, length (level_pure g0 j)) Hlv2 Hcount2).
    by destruct (bool_decide _).
  - rewrite (SearchSpace_num_partitions_total w1' _ m (λ j, length (level_pure g0 j)) Hlv1 Hcount1).
    by rewrite (SearchSpace_num_partitions_total w2' _ m (λ j, length (level_pure g0 j)) Hlv2 Hcount2).
Qed.

Lemma counts_independent_of_hash_and_compression_witness :
  ∃ ls1 w1' ls2 w2',
    SearchSpace_build const_hash (mkSpace cycle4 true) empty_world = (Ok ls1, w1') ∧
    SearchSpace_build (λ k, Z.of_nat (length k)) (mkSpace cycle4 false) w1' = (Ok ls2, w2') ∧
    (SearchSpace_num_partitions None w1').1 = (SearchSpace_num_partitions None w2').1.
Proof.
  destruct (counts_independent_of_hash_and_compression
              const_hash (λ k, Z.of_nat (length k)) cycle4 true false empty_world
              (SearchSpace_build const_hash (mkSpace cycle4 true) empty_world).2
              cycle4_simple cycle4_connected)
    as (ls1 & w1' & ls2 & w2' & H1 & H2 & _ & _ & Htot).
  - by vm_compute.
  - assert (Hw : (SearchSpace_build const_hash (mkSpace cycle4 true) empty_world).2 = w1')
      by (by rewrite H1).
    rewrite Hw in H2.
    exists ls1, w1', ls2, w2'. split; [exact H1|]. split; [exact H2|exact Htot].
Defined.

(** ** The total number of partitions *)

Lemma sum_list_seq_le (f g : nat → nat) b m :
  (∀ i, (b ≤ i < b + m)%nat → (f i ≤ g i)%nat) →
  (sum_list (f <$> seq b m) ≤ sum_list (g <$> seq b m))%nat.
Proof.
  revert b. induction m as [|m IH]; intros b Hfg; simpl; [lia|].
  assert (H1 : (f b ≤ g b)%nat) by (apply Hfg; lia).
  assert (H2 : (sum_list (f <$> seq (S b) m) ≤ sum_list (g <$> seq (S b) m))%nat).
  { apply IH. intros i Hi. apply Hfg. lia. }
  change (f b + sum_list (f <$> seq (S b) m) ≤ g b + sum_list (g <$> seq (S b) m))%nat.
  lia.
Qed.

Lemma sum_list_snoc (l : list nat) x : sum_list (l ++ [x]) = (sum_list l + x)%nat.
Proof. induction l as [|a l IH]; simpl; lia. Qed.

Lemma sum_list_seq_snoc (f : nat → nat) m :
  sum_list (f <$> seq 0 (S m)) = (sum_list (f <$> seq 0 m) + f m)%nat.
Proof.
  rewrite seq_snoc, fmap_app. change (f <$> [(0 + m)%nat]) with [f m].
  apply sum_list_snoc.
Qed.

Lemma sum_list_cons (x : nat) l : sum_list (x :: l) = (x + sum_list l)%nat.
Proof. done. Qed.

Lemma sum_list_seq_rev (f : nat → nat) m :
  sum_list ((λ i, f (m - 1 - i)%nat) <$> seq 0 m) = sum_list (f <$> seq 0 m).
Proof.
  revert f. induction m as [|m IH]; intros f; [done|].
  rewrite (sum_list_seq_snoc f), <- (IH f).
  change (seq 0 (S m)) with (0%nat :: seq 1 m).
  rewrite fmap_cons, sum_list_cons, <- fmap_S_seq, <- list_fmap_compose.
  replace (S m - 1 - 0)%nat with m by lia. rewrite Nat.add_comm. do 2 f_equal.
  apply list_fmap_ext. intros _ i _. simpl. f_equal. lia.
Qed.

Lemma sum_list_seq_mono (f : nat → nat) m m' :
  (m ≤ m')%nat → (sum_list (f <$> seq 0 m) ≤ sum_list (f <$> seq 0 m'))%nat.
Proof.
  induction 1 as [|m' _ IH]; [done|]. rewrite sum_list_seq_snoc. lia.
Qed.

Lemma binom_n_0 n : binom n 0 = 1%nat.
Proof. by destruct n. Qed.

Lemma sum_binom_split n M :
  sum_list (binom n <$> seq 0 (S M))
  = (1 + sum_list ((λ k, binom n (S k)) <$> seq 0 M))%nat.
Proof.
  change (seq 0 (S M)) with (0%nat :: seq 1 M).
  rewrite fmap_cons, sum_list_cons, binom_n_0, <- fmap_S_seq, <- list_fmap_compose.
  done.
Qed.

Lemma sum_binom n N :
  (n < N)%nat → sum_list (binom n <$> seq 0 N) = (2 ^ n)%nat.
Proof.
  revert N. induction n as [|n IH]; intros N HN.
  - destruct N as [|N]; [lia|]. rewrite sum_binom_split.
    rewrite (sum_list_fmap_same 0); [simpl; lia|].
    apply Forall_forall. by intros k _.
  - destruct N as [|N]; [lia|].
    rewrite sum_binom_split.
    rewrite (list_fmap_ext (λ k, binom (S n) (S k))
               (λ k, (binom n k + binom n (S k))%nat) (seq 0 N))
      by (intros; done).
    rewrite sum_list_fmap_add.
    pose proof (sum_binom_split n N) as Hs.
    pose proof (IH N ltac:(lia)) as H1. pose proof (IH (S N) ltac:(lia)) as H2.
    rewrite Nat.pow_succ_r'. lia.
Qed.

(** X7: After [build] on a connected graph the total number of partitions lies
    between [num_partitions_lb], two to the power [n - 1], and
    [num_partitions_ub], the Bell number of [n]. *)
Theorem total_partitions_within_bounds
    (py_hash : list (list fset) → Z) (g0 : Graph Z) (c : bool) (w : world) :
  simple_graph g0 → connected g0 → order g0 ≠ 0%nat →
  let self := mkSpace g0 c in
  ∃ ls w' total,
    SearchSpace_build py_hash self w = (Ok ls, w') ∧
    SearchSpace_num_partitions None w' = (Ok total, w') ∧
    num_partitions_lb self ≤ Z.of_nat total ≤ num_partitions_ub self.
Proof.
  intros Hs Hc Hn self.
  destruct (SearchSpace_build_counts py_hash g0 c w Hs Hc Hn)
    as (w' & Hbuild & Hlv & _ & _ & Hcount & _).
  set (n := order g0) in *. set (m := Nat.max n 2) in *.
  set (f := λ j, length (level_pure g0 j)).
  exists (seq (length (w_heap w)) m), w', (sum_list (f <$> seq 0 m)).
  split; [exact Hbuild|].
  split; [by apply (SearchSpace_num_partitions_total w' (length (w_heap w)) m f)|].
  unfold num_partitions_lb, num_partitions_ub, bell, py_bell, num_nodes, self.
  cbn [ss_graph]. fold n. split.
  - replace (Z.of_nat n - 1) with (Z.of_nat (n - 1)) by lia.
    change 2 with (Z.of_nat 2). rewrite <- Nat2Z.inj_pow. apply Nat2Z.inj_le.
    rewrite <- (sum_binom (n - 1) n) by lia.
    rewrite <- (sum_list_seq_rev (binom (n - 1)) n).
    etrans; [|apply (sum_list_seq_mono f n m); lia].
    apply sum_list_seq_le. intros i Hi.
    replace (n - 1 - i)%nat with (n - i - 1)%nat by lia.
    apply level_pure_ge_binom; [done..|lia].
  - apply Nat2Z.inj_le.
    rewrite <- (sum_list_seq_rev (λ k, stirling2 n k) (S n)).
    etrans; [|apply (sum_list_seq_mono _ m (S n)); lia].
    apply sum_list_seq_le. intros i Hi.
    replace (S n - 1 - i)%nat with (n - i)%nat by lia.
    by apply level_pure_le_stirling.
Qed.

Lemma total_partitions_within_bounds_witness :
  ∃ ls w' total,
    SearchSpace_build const_hash (mkSpace cycle4 true) empty_world = (Ok ls, w') ∧
    SearchSpace_num_partitions None w' = (Ok total, w') ∧
    8 ≤ Z.of_nat total ≤ 15.
Proof.
  destruct (total_partitions_within_bounds const_hash cycle4 true empty_world
              cycle4_simple cycle4_connected)
    as (ls & w' & total & Hbuild & Htotal & Hbounds).
  - by vm_compute.
  - exists ls, w', total. split; [exact Hbuild|]. split; [exact Htotal|exact Hbounds].
Defined.

(** ** Comparisons of labels *)

Lemma py_min_empty (x : fset) : (∃ msg, py_min x = Raise (ValueError msg)) ↔ x = ∅.
Proof.
  unfold py_min, py_min_list. split.
  - intros [msg Hm]. destruct (elements x) eqn:He; [|done].
    by apply elements_empty_inv, leibniz_equiv in He.
  - intros ->. rewrite elements_empty. by eexists.
Qed.

Lemma py_min_nonempty (x : fset) : x ≠ ∅ → ∃ m, py_min x = Ok m.
Proof.
  intros Hx. unfold py_min, py_min_list. destruct (elements x) eqn:He; [|by eexists].
  by apply elements_empty_inv, leibniz_equiv in He.
Qed.

(** X8: [fset.__lt__] raises exactly when one of the two labels is empty, and
    then it is the [ValueError] of [min]; the three comparisons derived
    from it raise in the same cases. *)
Theorem fset_lt_raises_on_empty (x y : fset) :
  ((x = ∅ ∨ y = ∅) ↔ ∃ msg, fset_lt x y = Raise (ValueError msg)) ∧
  ((x ≠ ∅ ∧ y ≠ ∅) ↔ ∃ b, fset_lt x y = Ok b) ∧
  (∀ e, fset_lt x y = Raise e →
        fset_gt x y = Raise e ∧ fset_le x y = Raise e ∧ fset_ge x y = Raise e).
Proof.
  assert (Hcases : (x ≠ ∅ ∧ y ≠ ∅ ∧ ∃ b, fset_lt x y = Ok b) ∨
                   ((x = ∅ ∨ y = ∅) ∧ ∃ msg, fset_lt x y = Raise (ValueError msg))).
  { unfold fset_lt. destruct (decide (x = ∅)) as [Hx|Hx].
    - right. split; [by left|].
      destruct (proj2 (py_min_empty x) Hx) as [msg ->]. by exists msg.
    - destruct (py_min_nonempty x Hx) as [mx ->]. simpl.
      destruct (decide (y = ∅)) as [Hy|Hy].
      + right. split; [by right|].
        destruct (proj2 (py_min_empty y) Hy) as [msg ->]. by exists msg.
      + left. destruct (py_min_nonempty y Hy) as [my ->]. simpl.
        split; [done|]. split; [done|].
        destruct (mx <? my); [by eexists|]. destruct (my <? mx); by eexists. }
  split; [|split].
  - destruct Hcases as [(Hx & Hy & b & Hb)|[Hor Hmsg]].
    + rewrite Hb. split; [tauto|]. by intros [msg ?].
    + tauto.
  - destruct Hcases as [(Hx & Hy & b & Hb)|[Hor [msg Hmsg]]].
    + split; [by exists b|done].
    + rewrite Hmsg. split; [tauto|]. by intros [b ?].
  - intros e He. unfold fset_ge, fset_gt, fset_le. by rewrite He.
Qed.

(** X9: On non-empty labels the derived comparisons are the ones of a total
    order: [x > y] is [y < x], [x <= y] is [not y < x] and [x >= y] is
    [not x < y]. *)
Theorem fset_comparisons_consistent (x y : fset) :
  x ≠ ∅ → y ≠ ∅ →
  ∃ lt_xy lt_yx,
    fset_lt x y = Ok lt_xy ∧ fset_lt y x = Ok lt_yx ∧
    fset_gt x y = Ok lt_yx ∧
    fset_le x y = Ok (negb lt_yx) ∧
    fset_ge x y = Ok (negb lt_xy) ∧
    fset_gt y x = Ok lt_xy.
Proof.
  intros Hx Hy. pose proof fset_ltb_strict_total as Hst.
  exists (fset_ltb x y), (fset_ltb y x).
  unfold fset_ge, fset_gt, fset_le.
  rewrite !(fset_lt_pure x y), !(fset_lt_pure y x) by done. simpl.
  unfold fset_eqb.
  destruct (decide (x = y)) as [->|Hne].
  - rewrite !bool_decide_eq_true_2 by done. rewrite (st_irrefl _ Hst). done.
  - rewrite !bool_decide_eq_false_2 by done.
    destruct (fset_ltb x y) eqn:Hxy.
    + by rewrite (st_asym _ Hst _ _ Hxy).
    + destruct (fset_ltb y x) eqn:Hyx; [done|].
      destruct Hne. by apply (st_total _ Hst).
Qed.

Lemma fset_comparisons_consistent_witness :
  fset_gt {[1; 3]} {[1; 2]} = Ok true ∧ fset_le {[1; 3]} {[1; 2]} = Ok false.
Proof.
  assert (H1 : ({[1; 3]} : fset) ≠ ∅) by (by vm_compute).
  assert (H2 : ({[1; 2]} : fset) ≠ ∅) by (by vm_compute).
  destruct (fset_comparisons_consistent {[1; 3]} {[1; 2]} H1 H2)
    as (lt_xy & lt_yx & Hxy & Hyx & Hgt & Hle & _).
  assert (lt_yx = true) as -> by (vm_compute in Hyx; congruence).
  split; [exact Hgt|exact Hle].
Defined.

(** ** Operations on a compressed level *)

(** X10: On a compressed level [add_node] raises [AttributeError] and changes
    nothing; [expand] raises [TypeError], but only after it has created
    and linked an empty next level, so that a second [expand] raises
    "Already expanded". *)
Theorem compressed_level_operations
    (py_hash : list (list fset) → Z) (h : heap) (a : nat)
    (lv : SearchSpaceLevel) (c : SearchSpaceNode) :
  h !! a = Some lv → _nodes lv = None →
  level_add_node py_hash a c h = (Raise AttributeError, h) ∧
  (_next lv = None →
   let h' := <[a := with_next lv (length h)]> h
               ++ [mkLevel None (Some a) (_level lv + 1) None (Some [])] in
   SearchSpaceLevel_expand py_hash a h = (Raise TypeError, h') ∧
   SearchSpaceLevel_expand py_hash a h' = (Raise (ValueError "Already expanded"), h')).
Proof.
  intros Ha Hnodes.
  assert (Hlen : (a < length h)%nat) by (by eapply lookup_lt_Some).
  split.
  - unfold level_add_node. rewrite (bind_Ok _ _ _ _ _ (get_level_Some _ _ _ Ha)).
    by rewrite Hnodes.
  - intros Hnext h'. split.
    + unfold SearchSpaceLevel_expand.
      rewrite (bind_Ok _ _ _ _ _ (get_level_Some _ _ _ Ha)). rewrite Hnext.
      unfold SearchSpaceLevel_init. simpl.
      unfold bind at 1. unfold bind at 1.
      rewrite (get_level_Some _ _ _ Ha). unfold alloc_level.
      unfold bind at 1. unfold put_level. rewrite Hnodes.
      unfold raise. f_equal. unfold h'.
      rewrite insert_app_l by done. do 3 f_equal.
      unfold with_next. by rewrite Hnodes.
    + apply (SearchSpaceLevel_expand_twice py_hash a h' (with_next lv (length h)) (length h)).
      * unfold h'. rewrite lookup_app_l by (by rewrite length_insert).
        by apply list_lookup_insert_eq.
      * done.
Qed.

Lemma compressed_level_operations_witness :
  let h := [mkLevel None None 0 (Some 1%nat) None] in
  SearchSpaceLevel_expand const_hash 0 h
  = (Raise TypeError,
     [mkLevel (Some 1%nat) None 0 (Some 1%nat) None; mkLevel None (Some 0%nat) 1 None (Some [])]).
Proof.
  intros h.
  destruct (compressed_level_operations const_hash h 0
              (mkLevel None None 0 (Some 1%nat) None) (mkNode []) eq_refl eq_refl)
    as [_ Hexp].
  exact (proj1 (Hexp eq_refl)).
Defined.

(** ** Adding a node to a level *)

Lemma pyset_add_cases py_hash c s s' :
  pyset_add py_hash c s = Ok s' → s' = s ∨ ∃ hx, s' = s ++ [(hx, c)].
Proof.
  unfold pyset_add. destruct (SearchSpaceNode_hash py_hash c) as [hx| |]; simpl; [|done..].
  destruct (existsb _ s); intros [= <-]; [by left|right; by exists hx].
Qed.

Lemma insert_node_idem s c :
  node_ok c → insert_node (insert_node s c) c = insert_node s c.
Proof.
  intros Hc. unfold insert_node at 2. destruct (existsb _ s) eqn:Hex.
  - unfold insert_node. by rewrite Hex.
  - unfold insert_node. rewrite existsb_app. simpl.
    rewrite (SearchSpaceNode_eq_refl c Hc). by rewrite Hex.
Qed.

(** X11: [add_node] keeps a level free of duplicates: a node that compares
    equal to a member leaves the count as it is, any other node raises it
    by one, and adding the same node once more changes nothing. *)
Theorem add_node_deduplicates
    (py_hash : list (list fset) → Z) (h : heap) (a : nat)
    (lv : SearchSpaceLevel) (s : pyset) (c : SearchSpaceNode) :
  h !! a = Some lv → _nodes lv = Some s → _num_partitions lv = None →
  pyset_ok py_hash s → node_ok c →
  ∃ h1 k1,
    level_add_node py_hash a c h = (Ok tt, h1) ∧
    num_partitions a h = (Ok (length s), h) ∧
    num_partitions a h1 = (Ok k1, h1) ∧
    k1 = (if existsb (λ y, SearchSpaceNode_eq y c) s.*2 then length s else S (length s)) ∧
    level_add_node py_hash a c h1 = (Ok tt, h1).
Proof.
  intros Ha Hs Hnp Hok Hc.
  assert (Hlen : (a < length h)%nat) by (by eapply lookup_lt_Some).
  destruct (level_add_node_spec py_hash a h lv s c Ha Hs Hc Hok) as (s1 & Hadd & Hok1 & Hs1).
  set (h1 := <[a := with_nodes lv s1]> h) in *.
  assert (Ha1 : h1 !! a = Some (with_nodes lv s1)) by (by apply list_lookup_insert_eq).
  destruct (level_add_node_spec py_hash a h1 (with_nodes lv s1) s1 c Ha1 eq_refl Hc Hok1)
    as (s2 & Hadd2 & Hok2 & Hs2).
  assert (s2 = s1) as ->.
  { unfold level_add_node in Hadd2.
    rewrite (bind_Ok _ _ _ _ _ (get_level_Some _ _ _ Ha1)) in Hadd2.
    cbn [with_nodes _nodes] in Hadd2. unfold bind, lift_res in Hadd2.
    destruct (pyset_add py_hash c s1) as [s2'| |] eqn:Hp; [|done..].
    destruct (pyset_add_cases _ _ _ _ Hp) as [->|[hx ->]].
    - unfold put_level in Hadd2. injection Hadd2 as Hh.
      apply (f_equal (λ l, l !! a)) in Hh.
      rewrite !list_lookup_insert_eq in Hh by (by unfold h1; rewrite ?length_insert).
      by injection Hh.
    - unfold put_level in Hadd2. injection Hadd2 as Hh.
      apply (f_equal (λ l, l !! a)) in Hh.
      rewrite !list_lookup_insert_eq in Hh by (by unfold h1; rewrite ?length_insert).
      injection Hh as <-.
      rewrite Hs1, insert_node_idem in Hs2 by done.
      apply (f_equal length) in Hs2. rewrite <- Hs1, !length_fmap, length_app in Hs2.
      simpl in Hs2. lia. }
  exists h1, (length s1). split; [exact Hadd|].
  split; [by eapply num_partitions_nodes|].
  split; [by eapply num_partitions_nodes|]. split.
  - rewrite <- (length_fmap snd s1), Hs1, <- (length_fmap snd s). unfold insert_node.
    destruct (existsb _ s.*2); [done|]. rewrite length_app. simpl. lia.
  - rewrite Hadd2. f_equal. unfold h1. rewrite list_insert_insert_eq. done.
Qed.

Lemma add_node_deduplicates_witness :
  let x := mkNode (add_edge {[1]} {[2]} []) in
  let h := [mkLevel None None 0 None (Some [])] in
  ∃ h1, level_add_node const_hash 0 x h = (Ok tt, h1) ∧
        num_partitions 0 h1 = (Ok 1%nat, h1) ∧
        level_add_node const_hash 0 x h1 = (Ok tt, h1).
Proof.
  intros x h.
  assert (Hx : node_ok x).
  { split; [apply graph_wf_add_edge, graph_wf_nil|].
    apply labels_nonempty_add_edge; [apply singleton_nonempty..|apply labels_nonempty_nil]. }
  destruct (add_node_deduplicates const_hash h 0 (mkLevel None None 0 None (Some [])) [] x
              eq_refl eq_refl eq_refl (pyset_ok_nil _) Hx)
    as (h1 & k1 & Hadd & _ & Hnum & Hk & Hagain).
  exists h1. split; [exact Hadd|]. split; [|exact Hagain].
  rewrite Hk in Hnum. exact Hnum.
Defined.

(** ** What the constructor of partition nodes keeps *)

Lemma nodes_frozen_graph g : nodes (frozen_graph g) = (λ n : Z, ({[n]} : fset)) <$> nodes g.
Proof.
  unfold nodes, frozen_graph. rewrite <- !list_fmap_compose. by apply list_fmap_ext.
Qed.

Lemma adjacent_frozen_graph g l1 l2 :
  adjacent (frozen_graph g) l1 l2 ↔ ∃ a b, l1 = {[a]} ∧ l2 = {[b]} ∧ adjacent g a b.
Proof.
  unfold adjacent, frozen_graph. split.
  - intros (nb & Hin & Hl2). apply list_elem_of_fmap in Hin as ([a nb'] & [= -> ->] & Hin).
    apply list_elem_of_fmap in Hl2 as (b & -> & Hb). exists a, b. eauto.
  - intros (a & b & -> & -> & nb & Hin & Hb).
    exists ((λ n : Z, ({[n]} : fset)) <$> nb). split.
    + apply list_elem_of_fmap. by exists (a, nb).
    + by apply list_elem_of_fmap_2.
Qed.

Lemma frozen_graph_wf g : graph_wf g → graph_wf (frozen_graph g).
Proof.
  intros (Hnd & Hall & Hsym). split; [|split].
  - rewrite nodes_frozen_graph. apply NoDup_fmap_2; [|done].
    intros a b. apply singleton_inj_fset.
  - unfold frozen_graph. rewrite Forall_fmap. eapply Forall_impl; [exact Hall|].
    intros [a nb] Hnb. simpl in *. apply NoDup_fmap_2; [|done].
    intros x y. apply singleton_inj_fset.
  - intros l1 l2. rewrite !adjacent_frozen_graph.
    intros (a & b & -> & -> & Hab). exists b, a. auto.
Qed.

Lemma degree_sum_frozen_graph g : degree_sum (frozen_graph g) = degree_sum g.
Proof.
  unfold degree_sum, frozen_graph. rewrite <- list_fmap_compose. f_equal.
  apply list_fmap_ext. intros _ [a nb] _. simpl. rewrite length_fmap. f_equal.
  destruct (decide (a ∈ nb)) as [Hin|Hnot].
  - rewrite decide_True; [done|]. by apply list_elem_of_fmap_2.
  - rewrite decide_False; [done|]. intros Hin.
    apply list_elem_of_fmap in Hin as (b & Heq & Hb).
    apply singleton_inj_fset in Heq as ->. done.
Qed.

Lemma edges_eqb_len {V} `{EqDecision V} (g1 g2 : Graph V) :
  edges_eqb g1 g2 = true → number_of_edges g1 = number_of_edges g2.
Proof.
  unfold edges_eqb, number_of_edges. intros H.
  apply andb_true_iff in H as [H _]. by apply Nat.eqb_eq in H.
Qed.

Lemma init_int_frozen (g : Graph Z) :
  graph_wf g →
  ∃ x, SearchSpaceNode_init g = Ok x ∧ node_ok x ∧
       (∀ l, l ∈ nodes (_graph x) ↔ l ∈ nodes (frozen_graph g)) ∧
       (∀ l1 l2, adjacent (_graph x) l1 l2 ↔ adjacent (frozen_graph g) l1 l2) ∧
       order (_graph x) = order g ∧
       number_of_edges (_graph x) = number_of_edges g.
Proof.
  intros Hwf.
  destruct (SearchSpaceNode_init_int g) as (x & Hx & Hok & Hn & Ha).
  assert (Hn' : ∀ l, l ∈ nodes (_graph x) ↔ l ∈ nodes (frozen_graph g)).
  { intros l. rewrite Hn, nodes_frozen_graph, list_elem_of_fmap. split.
    - intros [(n & Hin & ->)|(a & b & He & Hl)]; [by exists n|].
      destruct (edges_nodes g a b Hwf He). destruct Hl as [-> | ->]; eauto.
    - intros (n & -> & Hin). left. by exists n. }
  assert (Ha' : ∀ l1 l2, adjacent (_graph x) l1 l2 ↔ adjacent (frozen_graph g) l1 l2).
  { intros l1 l2. rewrite Ha, adjacent_frozen_graph. split.
    - intros (a & b & He & [[-> ->]|[-> ->]]); apply edges_adjacent in He.
      + by exists a, b.
      + exists b, a. split; [done|]. split; [done|]. by apply Hwf.
    - intros (a & b & -> & -> & Hab).
      destruct (adjacent_edges g a b Hwf Hab) as [He|He].
      + exists a, b. split; [done|by left].
      + exists b, a. split; [done|by right]. }
  exists x. split; [done|]. split; [done|]. split; [done|]. split; [done|]. split.
  - unfold order. rewrite <- (length_fmap fst (_graph x)), <- (length_fmap fst g).
    fold (nodes (_graph x)). fold (nodes g).
    rewrite <- (length_fmap (λ n : Z, ({[n]} : fset)) (nodes g)), <- nodes_frozen_graph.
    apply NoDup_same_length; [apply Hok|apply (frozen_graph_wf g Hwf)|done].
  - transitivity (number_of_edges (frozen_graph g)).
    + apply edges_eqb_len. apply edges_eqb_spec; [apply Hok|by apply frozen_graph_wf|done].
    + unfold number_of_edges, edges_len. by rewrite degree_sum_frozen_graph.
Qed.

(** X12: [SearchSpaceNode(g)] on a graph over ints never raises and keeps the
    graph up to freezing: the vertices are the singletons of the nodes of
    [g], isolated nodes and self-loops included, two singletons are
    adjacent exactly when their members are, and the numbers of nodes and
    of edges are those of [g]. *)
Theorem SearchSpaceNode_init_keeps_graph (g : Graph Z) :
  graph_wf g →
  ∃ x, SearchSpaceNode_init g = Ok x ∧
       (∀ l, l ∈ nodes (_graph x) ↔ ∃ n, n ∈ nodes g ∧ l = {[n]}) ∧
       (∀ a b, adjacent (_graph x) {[a]} {[b]} ↔ adjacent g a b) ∧
       order (_graph x) = order g ∧
       number_of_edges (_graph x) = number_of_edges g.
Proof.
  intros Hwf.
  destruct (init_int_frozen g Hwf) as (x & Hx & _ & Hn & Ha & Ho & He).
  exists x. split; [done|]. split; [|split; [|done]].
  - intros l. rewrite Hn, nodes_frozen_graph, list_elem_of_fmap. naive_solver.
  - intros a b. rewrite Ha, adjacent_frozen_graph. split.
    + intros (a' & b' & Ha' & Hb' & Hab).
      apply singleton_inj_fset in Ha' as ->. by apply singleton_inj_fset in Hb' as ->.
    + intros Hab. by exists a, b.
Qed.

Lemma SearchSpaceNode_init_keeps_graph_witness :
  ∃ x, SearchSpaceNode_init (add_node 5 cycle4) = Ok x ∧
       order (_graph x) = 5%nat ∧ number_of_edges (_graph x) = 4%nat.
Proof.
  destruct (SearchSpaceNode_init_keeps_graph (add_node 5 cycle4))
    as (x & Hx & _ & _ & Ho & He).
  - apply graph_wf_add_node, graph_of_edges_wf.
  - exists x. split; [exact Hx|]. split; [exact Ho|exact He].
Defined.

Lemma fset_lt_empty (x y : fset) :
  x = ∅ ∨ y = ∅ → ∃ msg, fset_lt x y = Raise (ValueError msg).
Proof.
  intros Hor. unfold fset_lt. destruct (decide (x = ∅)) as [Hx|Hx].
  - destruct (proj2 (py_min_empty x) Hx) as [msg ->]. by exists msg.
  - destruct (py_min_nonempty x Hx) as [mx ->]. simpl.
    destruct Hor as [?|Hy]; [done|].
    destruct (proj2 (py_min_empty y) Hy) as [msg ->]. by exists msg.
Qed.

Lemma sorted_edge_empty (e : fset * fset) :
  e.1 = ∅ ∨ e.2 = ∅ → ∃ msg, sorted_edge e = Raise (ValueError msg).
Proof.
  intros He. unfold sorted_edge, sorted. simpl.
  change (py_lt e.2 e.1) with (fset_lt e.2 e.1).
  destruct (fset_lt_empty e.2 e.1) as [msg ->]; [tauto|].
  by exists msg.
Qed.

Lemma init_edges_empty_label (es : list (fset * fset)) acc :
  (∃ e, e ∈ es ∧ (e.1 = ∅ ∨ e.2 = ∅)) →
  ∃ msg, init_edges es acc = Raise (ValueError msg).
Proof.
  revert acc. induction es as [|e es IH]; intros acc (e0 & Hin & He0).
  - by apply elem_of_nil in Hin.
  - simpl. destruct (decide (e.1 = ∅ ∨ e.2 = ∅)) as [He|He].
    + destruct (sorted_edge_empty e He) as [msg ->]. by exists msg.
    + rewrite sorted_edge_fset by tauto. simpl. apply IH.
      apply elem_of_cons in Hin as [->|Hin]; [done|]. by exists e0.
Qed.

(** X13: [SearchSpaceNode(g)] on a graph whose vertices are labels already, as
    [expand] calls it: when no label is empty it returns a node with the
    same vertices, the same adjacency and the same numbers of nodes and
    edges, so that it compares equal to [g] itself; when an edge has an
    empty label as an endpoint, sorting that edge raises [ValueError]. *)
Theorem SearchSpaceNode_init_on_labels (g : Graph fset) :
  graph_wf g →
  (labels_nonempty g →
   ∃ x, SearchSpaceNode_init g = Ok x ∧
        (∀ l, l ∈ nodes (_graph x) ↔ l ∈ nodes g) ∧
        (∀ a b, adjacent (_graph x) a b ↔ adjacent g a b) ∧
        order (_graph x) = order g ∧
        number_of_edges (_graph x) = number_of_edges g ∧
        SearchSpaceNode_eq x (mkNode g) = true) ∧
  ((∃ a b, (a, b) ∈ edges g ∧ (a = ∅ ∨ b = ∅)) →
   ∃ msg, SearchSpaceNode_init g = Raise (ValueError msg)).
Proof.
  intros Hwf. split.
  - intros Hne. destruct (SearchSpaceNode_init_fset g Hwf Hne) as (x & Hx & Hok & Hn & Ha).
    assert (Heq : SearchSpaceNode_eq x (mkNode g) = true).
    { apply edges_eqb_spec; [apply Hok|done|done]. }
    exists x. split; [done|]. split; [done|]. split; [done|]. split; [|split; [|done]].
    + unfold order. rewrite <- (length_fmap fst (_graph x)), <- (length_fmap fst g).
      apply NoDup_same_length; [apply Hok|apply Hwf|done].
    + by apply edges_eqb_len.
  - intros (a & b & He & Hab). unfold SearchSpaceNode_init.
    destruct (init_edges_empty_label (edges g) []) as [msg ->]; [by exists (a, b)|].
    by exists msg.
Qed.

Lemma SearchSpaceNode_init_on_labels_witness :
  (∃ x, SearchSpaceNode_init (add_edge ({[1]} : fset) {[2; 3]} []) = Ok x ∧
        order (_graph x) = 2%nat) ∧
  ∃ msg, SearchSpaceNode_init (add_edge (∅ : fset) {[2; 3]} []) = Raise (ValueError msg).
Proof.
  split.
  - destruct (SearchSpaceNode_init_on_labels (add_edge ({[1]} : fset) {[2; 3]} []))
      as [Hok _]; [apply graph_wf_add_edge, graph_wf_nil|].
    destruct Hok as (x & Hx & _ & _ & Ho & _).
    + apply labels_nonempty_add_edge; [apply singleton_nonempty| |apply labels_nonempty_nil].
      by vm_compute.
    + exists x. split; [exact Hx|exact Ho].
  - destruct (SearchSpaceNode_init_on_labels (add_edge (∅ : fset) {[2; 3]} []))
      as [_ Hraise]; [apply graph_wf_add_edge, graph_wf_nil|].
    apply Hraise. exists ∅, {[2; 3]}. split; [|by left].
    vm_compute. by left.
Defined.

(** ** The mean number of edges of the levels of a search space *)

Lemma sum_list_edges_level (s : pyset) :
  sum_list ((λ p : Z * SearchSpaceNode, number_of_edges (_graph p.2)) <$> s)
  = sum_list ((λ x, number_of_edges (_graph x)) <$> s.*2).
Proof. rewrite <- list_fmap_compose. done. Qed.

Lemma level_pure_last_one g0 :
  simple_graph g0 → connected g0 → (2 ≤ order g0)%nat →
  length (level_pure g0 (order g0 - 1)) = 1%nat ∧
  ∀ x, x ∈ level_pure g0 (order g0 - 1) → number_of_edges (_graph x) = 0%nat.
Proof.
  intros Hs Hc Hn. split.
  - pose proof (level_pure_last g0 Hs Hc (order g0 - 2) ltac:(lia)) as Hle.
    replace (S (order g0 - 2)) with (order g0 - 1)%nat in Hle by lia.
    pose proof (level_pure_nonempty g0 Hs Hc (order g0 - 1) ltac:(lia)) as Hne.
    destruct (level_pure g0 (order g0 - 1)) as [|? [|]]; simpl in *; [done|done|lia].
  - intros x Hx. destruct (level_pure_partition g0 Hs Hc _ x Hx) as [Hp Ho].
    unfold number_of_edges. rewrite edges_len_length by apply Hp.
    rewrite no_adjacent_no_edges; [done|]. intros a' b'.
    apply (order_le1_no_adjacent g0 x Hp). lia.
Qed.

(** X14: After an uncompressed [build] on a connected graph [mean_num_edges]
    answers on every level: the denominator is the number of partitions of
    the level and is not zero, the first level has the edges of the graph
    and the last level has none.  After a compressing [build] it raises on
    every level. *)
Theorem mean_num_edges_after_build
    (py_hash : list (list fset) → Z) (g0 : Graph Z) (w : world) :
  simple_graph g0 → connected g0 → (2 ≤ order g0)%nat →
  (∃ ls w',
     SearchSpace_build py_hash (mkSpace g0 false) w = (Ok ls, w') ∧
     ∀ i a, ls !! i = Some a →
       ∃ s k, mean_num_edges a (w_heap w') = (Ok (s, k), w_heap w') ∧
              num_partitions a (w_heap w') = (Ok k, w_heap w') ∧
              (1 ≤ k)%nat ∧
              (i = 0%nat → s = number_of_edges g0 ∧ k = 1%nat) ∧
              (i = (order g0 - 1)%nat → s = 0%nat ∧ k = 1%nat)) ∧
  (∃ ls w',
     SearchSpace_build py_hash (mkSpace g0 true) w = (Ok ls, w') ∧
     ∀ a, a ∈ ls →
       mean_num_edges a (w_heap w') = (Raise compressed_error, w_heap w')).
Proof.
  intros Hs Hc Hn. split.
  - destruct (SearchSpace_build_connected g0 Hs Hc py_hash false w ltac:(lia))
      as (w' & Hbuild & _ & _ & _ & Hdone).
    replace (Nat.max (order g0) 2) with (order g0) in * by lia.
    eexists _, w'. split; [exact Hbuild|].
    intros i a Hi. apply lookup_seq in Hi as [-> Hi].
    destruct (Hdone i Hi) as (lv & Hlv & _ & s & Hnodes & Hnp & Hs2).
    assert (Hne : length s ≠ 0%nat).
    { rewrite <- (length_fmap snd), Hs2.
      pose proof (level_pure_nonempty g0 Hs Hc i Hi).
      by destruct (level_pure g0 i). }
    exists (sum_list ((λ p : Z * SearchSpaceNode, number_of_edges (_graph p.2)) <$> s)),
      (length s).
    split; [|split; [by eapply num_partitions_nodes|split; [lia|split]]].
    + unfold mean_num_edges.
      rewrite (bind_Ok _ _ _ _ _ (get_level_Some _ _ _ Hlv)). rewrite Hnodes.
      by destruct (length s =? 0)%nat eqn:Hz; [apply Nat.eqb_eq in Hz|].
    + intros ->. rewrite sum_list_edges_level, Hs2, <- (length_fmap snd s), Hs2.
      destruct (level_pure_0 g0 Hs Hc) as (root & Hroot & -> & _).
      destruct (init_int_frozen g0 (proj1 Hs)) as (x & Hx & _ & _ & _ & _ & He).
      assert (x = root) as -> by congruence.
      simpl. split; [lia|done].
    + intros ->. rewrite sum_list_edges_level, Hs2, <- (length_fmap snd s), Hs2.
      destruct (level_pure_last_one g0 Hs Hc Hn) as [Hone Hnone].
      split; [|done].
      rewrite (sum_list_fmap_same 0); [lia|].
      apply Forall_forall. intros x Hx. by apply Hnone.
  - destruct (SearchSpace_build_connected g0 Hs Hc py_hash true w ltac:(lia))
      as (w' & Hbuild & _ & _ & _ & Hdone).
    eexists _, w'. split; [exact Hbuild|].
    intros a Ha. apply list_elem_of_lookup in Ha as [i Hi].
    apply lookup_seq in Hi as [-> Hi].
    destruct (Hdone i Hi) as (lv & Hlv & _ & Hnodes & _).
    unfold mean_num_edges.
    rewrite (bind_Ok _ _ _ _ _ (get_level_Some _ _ _ Hlv)). by rewrite Hnodes.
Qed.

Lemma mean_num_edges_after_build_witness :
  ∃ ls w' a s k,
    SearchSpace_build const_hash (mkSpace cycle4 false) empty_world = (Ok ls, w') ∧
    ls !! 0%nat = Some a ∧
    mean_num_edges a (w_heap w') = (Ok (s, k), w_heap w') ∧ s = 4%nat ∧ k = 1%nat.
Proof.
  destruct (mean_num_edges_after_build const_hash cycle4 empty_world
              cycle4_simple cycle4_connected)
    as [(ls & w' & Hbuild & Hmean) _].
  - vm_compute. lia.
  - assert (Hls : ls !! 0%nat = Some 0%nat).
    { pose proof Hbuild as Hb. vm_compute in Hb. by injection Hb as <- _. }
    destruct (Hmean 0%nat 0%nat Hls) as (s & k & Hm & _ & _ & H0 & _).
    destruct (H0 eq_refl) as [-> ->].
    exists ls, w', 0%nat, (number_of_edges cycle4), 1%nat.
    split; [exact Hbuild|]. split; [exact Hls|]. split; [exact Hm|]. split; reflexivity.
Defined.

(** ** The levels hold the partitions into connected clusters *)

Lemma joined_in_mono g (b b' : fset) u v :
  b ⊆ b' → joined_in g b u v → joined_in g b' u v.
Proof.
  intros Hsub. unfold joined_in. apply rtc_subrel.
  intros x y (Hx & Hy & Hxy). split; [by apply Hsub|]. split; [by apply Hsub|done].
Qed.

Lemma cluster_connected_singleton g (n : Z) : cluster_connected g {[n]}.
Proof.
  intros u v Hu Hv. apply elem_of_singleton in Hu as ->.
  apply elem_of_singleton in Hv as ->. apply rtc_refl.
Qed.

Lemma cluster_connected_union g (s t : fset) u v :
  graph_wf g → cluster_connected g s → cluster_connected g t →
  u ∈ s → v ∈ t → adjacent g u v → cluster_connected g (s ∪ t).
Proof.
  intros Hwf Hs Ht Hu Hv Huv.
  assert (Hss : s ⊆ s ∪ t) by (clear; set_solver).
  assert (Htt : t ⊆ s ∪ t) by (clear; set_solver).
  assert (Hst : joined_in g (s ∪ t) u v).
  { apply rtc_once. split; [by apply Hss|]. split; [by apply Htt|done]. }
  assert (Hts : joined_in g (s ∪ t) v u).
  { apply rtc_once. split; [by apply Htt|]. split; [by apply Hss|]. by apply Hwf. }
  intros x y Hx Hy.
  apply elem_of_union in Hx as [Hx|Hx]; apply elem_of_union in Hy as [Hy|Hy].
  - apply (joined_in_mono g s); [done|]. by apply Hs.
  - etrans; [apply (joined_in_mono g s); [done|]; by apply (Hs x u)|].
    etrans; [exact Hst|]. apply (joined_in_mono g t); [done|]. by apply Ht.
  - etrans; [apply (joined_in_mono g t); [done|]; by apply (Ht x v)|].
    etrans; [exact Hts|]. apply (joined_in_mono g s); [done|]. by apply Hs.
  - apply (joined_in_mono g t); [done|]. by apply Ht.
Qed.

Lemma level_pure_child g0 j y :
  simple_graph g0 → connected g0 → y ∈ level_pure g0 (S j) →
  ∃ x s t, x ∈ level_pure g0 j ∧ partition_node g0 x ∧ (s, t) ∈ edges (_graph x) ∧
           expand_child (_graph x) (s, t) = Ok y ∧
           ∀ l, l ∈ nodes (_graph y) ↔
                ∃ a, a ∈ nodes (_graph x) ∧ l = merged_label (s, t) a.
Proof.
  intros Hs Hc Hy. rewrite level_pure_S in Hy.
  apply next_nodes_elem in Hy as (x & Hx & Hy).
  destruct (level_pure_partition g0 Hs Hc j x Hx) as [Hp _].
  unfold SearchSpaceNode_expand in Hy.
  apply list_elem_of_fmap in Hy as ([s t] & Heq & He).
  destruct (expand_child_partition g0 x s t Hp He) as (c & Hcc & _ & _ & Hn & _).
  assert (y = c) as -> by congruence.
  by exists x, s, t.
Qed.

Lemma level_pure_clusters_connected g0 j x :
  simple_graph g0 → connected g0 → x ∈ level_pure g0 j →
  ∀ b, b ∈ nodes (_graph x) → cluster_connected g0 b.
Proof.
  intros Hs Hc. revert x. induction j as [|j IH]; intros x Hx b Hb.
  - destruct (level_pure_0 g0 Hs Hc) as (root & Hroot & Hl & _).
    rewrite Hl in Hx. apply list_elem_of_singleton in Hx as ->.
    apply elem_of_blocks in Hb. rewrite (root_blocks g0 root (proj1 Hs) Hroot) in Hb.
    apply elem_of_list_to_set, list_elem_of_fmap in Hb as (n & -> & _).
    apply cluster_connected_singleton.
  - destruct (level_pure_child g0 j x Hs Hc Hx) as (p & s & t & Hp & Hpp & Hst & _ & Hn).
    destruct (proj1 (Hn b) Hb) as (a & Ha & ->).
    destruct (merged_label_cases s t a) as [[-> _]|(-> & _ & _)]; [|by apply (IH p)].
    destruct (edge_ends g0 p s t Hpp Hst) as (Hsn & Htn & Hadj & _).
    pose proof Hpp as (_ & _ & _ & Hind & _).
    apply Hind in Hadj as (_ & _ & _ & u & v & Hu & Hv & Huv).
    apply (cluster_connected_union g0 s t u v); [apply Hs|by apply (IH p)..|done|done|done].
Qed.

Lemma level_pure_connected_partition g0 j x :
  simple_graph g0 → connected g0 → x ∈ level_pure g0 j →
  connected_partition g0 (blocks x) ∧ (size (blocks x) + j = order g0)%nat.
Proof.
  intros Hs Hc Hx. destruct (level_pure_partition g0 Hs Hc j x Hx) as [Hp Ho].
  split; [split|].
  - by apply blocks_is_partition.
  - intros b Hb. apply elem_of_blocks in Hb.
    by apply (level_pure_clusters_connected g0 j x).
  - rewrite size_blocks by apply Hp. done.
Qed.

Lemma refines_root g0 root P :
  graph_wf g0 → SearchSpaceNode_init g0 = Ok root →
  is_partition (vertex_set g0) P → refines (blocks root) P.
Proof.
  intros Hwf Hroot (_ & _ & Hcov) q Hq.
  rewrite (root_blocks g0 root Hwf Hroot) in Hq.
  apply elem_of_list_to_set, list_elem_of_fmap in Hq as (n & -> & Hn).
  destruct (proj1 (Hcov n)) as (b & Hb & Hnb).
  { unfold vertex_set. by apply elem_of_list_to_set. }
  exists b. split; [done|]. clear -Hnb. set_solver.
Qed.

Lemma refines_all_blocks g0 x P :
  partition_node g0 x → is_partition (vertex_set g0) P →
  (∀ q, q ∈ nodes (_graph x) → q ∈ P) → blocks x = P.
Proof.
  intros Hp HP Hall. pose proof HP as (Hne & _ & Hcov).
  pose proof Hp as (_ & _ & Hcx & _).
  apply set_eq. intros b. rewrite elem_of_blocks. split; [apply Hall|].
  intros Hb. destruct (set_choose_or_empty b) as [[u Hu]|Hemp];
    [|apply leibniz_equiv in Hemp; by destruct (Hne b Hb)].
  assert (Hug : u ∈ nodes g0).
  { apply (elem_of_list_to_set (C := fset)). apply Hcov. by exists b. }
  apply Hcx in Hug as (q & Hq & Huq).
  by rewrite <- (is_partition_block_unique _ P q b u HP (Hall q Hq) Hb Huq Hu).
Qed.

Lemma merge_towards g0 P :
  simple_graph g0 → connected g0 → connected_partition g0 P →
  ∀ m j x, x ∈ level_pure g0 j → order (_graph x) = m → refines (blocks x) P →
           ∃ j' y, y ∈ level_pure g0 j' ∧ blocks y = P.
Proof.
  intros Hs Hc [HP Hconn] m. induction m as [|m IH]; intros j x Hx Hm Href;
    destruct (level_pure_partition g0 Hs Hc j x Hx) as [Hp Ho];
    (destruct (decide (Forall (λ q, q ∈ P) (nodes (_graph x)))) as [Hall|Hnall];
     [exists j, x; split; [done|];
      apply (refines_all_blocks g0 x P Hp HP); by apply Forall_forall|]).
  - apply not_Forall_Exists in Hnall; [|apply _].
    apply Exists_exists in Hnall as (q & Hq & _).
    unfold order in Hm. destruct (_graph x); [by apply elem_of_nil in Hq|done].
  - apply not_Forall_Exists in Hnall; [|apply _].
    apply Exists_exists in Hnall as (q & Hq & HqP). simpl in HqP.
    pose proof Hp as ([Hwfx Hnex] & _ & Hcx & Hix & _).
    destruct (Href q) as (b & Hb & Hqb); [by apply elem_of_blocks|].
    assert (Hneq : q ≠ b) by (by intros ->).
    destruct (set_choose_or_empty (b ∖ q)) as [[v Hv]|Hemp].
    2:{ destruct Hneq. apply leibniz_equiv in Hemp. apply set_eq. intros u.
        split; [apply Hqb|]. intros Hu.
        destruct (decide (u ∈ q)) as [|Hnot]; [done|].
        exfalso. clear -Hemp Hu Hnot. set_solver. }
    apply elem_of_difference in Hv as [Hvb Hvq].
    destruct (set_choose_or_empty q) as [[u Hu]|Hemp];
      [|apply leibniz_equiv in Hemp; by destruct (Hnex q Hq)].
    destruct (rtc_exit _ (λ a, a ∈ q) u v (Hconn b Hb u v (Hqb u Hu) Hvb) Hu Hvq)
      as (x1 & y1 & Hx1 & Hy1 & Hx1b & Hy1b & Hadj0).
    assert (Hy1g : y1 ∈ nodes g0).
    { apply (proj1 Hs) in Hadj0. by eapply adjacent_node. }
    apply Hcx in Hy1g as (q2 & Hq2 & Hy1q2).
    assert (Hq2ne : q ≠ q2) by (by intros ->).
    assert (Hq2b : q2 ⊆ b).
    { destruct (Href q2) as (b2 & Hb2 & Hsub); [by apply elem_of_blocks|].
      by rewrite (is_partition_block_unique _ P b b2 y1 HP Hb Hb2 Hy1b (Hsub y1 Hy1q2)). }
    assert (Hadj : adjacent (_graph x) q q2).
    { apply Hix. split; [done|]. split; [done|]. split; [done|]. by exists x1, y1. }
    assert (∃ s t, (s, t) ∈ edges (_graph x) ∧ s ∪ t = q ∪ q2 ∧
                   blocks x ∖ {[s]} ∖ {[t]} = blocks x ∖ {[q]} ∖ {[q2]})
      as (s & t & Hst & Hu' & Hd).
    { destruct (adjacent_edges _ _ _ Hwfx Hadj) as [He|He].
      - by exists q, q2.
      - exists q2, q. split; [done|]. split; [clear; set_solver|]. clear. set_solver. }
    destruct (expand_child_partition g0 x s t Hp Hst) as (c & Hcc & Hpc & Hoc & Hn & _).
    destruct (next_nodes_complete (level_pure g0 j) x c Hx) as (y & Hy & Hyc).
    { unfold SearchSpaceNode_expand. apply list_elem_of_fmap. by exists (s, t). }
    rewrite <- level_pure_S in Hy.
    destruct (level_pure_partition g0 Hs Hc (S j) y Hy) as [Hpy Hoy].
    assert (Hby : blocks y = {[ q ∪ q2 ]} ∪ (blocks x ∖ {[q]} ∖ {[q2]})).
    { rewrite <- Hu', <- Hd, <- (child_blocks g0 x s t c Hp Hst Hn).
      destruct Hyc as [->|Heq]; [done|]. by apply (eq_blocks g0). }
    apply (IH (S j) y Hy); [lia|].
    intros l Hl. rewrite Hby in Hl. apply elem_of_union in Hl as [Hl|Hl].
    + apply elem_of_singleton in Hl as ->. exists b. split; [done|].
      clear -Hqb Hq2b. set_solver.
    + apply elem_of_difference in Hl as [Hl _]. apply elem_of_difference in Hl as [Hl _].
      by apply Href.
Qed.

Lemma connected_partition_enumerated g0 P :
  simple_graph g0 → connected g0 → connected_partition g0 P →
  ∃ x, x ∈ level_pure g0 (order g0 - size P) ∧ blocks x = P.
Proof.
  intros Hs Hc HP.
  destruct (level_pure_0 g0 Hs Hc) as (root & Hroot & Hl & _).
  destruct (merge_towards g0 P Hs Hc HP (order (_graph root)) 0 root)
    as (j & y & Hy & Hby); [rewrite Hl; by left|done|..].
  { apply (refines_root g0); [apply Hs|done|apply HP]. }
  destruct (level_pure_partition g0 Hs Hc j y Hy) as [Hp Ho].
  exists y. split; [|done].
  rewrite <- Hby, size_blocks by apply Hp.
  by replace (order g0 - order (_graph y))%nat with j by lia.
Qed.

(** The levels of a connected graph are the partitions of its nodes into
    connected clusters: level [j] holds every partition into [n - j]
    connected clusters, once, and nothing else. *)
Lemma level_pure_exact g0 j :
  simple_graph g0 → connected g0 →
  NoDup (blocks <$> level_pure g0 j) ∧
  ∀ P, P ∈ blocks <$> level_pure g0 j ↔
       connected_partition g0 P ∧ (size P + j = order g0)%nat.
Proof.
  intros Hs Hc. split; [by apply NoDup_blocks_level|].
  intros P. rewrite list_elem_of_fmap. split.
  - intros (x & -> & Hx). by apply level_pure_connected_partition.
  - intros [HP Hsize].
    destruct (connected_partition_enumerated g0 P Hs Hc HP) as (x & Hx & Hbx).
    exists x. split; [done|].
    by replace j with (order g0 - size P)%nat by lia.
Qed.

(** X15: After an uncompressed [build] on a connected graph the level [i] holds
    exactly the partitions of the nodes into [n - i] connected clusters:
    the partition nodes stored in it have pairwise different sets of
    clusters, each is such a partition, and every such partition is
    among them. *)
Theorem build_enumerates_connected_partitions
    (py_hash : list (list fset) → Z) (g0 : Graph Z) (w : world) :
  simple_graph g0 → connected g0 → order g0 ≠ 0%nat →
  ∃ ls w',
    SearchSpace_build py_hash (mkSpace g0 false) w = (Ok ls, w') ∧
    ∀ i a, ls !! i = Some a →
      ∃ lv s, w_heap w' !! a = Some lv ∧ _level lv = i ∧ _nodes lv = Some s ∧
              NoDup (blocks <$> s.*2) ∧
              ∀ P, (∃ p, p ∈ s ∧ blocks p.2 = P) ↔
                   connected_partition g0 P ∧ (size P + i = order g0)%nat.
Proof.
  intros Hs Hc Hn.
  destruct (SearchSpace_build_connected g0 Hs Hc py_hash false w Hn)
    as (w' & Hbuild & _ & _ & _ & Hdone).
  eexists _, w'. split; [exact Hbuild|].
  intros i a Hi. apply lookup_seq in Hi as [-> Hi].
  destruct (Hdone i Hi) as (lv & Hlv & Hlev & s & Hnodes & _ & Hs2).
  destruct (level_pure_exact g0 i Hs Hc) as [Hnd Hex].
  exists lv, s. split; [done|]. split; [done|]. split; [done|].
  rewrite Hs2. split; [done|].
  intros P. rewrite <- Hex, <- Hs2, <- list_fmap_compose, list_elem_of_fmap.
  split; intros (p & Hp1 & Hp2); exists p; by split.
Qed.

Lemma build_enumerates_connected_partitions_witness :
  ∃ ls w' a lv s,
    SearchSpace_build const_hash (mkSpace path3 false) empty_world = (Ok ls, w') ∧
    ls !! 1%nat = Some a ∧ w_heap w' !! a = Some lv ∧ _nodes lv = Some s ∧
    NoDup (blocks <$> s.*2).
Proof.
  destruct (build_enumerates_connected_partitions const_hash path3 empty_world
              path3_simple path3_connected)
    as (ls & w' & Hbuild & Hlevels).
  - by vm_compute.
  - assert (Hls : ls !! 1%nat = Some 1%nat).
    { pose proof Hbuild as Hb. vm_compute in Hb. by injection Hb as <- _. }
    destruct (Hlevels 1%nat 1%nat Hls) as (lv & s & Hlv & _ & Hnodes & Hnd & _).
    exists ls, w', 1%nat, lv, s.
    split; [exact Hbuild|]. split; [exact Hls|]. split; [exact Hlv|].
    split; [exact Hnodes|exact Hnd].
Defined.

(** X16: Compressed or not, [num_partitions(i)] of a built search space is the
    number of partitions of the nodes into [n - i] connected clusters. *)
Theorem num_partitions_counts_connected_partitions
    (py_hash : list (list fset) → Z) (g0 : Graph Z) (c : bool) (w : world) :
  simple_graph g0 → connected g0 → order g0 ≠ 0%nat →
  ∃ ls w',
    SearchSpace_build py_hash (mkSpace g0 c) w = (Ok ls, w') ∧
    ∀ i : nat, (i < length ls)%nat →
      ∃ l : list (gset fset),
        NoDup l ∧
        (∀ P, P ∈ l ↔ connected_partition g0 P ∧ (size P + i = order g0)%nat) ∧
        SearchSpace_num_partitions (Some (Z.of_nat i)) w' = (Ok (length l), w').
Proof.
  intros Hs Hc Hn.
  destruct (SearchSpace_build_counts py_hash g0 c w Hs Hc Hn)
    as (w' & Hbuild & Hlv & _ & _ & Hcount & _).
  set (m := Nat.max (order g0) 2) in *.
  exists (seq (length (w_heap w)) m), w'. split; [exact Hbuild|].
  rewrite length_seq. intros i Hi.
  destruct (level_pure_exact g0 i Hs Hc) as [Hnd Hex].
  exists (blocks <$> level_pure g0 i). split; [done|]. split; [done|].
  rewrite (SearchSpace_num_partitions_at w' _ m (λ j, length (level_pure g0 j)) Hlv Hcount).
  rewrite bool_decide_eq_true_2 by lia.
  rewrite Z.mod_small by lia. by rewrite Nat2Z.id, length_fmap.
Qed.

Lemma num_partitions_counts_connected_partitions_witness :
  ∃ ls w' (l : list (gset fset)),
    SearchSpace_build const_hash (mkSpace cycle4 true) empty_world = (Ok ls, w') ∧
    NoDup l ∧
    SearchSpace_num_partitions (Some 2) w' = (Ok (length l), w').
Proof.
  destruct (num_partitions_counts_connected_partitions const_hash cycle4 true empty_world
              cycle4_simple cycle4_connected)
    as (ls & w' & Hbuild & Hlevels).
  - by vm_compute.
  - assert (Hlen : length ls = 4%nat).
    { pose proof Hbuild as Hb. vm_compute in Hb. by injection Hb as <- _. }
    destruct (Hlevels 2%nat) as (l & Hnd & _ & Hnum); [rewrite Hlen; lia|].
    exists ls, w', l. split; [exact Hbuild|]. split; [exact Hnd|exact Hnum].
Defined.

(** ** Graphs with a self-loop *)

Lemma merged_edge_loop (A : fset) (e : fset * fset) : merged_edge (A, A) e = e.
Proof.
  unfold merged_edge, in_edge. simpl. destruct e as [a b]. simpl.
  destruct (decide (a = A)) as [->|Ha].
  - rewrite bool_decide_eq_true_2 by done. simpl. by rewrite union_idemp_L.
  - rewrite (bool_decide_eq_false_2 (a = A)) by done. simpl.
    destruct (decide (b = A)) as [->|Hb].
    + rewrite bool_decide_eq_true_2 by done. simpl. by rewrite union_idemp_L.
    + by rewrite (bool_decide_eq_false_2 (b = A)) by done.
Qed.

(** Merging a self-loop removes no vertex of a connected partition node,
    so the assertion of [expand] fails. *)
Lemma expand_child_self_loop x (A : fset) :
  node_ok x → connected (_graph x) → (A, A) ∈ edges (_graph x) →
  expand_child (_graph x) (A, A) = Raise AssertionError.
Proof.
  intros [Hwf Hne] Hconn Hloop.
  destruct (edges_nodes _ A A Hwf Hloop) as [HA _].
  assert (Hsame : order (merged_graph (_graph x) (A, A)) = order (_graph x)).
  { unfold order.
    rewrite <- (length_fmap fst (merged_graph _ _)), <- (length_fmap fst (_graph x)).
    apply NoDup_same_length; [apply merged_graph_wf|apply Hwf|].
    intros l.
    change (l ∈ nodes (merged_graph (_graph x) (A, A)) ↔ l ∈ nodes (_graph x)).
    rewrite merged_graph_nodes. simpl. rewrite union_idemp_L. split.
    - intros [->|([a b] & He & _ & Hl)]; [done|].
      rewrite merged_edge_loop in Hl. simpl in Hl.
      destruct (edges_nodes _ a b Hwf He). by destruct Hl as [-> | ->].
    - intros Hl. destruct (decide (l = A)) as [|HlA]; [by left|]. right.
      destruct (rtc_first_step _ l A (Hconn l A Hl HA) HlA) as (c & Hlc).
      destruct (adjacent_edges _ l c Hwf Hlc) as [He|He].
      + exists (l, c). split; [done|]. split; [by intros [= ->]|].
        rewrite merged_edge_loop. by left.
      + exists (c, l). split; [done|]. split; [by intros [= _ ->]|].
        rewrite merged_edge_loop. by right. }
  unfold expand_child. rewrite Hsame.
  destruct (decide _) as [Heq|]; [lia|done].
Qed.

Lemma first_raise (rs : list (res SearchSpaceNode)) e :
  (∀ r, r ∈ rs → r = Raise e ∨ ∃ c, r = Ok c ∧ node_ok c) →
  Raise e ∈ rs →
  ∃ rs1 rs2, rs = rs1 ++ Raise e :: rs2 ∧ ∀ r, r ∈ rs1 → ∃ c, r = Ok c ∧ node_ok c.
Proof.
  induction rs as [|r rs IH]; intros Hall Hin; [by apply elem_of_nil in Hin|].
  destruct (Hall r) as [->|(c & -> & Hc)]; [by left| |].
  - exists [], rs. split; [done|]. intros r Hr. by apply elem_of_nil in Hr.
  - apply elem_of_cons in Hin as [?|Hin]; [done|].
    destruct IH as (rs1 & rs2 & -> & Hrs1); [intros r Hr; apply Hall; by right|done|].
    exists (Ok c :: rs1), rs2. split; [done|].
    intros r Hr. apply elem_of_cons in Hr as [->|Hr]; [by exists c|by apply Hrs1].
Qed.

Section ExpandRaise.
Variable py_hash : list (list fset) → Z.

Lemma add_children_raise a rs e (h : heap) lv s :
  h !! a = Some lv → _nodes lv = Some s → pyset_ok py_hash s →
  (∀ r, r ∈ rs → r = Raise e ∨ ∃ c, r = Ok c ∧ node_ok c) →
  Raise e ∈ rs →
  ∃ h', forM_ rs (λ r, let! new_node := lift_res r in
                       level_add_node py_hash a new_node) h
        = (Raise e, h').
Proof.
  intros Ha Hs Hok Hall Hin.
  destruct (first_raise rs e Hall Hin) as (rs1 & rs2 & -> & Hrs1).
  destruct (add_children_spec py_hash a rs1 h lv s Ha Hs Hok Hrs1) as (s' & Hrun & _).
  rewrite forM__app. rewrite (bind_Ok _ _ _ _ _ Hrun). by eexists.
Qed.

(** [expand] on a level passes on the exception of the first child that
    fails. *)
Lemma SearchSpaceLevel_expand_raise a (h : heap) lv s e :
  h !! a = Some lv → _next lv = None → _nodes lv = Some s →
  (∀ r, r ∈ s ≫= (λ p, SearchSpaceNode_expand p.2) →
        r = Raise e ∨ ∃ c, r = Ok c ∧ node_ok c) →
  Raise e ∈ s ≫= (λ p, SearchSpaceNode_expand p.2) →
  ∃ h', SearchSpaceLevel_expand py_hash a h = (Raise e, h').
Proof.
  intros Ha Hnext Hs Hall Hin.
  assert (Hlen : (a < length h)%nat) by (by eapply lookup_lt_Some).
  set (new := mkLevel None (Some a) (_level lv + 1) None (Some [])).
  set (h1 := <[a := with_next lv (length h)]> h ++ [new]).
  assert (Hnew : h1 !! length h = Some new).
  { unfold h1. rewrite lookup_app_r by (by rewrite length_insert).
    by rewrite length_insert, Nat.sub_diag. }
  destruct (add_children_raise (length h) (s ≫= λ p, SearchSpaceNode_expand p.2) e
              h1 new [] Hnew eq_refl (pyset_ok_nil py_hash) Hall Hin) as (h' & Hloop).
  exists h'.
  unfold SearchSpaceLevel_expand.
  rewrite (bind_Ok _ _ _ _ _ (get_level_Some _ _ _ Ha)). rewrite Hnext.
  unfold SearchSpaceLevel_init. simpl.
  unfold bind at 1. unfold bind at 1.
  rewrite (get_level_Some _ _ _ Ha). unfold alloc_level.
  unfold bind at 1. unfold put_level. rewrite Hs.
  unfold bind at 1.
  rewrite (forM__bind s (λ p, SearchSpaceNode_expand p.2)).
  replace (<[a:=mkLevel (Some (length h)) (_previous lv) (_level lv)
                 (_num_partitions lv) (Some s)]> (h ++ [new])) with h1.
  2:{ unfold h1. rewrite insert_app_l by done. do 3 f_equal.
      unfold with_next. by rewrite Hs. }
  by rewrite Hloop.
Qed.
End ExpandRaise.

(** X17: [build] on a connected graph that has a self-loop raises
    [AssertionError]: merging the loop leaves the vertex count as it is. *)
Theorem build_fails_on_self_loop
    (py_hash : list (list fset) → Z) (g0 : Graph Z) (c : bool) (w : world) :
  graph_wf g0 → connected g0 → (∃ a, adjacent g0 a a) →
  ∃ w', SearchSpace_build py_hash (mkSpace g0 c) w = (Raise AssertionError, w').
Proof.
  intros Hwf Hconn [a Haa].
  assert (Hn : order g0 ≠ 0%nat).
  { apply adjacent_node in Haa. unfold order. destruct g0; [by apply elem_of_nil in Haa|done]. }
  destruct w as [lvls h0].
  destruct (SearchSpaceLevel_init_graph py_hash g0 h0 Hn)
    as (root & s & Hroot & Hok & Hs2 & Hinit).
  destruct (init_int_frozen g0 Hwf) as (x & Hx & Hokx & Hnx & Hax & _).
  assert (x = root) as -> by congruence.
  assert (Hcr : connected (_graph root)).
  { intros l1 l2 Hl1 Hl2. apply Hnx in Hl1, Hl2.
    rewrite nodes_frozen_graph in Hl1, Hl2.
    apply list_elem_of_fmap in Hl1 as (u & -> & Hu).
    apply list_elem_of_fmap in Hl2 as (v & -> & Hv).
    apply (rtc_adjacent_map g0 (_graph root) (λ n, {[n]})); [|by apply Hconn].
    intros u' v' Huv. right. apply Hax, adjacent_frozen_graph. by exists u', v'. }
  assert (Hloop : (({[a]} : fset), ({[a]} : fset)) ∈ edges (_graph root)).
  { assert (Hadj : adjacent (_graph root) {[a]} {[a]}).
    { apply Hax, adjacent_frozen_graph. by exists a, a. }
    by destruct (adjacent_edges _ _ _ (proj1 Hokx) Hadj). }
  set (h1 := h0 ++ [mkLevel None None 0 None (Some s)]) in *.
  destruct (SearchSpaceLevel_expand_raise py_hash (length h0) h1
              (mkLevel None None 0 None (Some s)) s AssertionError)
    as (h' & Hexp).
  - unfold h1. rewrite lookup_app_r by done. by rewrite Nat.sub_diag.
  - done.
  - done.
  - intros r Hr. apply list_elem_of_bind in Hr as (p & Hr & Hp).
    apply (SearchSpaceNode_expand_cases p.2); [|done]. by apply (Hok p).
  - assert (Hs : ∃ hx, s = [(hx, root)]).
    { destruct s as [|[hx y] [|? ?]]; simplify_eq/=. by exists hx. }
    destruct Hs as [hx ->]. simpl. rewrite app_nil_r.
    unfold SearchSpaceNode_expand. apply list_elem_of_fmap.
    exists ({[a]}, {[a]}). split; [|done].
    symmetry. by apply expand_child_self_loop.
  - exists (mkWorld lvls h').
    unfold SearchSpace_build. cbn [ss_graph ss_compress].
    rewrite (bind_Ok _ _ _ _ _ (on_heap_run _ _ _ _ _ Hinit)).
    by rewrite (bind_Raise _ _ _ _ _ (on_heap_run _ _ _ _ _ Hexp)).
Qed.

Lemma build_fails_on_self_loop_witness :
  ∃ w', SearchSpace_build const_hash (mkSpace (graph_of_edges [(1, 2); (2, 2)]) true)
          empty_world
        = (Raise AssertionError, w').
Proof.
  apply (build_fails_on_self_loop const_hash (graph_of_edges [(1, 2); (2, 2)]) true
           empty_world).
  - apply graph_of_edges_wf.
  - by apply connectedb_sound.
  - exists 2. apply elem_of_directed_pairs. vm_compute.
    apply list_elem_of_In. simpl. tauto.
Defined.

(** ** Printing and exporting a built search space *)

Section BuiltLevels.
Variables (self : SearchSpace) (b m : nat) (h : heap).
Let g0 := ss_graph self.
Let c := ss_compress self.
Hypothesis Hdone : ∀ i, (i < m)%nat →
  ∃ lv, h !! (b + i)%nat = Some lv ∧ level_done c (level_pure g0 i) i lv.

Lemma levels_to_records_built (w : world) ls j k :
  _levels w = Some ls → w_heap w = h → (k + j ≤ m)%nat →
  (∀ i, (i < m)%nat →
        SearchSpace_num_partitions (Some (Z.of_nat i)) w
        = (Ok (length (level_pure g0 i)), w)) →
  levels_to_records_loop self (seq (b + k) j) w
  = (Ok ((λ i, mkRecord i (Z.of_nat (num_nodes self) - Z.of_nat i)
                        (num_k_partitions_ub self (Z.of_nat i))
                        (num_k_partitions_lb self (Z.of_nat i))
                        (length (level_pure g0 i))) <$> seq k j), w).
Proof.
  intros Hls Hh Hk Hnum. revert k Hk. induction j as [|j IH]; intros k Hk; [done|].
  destruct (Hdone k ltac:(lia)) as (lv & Hlv & Hlev & _).
  cbn [seq levels_to_records_loop].
  assert (Hlevel : on_heap (level (b + k)) w = (Ok k, w)).
  { destruct w as [l hw]. simpl in Hh. subst hw. apply on_heap_run.
    unfold level. rewrite (bind_Ok _ _ _ _ _ (get_level_Some _ _ _ Hlv)).
    unfold ret. by rewrite Hlev. }
  rewrite (bind_Ok _ _ _ _ _ Hlevel).
  rewrite (bind_Ok _ _ _ _ _ (Hnum k ltac:(lia))).
  replace (S (b + k)) with (b + S k)%nat by lia.
  rewrite (bind_Ok _ _ _ _ _ (IH (S k) ltac:(lia))). done.
Qed.
End BuiltLevels.

Section BuiltPrint.
Variables (py_set_iter : pyset → pyset) (self : SearchSpace) (b m : nat) (h : heap).
Let g0 := ss_graph self.
Let c := ss_compress self.
Hypothesis Hiter : ∀ s, py_set_iter s ≡ₚ s.
Hypothesis Hok : ∀ i x, (i < m)%nat → x ∈ level_pure g0 i → node_ok x.
Hypothesis Hdone : ∀ i, (i < m)%nat →
  ∃ lv, h !! (b + i)%nat = Some lv ∧ level_done c (level_pure g0 i) i lv.

Lemma print_levels_built print_nodes j k :
  (k + j ≤ m)%nat →
  ∃ dumps,
    length dumps = j ∧
    (∀ i d, dumps !! i = Some d → d ≡ₚ node_labels <$> level_pure g0 (k + i)) ∧
    print_levels py_set_iter self print_nodes (seq (b + k) j) h
    = (Ok (level_rows self (print_nodes && negb c) k dumps), h).
Proof.
  revert k. induction j as [|j IH]; intros k Hk.
  { exists []. split; [done|]. split; [|done]. intros i d Hi. by destruct i. }
  destruct (Hdone k ltac:(lia)) as (lv & Hlv & Hd).
  pose proof (level_done_num_partitions c _ k _ h lv Hlv Hd) as Hnum.
  destruct Hd as [Hlev Hd].
  destruct (IH (S k) ltac:(lia)) as (dumps & Hlen & Hperm & Hrest).
  replace (b + S k)%nat with (S (b + k)) in Hrest by lia.
  assert (Hdump : ∃ d dump,
    d ≡ₚ node_labels <$> level_pure g0 k ∧
    (match _nodes lv with
     | Some ((_ :: _) as s) =>
         if print_nodes
         then (let! ts := lift_res (str_nodes (py_set_iter s).*2) in
               ret [PartitionsLine ts])
         else ret []
     | _ => ret []
     end) h = (Ok dump, h) ∧
    dump = if (print_nodes && negb c)%bool
           then match d with [] => [] | _ :: _ => [PartitionsLine d] end
           else []).
  { destruct (decide (c = true)) as [Hc|Hc].
    - rewrite Hc in Hd |- *. destruct Hd as [-> _].
      exists (node_labels <$> level_pure g0 k), [].
      by rewrite andb_false_r.
    - apply not_true_is_false in Hc. rewrite Hc in Hd |- *.
      destruct Hd as (s & -> & _ & Hs). rewrite andb_true_r.
      exists (node_labels <$> (py_set_iter s).*2).
      assert (Hp : node_labels <$> (py_set_iter s).*2
                   ≡ₚ node_labels <$> level_pure g0 k).
      { by rewrite (Hiter s), Hs. }
      destruct s as [|p s].
      + pose proof (Hiter []) as Hnil. apply Permutation_nil_r in Hnil.
        rewrite Hnil in Hp |- *. exists []. by destruct print_nodes.
      + destruct print_nodes; [|by exists []].
        exists [PartitionsLine (node_labels <$> (py_set_iter (p :: s)).*2)].
        split; [done|]. split.
        * rewrite str_nodes_ok; [done|].
          intros x Hx. apply (Hok k); [lia|].
          by rewrite <- Hs, <- (Hiter (p :: s)).
        * destruct (py_set_iter (p :: s)) as [|q t] eqn:Hit; [|done].
          pose proof (Hiter (p :: s)) as Hnil. rewrite Hit in Hnil.
          by apply Permutation_nil_cons in Hnil. }
  destruct Hdump as (d & dump & Hd' & Hrun & Hdump).
  exists (d :: dumps). split; [by rewrite <- Hlen|]. split.
  - intros [|i] d' Hi; simpl in Hi.
    + injection Hi as <-. by rewrite Nat.add_0_r.
    + replace (k + S i)%nat with (S k + i)%nat by lia. by apply Hperm.
  - cbn [seq]. rewrite (print_levels_step _ _ _ _ _ _ _ _ Hlv Hnum).
    rewrite (bind_Ok _ _ _ _ _ Hrun), (bind_Ok _ _ _ _ _ Hrest).
    cbn [level_rows]. unfold level_row at 1. fold g0.
    by rewrite Hlev, Hdump.
Qed.
End BuiltPrint.

(** X18: [print_results] on a built search space writes the Bell number, the
    total, one line per level with its number [i], [k = n - i], the
    Stirling number [S(n, k)] and the count of the level, and a blank
    line.  When the partitions are asked for and the search space is not
    compressed, the line of each level is followed by one line that lists
    every partition of the level once, in the order in which the set is
    iterated, each with its clusters in ascending order; no such line is
    written otherwise. *)
Theorem print_results_after_build
    (py_hash : list (list fset) → Z) (py_set_iter : pyset → pyset)
    (g0 : Graph Z) (c print_nodes : bool) (w : world) :
  simple_graph g0 → connected g0 → order g0 ≠ 0%nat →
  (∀ s, py_set_iter s ≡ₚ s) →
  let self := mkSpace g0 c in
  ∃ ls w' total dumps,
    SearchSpace_build py_hash self w = (Ok ls, w') ∧
    SearchSpace_num_partitions None w' = (Ok total, w') ∧
    length dumps = length ls ∧
    (∀ i d, dumps !! i = Some d → d ≡ₚ node_labels <$> level_pure g0 i) ∧
    print_results py_set_iter self print_nodes w'
    = (Ok (BellLine (bell self) :: TotalLine total
           :: level_rows self (print_nodes && negb c) 0 dumps ++ [BlankLine]), w').
Proof.
  intros Hs Hc Hn Hiter self.
  destruct (SearchSpace_build_connected g0 Hs Hc py_hash c w Hn)
    as (w' & Hbuild & Hlv & _ & _ & Hdone).
  set (m := Nat.max (order g0) 2) in *. set (b := length (w_heap w)) in *.
  assert (Hcount : ∀ i, (i < m)%nat →
            num_partitions (b + i) (w_heap w')
            = (Ok (length (level_pure g0 i)), w_heap w')).
  { intros i Hi. destruct (Hdone i Hi) as (lv & Hlv' & Hd).
    by eapply level_done_num_partitions. }
  pose proof (SearchSpace_num_partitions_total w' b m _ Hlv Hcount) as Htotal.
  destruct (print_levels_built py_set_iter self b m (w_heap w') Hiter
              (λ i x _ Hx, proj1 (proj1 (level_pure_partition g0 Hs Hc i x Hx)))
              Hdone print_nodes m 0 ltac:(lia))
    as (dumps & Hlen & Hperm & Hrows).
  rewrite Nat.add_0_r in Hrows.
  exists (seq b m), w', (sum_list ((λ j, length (level_pure g0 j)) <$> seq 0 m)), dumps.
  split; [exact Hbuild|]. split; [exact Htotal|].
  rewrite length_seq. split; [done|]. split; [exact Hperm|].
  unfold print_results. rewrite (bind_Ok _ _ _ _ _ Htotal).
  destruct w' as [l h']. simpl in Hlv, Hrows. subst l.
  unfold levels, bind at 1. simpl.
  by rewrite (bind_Ok _ _ _ _ _ (on_heap_run _ _ _ _ _ Hrows)).
Qed.

Lemma print_results_after_build_witness :
  ∃ w', (SearchSpace_build const_hash (mkSpace path2 false) empty_world).2 = w' ∧
        print_results (λ s, s) (mkSpace path2 false) true w'
        = (Ok [BellLine 2; TotalLine 2;
               LevelLine 0 2 1 1; PartitionsLine [[{[1]}; {[2]}]];
               LevelLine 1 1 1 1; PartitionsLine [[{[1; 2]}]];
               BlankLine], w').
Proof.
  destruct (print_results_after_build const_hash (λ s, s) path2 false true empty_world
              path2_simple path2_connected)
    as (ls & w' & total & dumps & Hbuild & Htotal & Hlen & Hperm & Hprint).
  - by vm_compute.
  - done.
  - exists w'. split; [by rewrite Hbuild|].
    assert (Hls : length ls = 2%nat).
    { pose proof Hbuild as Hb. vm_compute in Hb. by injection Hb as <- _. }
    assert (Ht : total = 2%nat).
    { assert (Hw : w' = (SearchSpace_build const_hash (mkSpace path2 false) empty_world).2)
        by (by rewrite Hbuild).
      pose proof Htotal as Ht. rewrite Hw in Ht. vm_compute in Ht. congruence. }
    rewrite Hls in Hlen. destruct dumps as [|d0 [|d1 [|? ?]]]; try done.
    pose proof (Hperm 0%nat d0 eq_refl) as H0.
    pose proof (Hperm 1%nat d1 eq_refl) as H1.
    assert (E0 : node_labels <$> level_pure path2 0 = [[{[1]}; {[2]}]])
      by (vm_compute; reflexivity).
    assert (E1 : node_labels <$> level_pure path2 1 = [[{[1; 2]}]])
      by (vm_compute; reflexivity).
    rewrite E0 in H0. rewrite E1 in H1.
    apply Permutation_singleton_r in H0, H1. subst d0 d1.
    rewrite Hprint, Ht. reflexivity.
Defined.

(** X19: [levels_to_records] on a built search space returns one record per
    level, in order: the record at position [i] has [level = i],
    [k = n - i], the two bounds of C7 and, between them, the count of the
    level. *)
Theorem levels_to_records_after_build
    (py_hash : list (list fset) → Z) (g0 : Graph Z) (c : bool) (w : world) :
  simple_graph g0 → connected g0 → order g0 ≠ 0%nat →
  let self := mkSpace g0 c in
  ∃ ls w' recs,
    SearchSpace_build py_hash self w = (Ok ls, w') ∧
    levels_to_records self w' = (Ok recs, w') ∧
    length recs = length ls ∧
    ∀ i r, recs !! i = Some r →
      rec_level r = i ∧
      rec_k r = Z.of_nat (order g0) - Z.of_nat i ∧
      rec_num_k_partitions_ub r = num_k_partitions_ub self (Z.of_nat i) ∧
      rec_num_k_partitions_lb r = num_k_partitions_lb self (Z.of_nat i) ∧
      SearchSpace_num_partitions (Some (Z.of_nat i)) w' = (Ok (rec_num_k_partitions r), w') ∧
      rec_num_k_partitions_lb r ≤ Z.of_nat (rec_num_k_partitions r)
        ≤ rec_num_k_partitions_ub r.
Proof.
  intros Hs Hc Hn self.
  destruct (SearchSpace_build_connected g0 Hs Hc py_hash c w Hn)
    as (w' & Hbuild & Hlv & _ & _ & Hdone).
  set (m := Nat.max (order g0) 2) in *. set (b := length (w_heap w)) in *.
  assert (Hcount : ∀ i, (i < m)%nat →
            num_partitions (b + i) (w_heap w')
            = (Ok (length (level_pure g0 i)), w_heap w')).
  { intros i Hi. destruct (Hdone i Hi) as (lv & Hlv' & Hd).
    by eapply level_done_num_partitions. }
  assert (Hnum : ∀ i, (i < m)%nat →
            SearchSpace_num_partitions (Some (Z.of_nat i)) w'
            = (Ok (length (level_pure g0 i)), w')).
  { intros i Hi.
    rewrite (SearchSpace_num_partitions_at w' b m (λ j, length (level_pure g0 j)) Hlv Hcount).
    rewrite bool_decide_eq_true_2 by lia.
    rewrite Z.mod_small by lia. by rewrite Nat2Z.id. }
  pose proof (levels_to_records_built self b m (w_heap w') Hdone w' (seq b m) m 0
                Hlv eq_refl ltac:(lia) Hnum) as Hrec.
  rewrite Nat.add_0_r in Hrec.
  eexists (seq b m), w', _. split; [exact Hbuild|]. split.
  - unfold levels_to_records, levels, bind at 1. rewrite Hlv. exact Hrec.
  - split; [by rewrite length_fmap, !length_seq|].
    intros i r Hr. apply list_lookup_fmap_Some in Hr as (i' & -> & Hi').
    apply lookup_seq in Hi' as [-> Hi]. simpl.
    split; [done|]. split; [done|]. split; [done|]. split; [done|].
    split; [by apply Hnum|].
    unfold num_k_partitions_ub, num_k_partitions_lb, stirling, py_stirling, py_binomial,
      num_nodes. change (ss_graph self) with g0.
    set (n := order g0) in *.
    destruct (Z.of_nat n - Z.of_nat i <? 0) eqn:Hneg; [apply Z.ltb_lt in Hneg; lia|].
    split.
    + destruct (Z.of_nat n - Z.of_nat i - 1 <? 0) eqn:Hneg1; [lia|].
      apply Z.ltb_ge in Hneg1.
      destruct (Z.of_nat n - 1 <? 0) eqn:Hneg2; [apply Z.ltb_lt in Hneg2; lia|].
      apply Nat2Z.inj_le.
      replace (Z.to_nat (Z.of_nat n - 1)) with (n - 1)%nat by lia.
      replace (Z.to_nat (Z.of_nat n - Z.of_nat i - 1)) with (n - i - 1)%nat by lia.
      apply level_pure_ge_binom; [done..|lia].
    + apply Nat2Z.inj_le.
      replace (Z.to_nat (Z.of_nat n - Z.of_nat i)) with (n - i)%nat by lia.
      by apply level_pure_le_stirling.
Qed.

Lemma levels_to_records_after_build_witness :
  ∃ w', (SearchSpace_build const_hash (mkSpace cycle4 true) empty_world).2 = w' ∧
        levels_to_records (mkSpace cycle4 true) w'
        = (Ok [mkRecord 0 4 1 1 1; mkRecord 1 3 6 3 4; mkRecord 2 2 7 3 6;
               mkRecord 3 1 1 1 1], w').
Proof.
  destruct (levels_to_records_after_build const_hash cycle4 true empty_world
              cycle4_simple cycle4_connected)
    as (ls & w' & recs & Hbuild & Hrecs & _).
  - by vm_compute.
  - exists w'. split; [by rewrite Hbuild|].
    rewrite Hrecs. f_equal. f_equal.
    assert (Hw : w' = (SearchSpace_build const_hash (mkSpace cycle4 true) empty_world).2)
      by (by rewrite Hbuild).
    pose proof Hrecs as Hr. rewrite Hw in Hr. vm_compute in Hr. congruence.
Defined.

(** X20: Every level of a connected graph with [n] nodes, [0 <= i < n], holds
    at least one partition, so that the driver may divide by
    [num_partitions(n - k)] for every [k] from [n] down to [1]; the one
    level that can be empty is the second level of a single-node graph. *)
Theorem level_counts_positive
    (py_hash : list (list fset) → Z) (g0 : Graph Z) (c : bool) (w : world) :
  simple_graph g0 → connected g0 → order g0 ≠ 0%nat →
  ∃ ls w',
    SearchSpace_build py_hash (mkSpace g0 c) w = (Ok ls, w') ∧
    (∀ k : Z, 1 ≤ k ≤ Z.of_nat (order g0) →
       ∃ p, SearchSpace_num_partitions (Some (Z.of_nat (order g0) - k)) w' = (Ok p, w') ∧
            (1 ≤ p)%nat) ∧
    (order g0 = 1%nat →
     SearchSpace_num_partitions (Some 1) w' = (Ok 0%nat, w')).
Proof.
  intros Hs Hc Hn.
  destruct (SearchSpace_build_counts py_hash g0 c w Hs Hc Hn)
    as (w' & Hbuild & Hlv & _ & _ & Hcount & _).
  set (m := Nat.max (order g0) 2) in *.
  exists (seq (length (w_heap w)) m), w'. split; [exact Hbuild|]. split.
  - intros k Hk. exists (length (level_pure g0 (Z.to_nat (Z.of_nat (order g0) - k)))).
    rewrite (SearchSpace_num_partitions_at w' _ m (λ j, length (level_pure g0 j)) Hlv Hcount).
    rewrite bool_decide_eq_true_2 by lia. rewrite Z.mod_small by lia.
    split; [done|].
    pose proof (level_pure_nonempty g0 Hs Hc (Z.to_nat (Z.of_nat (order g0) - k))
                  ltac:(lia)) as Hne.
    destruct (level_pure g0 _); [done|simpl; lia].
  - intros H1.
    rewrite (SearchSpace_num_partitions_at w' _ m (λ j, length (level_pure g0 j)) Hlv Hcount).
    rewrite bool_decide_eq_true_2 by lia. rewrite Z.mod_small by lia.
    do 2 f_equal.
    pose proof (level_pure_le_stirling g0 1 Hs Hc) as Hle.
    rewrite H1 in Hle. simpl in Hle. change (Z.to_nat 1) with 1%nat. lia.
Qed.

Lemma level_counts_positive_witness :
  ∃ ls w' p,
    SearchSpace_build const_hash (mkSpace path3 true) empty_world = (Ok ls, w') ∧
    SearchSpace_num_partitions (Some 2) w' = (Ok p, w') ∧ (1 ≤ p)%nat.
Proof.
  destruct (level_counts_positive const_hash path3 true empty_world
              path3_simple path3_connected)
    as (ls & w' & Hbuild & Hpos & _).
  - by vm_compute.
  - destruct (Hpos 1) as (p & Hp & Hge); [vm_compute; split; discriminate|].
    exists ls, w', p. split; [exact Hbuild|]. split; [exact Hp|exact Hge].
Defined.

(** ** Expanding a level of reachable partition nodes *)




(** ** The children of one partition node *)

Lemma omap_ok_lookup {A B} (f : A → res B) (l : list A) :
  (∀ e, e ∈ l → ∃ c, f e = Ok c) →
  length (omap ok_result (f <$> l)) = length l ∧
  ∀ i c, omap ok_result (f <$> l) !! i = Some c →
         ∃ e, l !! i = Some e ∧ f e = Ok c.
Proof.
  induction l as [|e l IH]; intros Hall; [split; [done|]; by intros i c; rewrite lookup_nil|].
  destruct (Hall e) as [c Hc]; [by left|].
  destruct IH as [IHlen IHi]; [intros e' He'; apply Hall; by right|].
  cbn [fmap list_fmap omap list_omap]. rewrite Hc. cbn [ok_result].
  split; [simpl; by rewrite <- IHlen|].
  intros [|i] c'; simpl.
  - intros [= <-]. by exists e.
  - apply IHi.
Qed.

Lemma foldl_insert_node_distinct cs acc :
  pairwise_ne (acc ++ cs) → foldl insert_node acc cs = acc ++ cs.
Proof.
  revert acc. induction cs as [|c cs IH]; intros acc Hne; simpl; [by rewrite app_nil_r|].
  assert (Hex : existsb (λ y, SearchSpaceNode_eq y c) acc = false).
  { apply not_true_is_false. intros Hex. apply existsb_exists in Hex as (y & Hy & Heq).
    apply list_elem_of_In, list_elem_of_lookup in Hy as [i Hi].
    pose proof (lookup_lt_Some _ _ _ Hi) as Hlt.
    rewrite (Hne i (length acc) y c) in Heq; [done|done| |].
    - by rewrite lookup_app_l.
    - by rewrite lookup_app_r, Nat.sub_diag by lia. }
  unfold insert_node at 2. rewrite Hex.
  rewrite IH; [by rewrite <- app_assoc|]. by rewrite <- app_assoc.
Qed.

(** Different edges of a partition node yield children that do not
    compare equal. *)
Lemma children_differ g0 x e1 e2 c1 c2 :
  partition_node g0 x → e1 ∈ edges (_graph x) → e2 ∈ edges (_graph x) → e1 ≠ e2 →
  expand_child (_graph x) e1 = Ok c1 → expand_child (_graph x) e2 = Ok c2 →
  SearchSpaceNode_eq c1 c2 = false.
Proof.
  intros Hx He1 He2 Hne Hc1 Hc2. destruct e1 as [s1 t1], e2 as [s2 t2].
  destruct (expand_child_partition g0 x s1 t1 Hx He1) as (c1' & Hc1' & Hp1 & _ & Hn1 & _).
  destruct (expand_child_partition g0 x s2 t2 Hx He2) as (c2' & Hc2' & Hp2 & _ & Hn2 & _).
  assert (c1' = c1) as -> by congruence. assert (c2' = c2) as -> by congruence.
  destruct (edge_ends g0 x s1 t1 Hx He1) as (Hs1 & Ht1 & _ & Hst1 & Hs1ne & Ht1ne & _).
  destruct (edge_ends g0 x s2 t2 Hx He2) as (Hs2 & Ht2 & _ & Hst2 & _).
  pose proof Hx as ([Hwf _] & Hdis & _).
  apply not_true_is_false. intros Heq.
  pose proof (eq_blocks g0 c1 c2 Hp1 Hp2 Heq) as Hb.
  rewrite (child_blocks g0 x s1 t1 c1 Hx He1 Hn1) in Hb.
  rewrite (child_blocks g0 x s2 t2 c2 Hx He2 Hn2) in Hb.
  assert (Hin : s1 ∪ t1 ∈ ({[s2 ∪ t2]} ∪ blocks x ∖ {[s2]} ∖ {[t2]} : gset fset)).
  { rewrite <- Hb. apply elem_of_union. left. by apply elem_of_singleton. }
  apply elem_of_union in Hin as [Hin|Hin].
  2:{ apply elem_of_difference in Hin as [Hin _]. apply elem_of_difference in Hin as [Hin _].
      apply elem_of_blocks in Hin. by apply (merged_not_node g0 x s1 t1 Hx He1). }
  apply elem_of_singleton in Hin.
  assert (Hblock : ∀ a, a ∈ nodes (_graph x) → a ≠ ∅ → a ⊆ s2 ∪ t2 → a = s2 ∨ a = t2).
  { intros a Ha Hane Hsub.
    destruct (decide (a = s2)) as [|Has]; [by left|].
    destruct (decide (a = t2)) as [|Hat]; [by right|].
    pose proof (Hdis a s2 Ha Hs2 Has). pose proof (Hdis a t2 Ha Ht2 Hat).
    exfalso. apply Hane. clear -Hsub H H0. set_solver. }
  destruct (Hblock s1 Hs1 Hs1ne) as [Hs|Hs]; [rewrite <- Hin; clear; set_solver|..];
    destruct (Hblock t1 Ht1 Ht1ne) as [Ht|Ht]; try (rewrite <- Hin; clear; set_solver);
    subst; try done.
  by rewrite (edges_antisym _ _ _ Hwf He1 He2) in Hst1.
Qed.

Lemma next_nodes_single g0 x :
  partition_node g0 x → length (next_nodes [x]) = number_of_edges (_graph x).
Proof.
  intros Hx. pose proof Hx as ([Hwf _] & _).
  unfold next_nodes. simpl. rewrite app_nil_r. unfold ok_children, SearchSpaceNode_expand.
  destruct (omap_ok_lookup (expand_child (_graph x)) (edges (_graph x))) as [Hlen Hi].
  { intros [s t] He. destruct (expand_child_partition g0 x s t Hx He) as (c & Hc & _).
    by exists c. }
  rewrite foldl_insert_node_distinct.
  - simpl. rewrite Hlen. unfold number_of_edges. by rewrite edges_len_length.
  - simpl. intros i j y z Hij Hy Hz.
    destruct (Hi i y Hy) as (e1 & He1 & Hc1). destruct (Hi j z Hz) as (e2 & He2 & Hc2).
    apply (children_differ g0 x e1 e2); [done| | | |done..].
    + by eapply list_elem_of_lookup_2.
    + by eapply list_elem_of_lookup_2.
    + intros ->. pose proof (NoDup_edges _ Hwf) as Hnd.
      pose proof (NoDup_lookup _ _ _ _ Hnd He1 He2). lia.
Qed.

(** X22: The second level of a search space holds one partition per edge of
    the graph: [num_partitions(1)] is [num_edges]. *)
Theorem level_one_counts_edges
    (py_hash : list (list fset) → Z) (g0 : Graph Z) (c : bool) (w : world) :
  simple_graph g0 → connected g0 → order g0 ≠ 0%nat →
  ∃ ls w',
    SearchSpace_build py_hash (mkSpace g0 c) w = (Ok ls, w') ∧
    SearchSpace_num_partitions (Some 1) w' = (Ok (num_edges (mkSpace g0 c)), w').
Proof.
  intros Hs Hc Hn.
  destruct (SearchSpace_build_counts py_hash g0 c w Hs Hc Hn)
    as (w' & Hbuild & Hlv & _ & _ & Hcount & _).
  set (m := Nat.max (order g0) 2) in *.
  exists (seq (length (w_heap w)) m), w'. split; [exact Hbuild|].
  rewrite (SearchSpace_num_partitions_at w' _ m (λ j, length (level_pure g0 j)) Hlv Hcount).
  rewrite bool_decide_eq_true_2 by lia. rewrite Z.mod_small by lia.
  change (Z.to_nat 1) with 1%nat. do 2 f_equal.
  destruct (level_pure_0 g0 Hs Hc) as (root & Hroot & Hl & Hp & _).
  rewrite level_pure_S, Hl, (next_nodes_single g0 root Hp).
  destruct (init_int_frozen g0 (proj1 Hs)) as (x & Hx & _ & _ & _ & _ & He).
  assert (x = root) as -> by congruence. done.
Qed.

Lemma level_one_counts_edges_witness :
  ∃ ls w',
    SearchSpace_build const_hash (mkSpace cycle4 true) empty_world = (Ok ls, w') ∧
    SearchSpace_num_partitions (Some 1) w' = (Ok 4%nat, w').
Proof.
  destruct (level_one_counts_edges const_hash cycle4 true empty_world
              cycle4_simple cycle4_connected)
    as (ls & w' & Hbuild & Hnum).
  - by vm_compute.
  - exists ls, w'. split; [exact Hbuild|exact Hnum].
Defined.

(** X4: Merging two clusters removes the edge between them and may unite
    parallel edges, so every child has fewer edges than its parent. *)
Theorem expand_child_fewer_edges (g0 : Graph Z) (x : SearchSpaceNode) (s t : fset) :
  simple_graph g0 → connected g0 → reachable g0 x → (s, t) ∈ edges (_graph x) →
  ∃ c, expand_child (_graph x) (s, t) = Ok c ∧
       (number_of_edges (_graph c) < number_of_edges (_graph x))%nat.
Proof.
  intros Hs Hc Hr Hst.
  pose proof (reachable_partition_node g0 x Hs Hc Hr) as Hx.
  destruct (expand_child_partition g0 x s t Hx Hst) as (c & Hcc & Hpc & _ & _ & Ha).
  exists c. split; [done|].
  pose proof Hx as ([Hwfx _] & _). pose proof Hpc as ([Hwfc _] & _).
  unfold number_of_edges. rewrite !edges_len_length by done.
  set (f := merged_label (s, t)) in *.
  set (rest := filter (λ e, e ≠ (s, t)) (edges (_graph x))).
  assert (Hrest : (length rest < length (edges (_graph x)))%nat).
  { apply (length_filter_lt _ _ (s, t)); [done|]. by intros Hn. }
  assert (Hle : (length (edges (_graph c)) ≤ length rest)%nat); [|lia].
  rewrite <- (length_fmap (λ e : fset * fset, orient_in (_graph c) (f e.1, f e.2)) rest).
  apply submseteq_length, NoDup_submseteq; [by apply NoDup_edges|].
  intros [l1 l2] Hl. pose proof (edges_adjacent _ _ _ Hl) as Hadj.
  apply Ha in Hadj as (a & b & Hab & Hnot & H1 & H2). fold f in H1, H2.
  apply list_elem_of_fmap.
  destruct (adjacent_edges _ a b Hwfx Hab) as [He|He].
  - exists (a, b). split.
    + simpl. rewrite <- H1, <- H2. unfold orient_in. by rewrite decide_True.
    + apply list_elem_of_filter. split; [|done]. intros [= -> ->]. tauto.
  - exists (b, a). split.
    + simpl. rewrite <- H1, <- H2. unfold orient_in.
      destruct (decide ((l2, l1) ∈ edges (_graph c))) as [Hin|Hnin]; [|done].
      by rewrite (edges_antisym _ _ _ Hwfc Hl Hin).
    + apply list_elem_of_filter. split; [|done]. intros [= -> ->]. tauto.
Qed.

Lemma expand_child_fewer_edges_witness :
  ∃ root c,
    SearchSpaceNode_init cycle4 = Ok root ∧
    expand_child (_graph root) ({[1]}, {[2]}) = Ok c ∧
    (number_of_edges (_graph c) < number_of_edges (_graph root))%nat.
Proof.
  destruct (SearchSpaceNode_init_root cycle4 cycle4_simple cycle4_connected)
    as (root & Hroot & _).
  destruct (expand_child_fewer_edges cycle4 root {[1]} {[2]}
              cycle4_simple cycle4_connected (reachable_root cycle4 root Hroot))
    as (c & Hc & Hlt).
  - pose proof Hroot as Hr. vm_compute in Hr. injection Hr as <-.
    vm_compute. apply list_elem_of_In. simpl. tauto.
  - exists root, c. split; [exact Hroot|]. split; [exact Hc|exact Hlt].
Defined.
